(** * Net::Http and Polling::Epoll

    A shallow embedding of [src/http.cc] (the incremental request parser,
    the query mapping, the response serializer and the connection glue) and
    of [CpuSet] and [Polling::Epoll] from [src/os.cc], followed by the
    properties established about them.

    Byte strings are [string]s (one [ascii] per byte); positions in the
    parser's buffer are [nat]s; sizes that the code keeps in [size_t] or
    [uint64_t] and subtracts are [N]s with the wrap-around written out. *)

From Stdlib Require Import ZArith NArith List Ascii String Lia Bool DecimalString.
From stdpp Require Import base option gmap strings list.

Open Scope string_scope.

(** ** Bytes *)

Definition CR : ascii := "013"%char.
Definition LF : ascii := "010"%char.
Definition SP : ascii := " "%char.
Definition NUL : ascii := "000"%char.

(** The two bytes [crlf(os)] writes, [{0xD, 0xA}]; they also end every
    line of a request. *)
Definition CRLF : string := String CR (String LF "").

Definition byte_eqb (a b : ascii) : bool := Ascii.eqb a b.

(** [cur_is c o]: the comparison [cursor.current() == c], where [o] is the
    byte under the cursor, if any. *)
Definition cur_is (c : ascii) (o : option ascii) : bool :=
  match o with
  | Some d => byte_eqb d c
  | None => false
  end.

Fixpoint str_drop (n : nat) (s : string) : string :=
  match n, s with
  | O, _ => s
  | S n', String _ s' => str_drop n' s'
  | S _, EmptyString => EmptyString
  end.

Fixpoint str_take (n : nat) (s : string) : string :=
  match n, s with
  | S n', String c s' => String c (str_take n' s')
  | _, _ => EmptyString
  end.

Fixpoint str_repeat (c : ascii) (n : nat) : string :=
  match n with
  | O => EmptyString
  | S n' => String c (str_repeat c n')
  end.

(** [strncmp(s1, s2, n)]: compares at most [n] bytes and stops after a NUL
    byte; a C string literal reads NUL at its end.  The result is the
    difference of the first two bytes that differ, 0 if there is none. *)
Definition c_byte (s : string) : ascii :=
  match s with
  | String c _ => c
  | EmptyString => NUL
  end.

Definition c_tail (s : string) : string :=
  match s with
  | String _ s' => s'
  | EmptyString => EmptyString
  end.

Fixpoint strncmp (s1 s2 : string) (n : nat) : Z :=
  match n with
  | O => 0%Z
  | S n' =>
      let c1 := c_byte s1 in
      let c2 := c_byte s2 in
      if negb (byte_eqb c1 c2)
      then (Z.of_nat (nat_of_ascii c1) - Z.of_nat (nat_of_ascii c2))%Z
      else if byte_eqb c1 NUL then 0%Z
      else strncmp (c_tail s1) (c_tail s2) n'
  end.

(** Decimal rendering, as [operator<<] does for integers. *)
Definition dec (n : N) : string := NilZero.string_of_uint (N.to_uint n).

(** ** The request and response model *)

Inductive Method :=
  | Options | Get | Post | Head | Put | Delete | Trace | Connect | Patch.

Inductive Version := Http10 | Http11.

(** [Code]: the enumeration is declared in a header that is not part of
    the sources.  The sources convert it from and to [int]
    ([static_cast<Code>(err.code())], [static_cast<int>(code)]) without
    looking at the value, so a code is the [int] it stands for, whether
    the enumeration names it or not. *)
Definition Code : Type := Z.

(** Modelled from the spec: the codes the sources name, with their
    numbers. *)
Definition Ok : Code := 200%Z.
Definition Bad_Request : Code := 400%Z.
Definition Request_Entity_Too_Large : Code := 413%Z.
Definition Internal_Server_Error : Code := 500%Z.

(** [static_cast<int>(code)] *)
Definition codeNumber (c : Code) : Z := c.

(** [stream << n] for an [int]: the decimal digits, after a minus sign
    when [n] is negative. *)
Definition dec_int (n : Z) : string :=
  if (n <? 0)%Z then "-" +:+ dec (Z.to_N (- n)) else dec (Z.to_N n).

Record HttpError := mkHttpError { err_code : Code; err_reason : string }.

(** *** Uri::Query *)

Module Uri.

(** [params] is a map with unique keys from name to value. *)
Record Query := mkQuery { params : gmap string string }.

(** [Query::Query()] *)
Definition Query_new : Query := mkQuery ∅.

(** [Query::add]: [params.insert(make_pair(name, value))]; [insert] on a
    map with unique keys leaves an existing entry as it is. *)
Definition Query_add (name value : string) (q : Query) : Query :=
  match params q !! name with
  | Some _ => q
  | None => mkQuery (<[name := value]> (params q))
  end.

(** [Query::get]: [find], then [None()] or [Some(it->second)]. *)
Definition Query_get (name : string) (q : Query) : option string :=
  params q !! name.

End Uri.

(** *** Header collection *)

Module Header.

(** Modelled from the spec: the header collection and the typed headers
    are defined outside the sources.  A header is its name, whether it is
    the typed form, and its value text: what [parseRaw] was given for a
    request header, what [write] emits for a response header. *)
Record Header := mkHeader { name : string; typed : bool; text : string }.

(** Modelled from the spec: the collection is ordered, and [add] replaces
    a header of the same name. *)
Definition Collection := list Header.

Definition has_name (n : string) (h : Header) : bool := String.eqb (name h) n.

Fixpoint add (h : Header) (c : Collection) : Collection :=
  match c with
  | [] => [h]
  | h' :: c' => if has_name (name h) h' then h :: c' else h' :: add h c'
  end.

Definition Raw (n v : string) : Header := mkHeader n false v.

Definition addRaw (h : Header) (c : Collection) : Collection := add h c.

(** Modelled from the spec: [tryGet<H>()] is the typed header named
    [H::Name], if there is one. *)
Definition tryGet (n : string) (c : Collection) : option Header :=
  List.find (fun h => typed h && has_name n h) c.

(** Lookup by name, typed or raw. *)
Definition get (n : string) (c : Collection) : option string :=
  text <$> List.find (has_name n) c.

Definition clear (c : Collection) : Collection := [].

Definition ContentLength_Name : string := "Content-Length".
Definition ContentType_Name : string := "Content-Type".

(** Modelled from the spec: [ContentLength::value()] is the number the
    value text spells in decimal (leading digits; 0 when there is none). *)
Definition digit_of (c : ascii) : option N :=
  let n := N_of_ascii c in
  if ((48 <=? n) && (n <=? 57))%N then Some (n - 48)%N else None.

Fixpoint parse_digits (s : string) (acc : N) : N :=
  match s with
  | EmptyString => acc
  | String c s' =>
      match digit_of c with
      | Some d => parse_digits s' (10 * acc + d)%N
      | None => acc
      end
  end.

Definition ContentLength_value (h : Header) : N := parse_digits (text h) 0.

End Header.

(** *** Mime::MediaType *)

(** Modelled from the spec: the media type is defined outside the sources;
    it is either absent (not valid) or the text it is written as. *)
Inductive MediaType := NoMime | Mime (s : string).

Definition isValid (m : MediaType) : bool :=
  match m with NoMime => false | Mime _ => true end.

Definition mimeText (m : MediaType) : string :=
  match m with NoMime => "" | Mime s => s end.

(** *** Request *)

(** [method_] is left unset by [Request::Request()]; [version_] starts as
    [Http11] ([Message::Message()]). *)
Record Request := mkRequest {
  method_ : option Method;
  version_ : Version;
  resource_ : string;
  query_ : Uri.Query;
  headers_ : Header.Collection;
  body_ : string
}.

Definition Request_new : Request :=
  mkRequest None Http11 "" Uri.Query_new [] "".

(** ** The stream cursor *)

Module StreamCursor.

(** Modelled from the spec: the cursor class and the matching helpers are
    declared outside the sources.  A cursor is a position [pos] in the
    bytes [buf] fed so far. *)

Definition remaining (buf : string) (pos : nat) : nat := String.length buf - pos.

Definition eof (buf : string) (pos : nat) : bool := Nat.eqb (remaining buf pos) 0.

(** Modelled from the spec: [current()] is the byte under the cursor;
    there is none at the end. *)
Definition current (buf : string) (pos : nat) : option ascii := String.get pos buf.

(** Modelled from the spec: [advance(n)] succeeds iff at least [n] bytes
    remain, and does not move the cursor when it fails. *)
Definition advance (buf : string) (pos : nat) (n : N) : option nat :=
  if (n <=? N.of_nat (remaining buf pos))%N then Some (pos + N.to_nat n) else None.

(** Modelled from the spec: [eol()] holds iff the two bytes at the cursor
    are CR, LF. *)
Definition eol (buf : string) (pos : nat) : bool :=
  cur_is CR (current buf pos) && cur_is LF (current buf (S pos)).

(** Modelled from the spec: a token yields the span [[start, pos)]. *)
Definition token_text (buf : string) (start pos : nat) : string :=
  substring start (pos - start) buf.

(** Modelled from the spec: [std::string(offset(off), n)] and
    [append(offset(off), n)] copy [n] bytes of the array from offset
    [off]; a copy of no byte reads nothing.  Within the bytes fed so far
    these are the bytes fed; neither the spec nor the sources say what
    the cells after them hold, nor that there are [n] of them: such a
    read has no result here. *)
Definition read (buf : string) (off : nat) (n : nat) : option string :=
  if Nat.eqb n 0 || (off + n <=? String.length buf)%nat
  then Some (substring off n buf)
  else None.

(** Modelled from the spec: [match_raw(literal, cursor)] matches iff the
    literal is at the cursor. *)
Definition matches (lit : string) (buf : string) (pos : nat) : bool :=
  String.eqb (substring pos (String.length lit) buf) lit.

(** The offset of the first suffix of [s] at which [stop] holds; the
    scan fails when the bytes run out first. *)
Fixpoint scan (stop : string -> bool) (s : string) : option nat :=
  if stop s then Some 0
  else match s with
       | EmptyString => None
       | String _ s' => S <$> scan stop s'
       end.

End StreamCursor.

(** ** The parser *)

Module Private.

Inductive State := Again | Next | Done.

(** [Parser]: the buffer, the cursor over it, the index of the current
    step, the request being built, and [BodyStep::bytesRead]. *)
Record Parser := mkParser {
  buffer : string;
  cursor : nat;
  currentStep : nat;
  request : Request;
  bytesRead : N
}.

Definition Parser_new : Parser := mkParser "" 0 0 Request_new 0.

Definition set_cursor (q : nat) (p : Parser) : Parser :=
  mkParser (buffer p) q (currentStep p) (request p) (bytesRead p).
Definition set_currentStep (i : nat) (p : Parser) : Parser :=
  mkParser (buffer p) (cursor p) i (request p) (bytesRead p).
Definition set_request (r : Request) (p : Parser) : Parser :=
  mkParser (buffer p) (cursor p) (currentStep p) r (bytesRead p).
Definition set_bytesRead (n : N) (p : Parser) : Parser :=
  mkParser (buffer p) (cursor p) (currentStep p) (request p) n.

(** *** Control flow of a step

    A step runs on the parser it belongs to.  It goes on with a value,
    leaves with [return State::Again] ([Suspend]), throws an [HttpError]
    ([Throw]), or lets an exception of the standard library pass
    ([Escapes]).  [Overrun] is a read of array cells past the bytes fed,
    which has no result.  [Undefined] marks what the embedding does not
    follow: a loop that outran its fuel, or an index past [allSteps]. *)
Inductive StdError := length_error | bad_alloc.

Inductive Flow (A : Type) :=
  | Go (a : A)
  | Suspend
  | Throw (e : HttpError)
  | Escapes (e : StdError)
  | Overrun
  | Undefined.
Arguments Go {A} a.
Arguments Suspend {A}.
Arguments Throw {A} e.
Arguments Escapes {A} e.
Arguments Overrun {A}.
Arguments Undefined {A}.

Definition M (A : Type) : Type := Parser -> Parser * Flow A.

Definition ret {A} (a : A) : M A := fun p => (p, Go a).

Definition bind {A B} (m : M A) (f : A -> M B) : M B := fun p =>
  match m p with
  | (p', Go a) => f a p'
  | (p', Suspend) => (p', Suspend)
  | (p', Throw e) => (p', Throw e)
  | (p', Escapes e) => (p', Escapes e)
  | (p', Overrun) => (p', Overrun)
  | (p', Undefined) => (p', Undefined)
  end.

Declare Scope step_scope.
Delimit Scope step_scope with step.
Notation "x ← y ; z" := (bind y (fun x => z))
  (at level 20, y at level 100, z at level 200, only parsing) : step_scope.
Notation "x ;; z" := (bind x (fun _ => z))
  (at level 100, z at level 200, only parsing, right associativity) : step_scope.
Local Open Scope step_scope.

Definition again {A} : M A := fun p => (p, Suspend).
Definition undefined {A} : M A := fun p => (p, Undefined).

(** [Step::raise] *)
Definition raise {A} (msg : string) (code : Code) : M A :=
  fun p => (p, Throw (mkHttpError code msg)).

Definition get_parser : M Parser := fun p => (p, Go p).
Definition modify (f : Parser -> Parser) : M unit := fun p => (f p, Go tt).
Definition modify_request (f : Request -> Request) : M unit :=
  modify (fun p => set_request (f (request p)) p).

(** Cursor operations on the parser's cursor. *)
Definition position : M nat := fun p => (p, Go (cursor p)).
Definition cursor_current : M (option ascii) :=
  fun p => (p, Go (StreamCursor.current (buffer p) (cursor p))).
Definition cursor_eof : M bool :=
  fun p => (p, Go (StreamCursor.eof (buffer p) (cursor p))).
Definition cursor_eol : M bool :=
  fun p => (p, Go (StreamCursor.eol (buffer p) (cursor p))).
Definition cursor_remaining : M nat :=
  fun p => (p, Go (StreamCursor.remaining (buffer p) (cursor p))).
Definition cursor_advance (n : N) : M bool := fun p =>
  match StreamCursor.advance (buffer p) (cursor p) n with
  | Some q => (set_cursor q p, Go true)
  | None => (p, Go false)
  end.
Definition text_from (start : nat) : M string :=
  fun p => (p, Go (StreamCursor.token_text (buffer p) start (cursor p))).
Definition cursor_read (off n : nat) : M string := fun p =>
  match StreamCursor.read (buffer p) off n with
  | Some s => (p, Go s)
  | None => (p, Overrun)
  end.

(** [if (!cursor.advance(n)) return State::Again;] *)
Definition advance_or_again (n : N) : M unit :=
  b ← cursor_advance n; if b then ret tt else again.

(** [while (cond) if (!cursor.advance(1)) return State::Again;] where
    [cond] looks at the bytes from the cursor on.  When the bytes run
    out the cursor is at the end and the step leaves with [Again]. *)
Definition advance_while (cond : string -> bool) : M unit := fun p =>
  match StreamCursor.scan (fun s => negb (cond s))
          (str_drop (cursor p) (buffer p)) with
  | Some k => (set_cursor (cursor p + k) p, Go tt)
  | None => (set_cursor (String.length (buffer p)) p, Suspend)
  end.

Definition first_is (c : ascii) (s : string) : bool :=
  match s with String d _ => byte_eqb d c | EmptyString => false end.

Definition at_eol (s : string) : bool :=
  match s with
  | String c (String d _) => byte_eqb c CR && byte_eqb d LF
  | _ => false
  end.

(** Modelled from the spec: [match_raw(str, len, cursor)] moves past the
    literal iff it matches at the cursor. *)
Definition match_raw (lit : string) : M bool := fun p =>
  if StreamCursor.matches lit (buffer p) (cursor p)
  then (set_cursor (cursor p + String.length lit) p, Go true)
  else (p, Go false).

(** Modelled from the spec: [match_until(chars, cursor)], declared outside
    the sources, moves to the first of the given bytes (the end of a key or
    of a value); false, with the cursor at the end, when there is none. *)
Definition match_until (chars : list ascii) : M bool := fun p =>
  match StreamCursor.scan (fun s => existsb (fun c => first_is c s) chars)
          (str_drop (cursor p) (buffer p)) with
  | Some k => (set_cursor (cursor p + k) p, Go true)
  | None => (set_cursor (String.length (buffer p)) p, Go false)
  end.

(** Modelled from the spec: [StreamCursor::Revert] puts the cursor back
    where it was when the guard was taken, unless the guard was released
    ([ignore()]), which the steps do only on the path that completes. *)
Definition Revert {A} (body : M A) : M A := fun p =>
  match body p with
  | (p', Go a) => (p', Go a)
  | (p', r) => (set_cursor (cursor p) p', r)
  end.

(** The [State] a step hands back to the driver. *)
Definition as_state (body : M State) : M State := fun p =>
  match body p with
  | (p', Suspend) => (p', Go Again)
  | r => r
  end.

(** Modelled from the spec: the method table ([HTTP_METHODS]) is a macro
    defined outside the sources; these are the methods the server
    recognises, in the order the spec lists them. *)
Definition Methods : list (string * Method) :=
  [ ("OPTIONS", Options); ("GET", Get); ("POST", Post); ("HEAD", Head);
    ("PUT", Put); ("DELETE", Delete); ("TRACE", Trace);
    ("CONNECT", Connect); ("PATCH", Patch) ].

Definition set_method (m : Method) (r : Request) : Request :=
  mkRequest (Some m) (version_ r) (resource_ r) (query_ r) (headers_ r) (body_ r).
Definition set_version (v : Version) (r : Request) : Request :=
  mkRequest (method_ r) v (resource_ r) (query_ r) (headers_ r) (body_ r).
Definition set_resource (s : string) (r : Request) : Request :=
  mkRequest (method_ r) (version_ r) s (query_ r) (headers_ r) (body_ r).
Definition set_query (q : Uri.Query) (r : Request) : Request :=
  mkRequest (method_ r) (version_ r) (resource_ r) q (headers_ r) (body_ r).
Definition set_headers (h : Header.Collection) (r : Request) : Request :=
  mkRequest (method_ r) (version_ r) (resource_ r) (query_ r) h (body_ r).
Definition set_body (b : string) (r : Request) : Request :=
  mkRequest (method_ r) (version_ r) (resource_ r) (query_ r) (headers_ r) b.

(** *** RequestLineStep::apply *)

(** The loop over [Methods]: the first literal that matches. *)
Fixpoint match_method (ms : list (string * Method)) : M bool :=
  match ms with
  | [] => ret false
  | (str, repr) :: ms' =>
      b ← match_raw str;
      if b then modify_request (set_method repr);; ret true
      else match_method ms'
  end.

(** The loop over the [key=value] pairs of the query. *)
Fixpoint query_loop (fuel : nat) : M unit :=
  n ← cursor_current;
  if negb (cur_is SP n) then
    match fuel with
    | O => undefined
    | S fuel' =>
        keyToken ← position;
        b ← match_until ["="%char];
        (if negb b then again else ret tt);;
        key ← text_from keyToken;
        advance_or_again 1;;
        valueToken ← position;
        b ← match_until [SP; "&"%char];
        (if negb b then again else ret tt);;
        value ← text_from valueToken;
        modify_request (fun r => set_query (Uri.Query_add key value (query_ r)) r);;
        n ← cursor_current;
        (if cur_is "&" n then advance_or_again 1 else ret tt);;
        query_loop fuel'
    end
  else ret tt.

Definition version_of (ver : string) (size : nat) : M unit :=
  if (strncmp ver "HTTP/1.0" size =? 0)%Z then
    modify_request (set_version Http10)
  else if (strncmp ver "HTTP/1.1" size =? 0)%Z then
    modify_request (set_version Http11)
  else raise "Encountered invalid HTTP version" Bad_Request.

Definition RequestLineStep_body (fuel : nat) : M State :=
  (* Method *)
  found ← match_method Methods;
  (if negb found then raise "Unknown HTTP request method" Bad_Request
   else ret tt);;
  e ← cursor_eof;
  (if e then again
   else n ← cursor_current;
        if negb (cur_is SP n)
        then raise "Malformed HTTP request after Method, expected SP" Bad_Request
        else ret tt);;
  advance_or_again 1;;
  resToken ← position;
  advance_while (fun s => negb (first_is "?" s) && negb (first_is SP s));;
  n ← cursor_current;
  res ← text_from resToken;
  modify_request (set_resource res);;
  (* Query parameters of the Uri *)
  (if cur_is "?" n then advance_or_again 1;; query_loop fuel else ret tt);;
  (* SP *)
  advance_or_again 1;;
  (* HTTP-Version *)
  versionToken ← position;
  advance_while (fun s => negb (at_eol s));;
  ver ← text_from versionToken;
  version_of ver (String.length ver);;
  advance_or_again 2;;
  ret Next.

Definition RequestLineStep_apply (fuel : nat) : M State :=
  as_state (Revert (RequestLineStep_body fuel)).

(** *** HeadersStep::apply, BodyStep::apply and the driver *)

Section Driver.

(** [Header::Registry::isRegistered]: the registry of typed headers is
    outside the sources. *)
Variable isRegistered : string -> bool.

(** [Const::MaxBuffer], the capacity of the parser's buffer; the
    constant is declared outside the sources. *)
Variable MaxBuffer : nat.

(** One header field, under its own guard ([headerRevert]). *)
Definition header_field : M unit :=
  Revert (
    (* Read the header name *)
    start ← position;
    advance_while (fun s => negb (first_is ":" s));;
    (* Skip the ':' *)
    advance_or_again 1;;
    p ← get_parser;
    let name := substring start (cursor p - start - 1) (buffer p) in
    (* Ignore spaces *)
    advance_while (first_is SP);;
    (* Read the header value *)
    start ← position;
    advance_while (fun s => negb (at_eol s));;
    value ← text_from start;
    modify_request (fun r =>
      if isRegistered name then
        set_headers (Header.add (Header.mkHeader name true value) (headers_ r)) r
      else
        set_headers (Header.addRaw (Header.Raw name value) (headers_ r)) r);;
    (* CRLF *)
    advance_or_again 2).

Fixpoint headers_loop (fuel : nat) : M unit :=
  b ← cursor_eol;
  if negb b then
    match fuel with
    | O => undefined
    | S fuel' => header_field;; headers_loop fuel'
    end
  else ret tt.

Definition HeadersStep_apply (fuel : nat) : M State :=
  as_state (Revert (headers_loop fuel;; ret Next)).

(** [size_t] arithmetic. *)
Definition size_max : N := 2 ^ 64.
Definition size_sub (a b : N) : N := ((a + size_max - b mod size_max) mod size_max)%N.
Definition size_add (a b : N) : N := ((a + b) mod size_max)%N.

Definition append_body (s : string) : M unit :=
  modify_request (fun r => set_body (body_ r +:+ s) r).

(** [std::string::reserve] throws [std::length_error] for a capacity
    above [max_size()] and [std::bad_alloc] when the allocator refuses
    the storage; both are decided outside the sources.
    [reserve_throws n] is what a call for a capacity of [n] bytes throws,
    if anything. *)
Variable reserve_throws : N -> option StdError.

(** [request->body_.reserve(contentLength)].  A capacity of no more bytes
    than the buffer holds is below [max_size()], and is taken to be
    granted as the storage of every other string the parser builds from
    the bytes of its buffer is; for a larger one, [reserve_throws]
    decides. *)
Definition reserve_body (n : N) : M unit := fun p =>
  if (n <=? N.of_nat (String.length (buffer p)))%N then (p, Go tt)
  else match reserve_throws n with
       | Some e => (p, Escapes e)
       | None => (p, Go tt)
       end.

(** The branch taken when [advance] fails: append what is there, count
    it, move past it, and leave with [Again]. *)
Definition read_available (start : nat) : M unit :=
  available ← cursor_remaining;
  s ← cursor_read start available;
  append_body s;;
  modify (fun p => set_bytesRead (size_add (bytesRead p) (N.of_nat available)) p);;
  cursor_advance (N.of_nat available);;
  again.

Definition BodyStep_body : M State :=
  p ← get_parser;
  match Header.tryGet Header.ContentLength_Name (headers_ (request p)) with
  | None => ret Done
  | Some cl =>
      let contentLength := Header.ContentLength_value cl in
      (* We already started to read some bytes but we got an incomplete payload *)
      (if (0 <? bytesRead p)%N then
         let remaining := size_sub contentLength (bytesRead p) in
         start ← position;
         b ← cursor_advance remaining;
         if negb b then read_available start
         else
           off ← position;
           s ← cursor_read off (N.to_nat remaining);
           append_body s
       (* This is the first time we are reading the payload *)
       else
         advance_or_again 2;;
         reserve_body contentLength;;
         start ← position;
         b ← cursor_advance contentLength;
         if negb b then read_available start
         else
           s ← cursor_read start (N.to_nat contentLength);
           append_body s);;
      modify (set_bytesRead 0);;
      ret Done
  end.

Definition BodyStep_apply : M State := as_state BodyStep_body.

(** [allSteps]: request line, headers, body. *)
Definition allSteps (fuel : nat) : list (M State) :=
  [RequestLineStep_apply fuel; HeadersStep_apply fuel; BodyStep_apply].

(** The [do ... while (state == State::Next)] loop of [Parser::parse];
    [n] bounds the number of steps run in one call. *)
Fixpoint parse_loop (n fuel : nat) : M State :=
  p ← get_parser;
  match allSteps fuel !! currentStep p with
  | None => undefined
  | Some step =>
      state ← step;
      match state with
      | Next =>
          modify (fun p => set_currentStep (S (currentStep p)) p);;
          match n with
          | O => undefined
          | S n' => parse_loop n' fuel
          end
      | _ => ret state
      end
  end.

(** The outcome of a call, seen by the caller: the state returned, the
    [HttpError] thrown, the exception of the standard library that
    passed through, or a read past the bytes fed. *)
Inductive Outcome :=
  | Returned (s : State)
  | Raised (e : HttpError)
  | Escaped (e : StdError)
  | Overran
  | Unknown.

(** [Parser::parse] *)
Definition Parser_parse (p : Parser) : Parser * Outcome :=
  match parse_loop 3 (S (String.length (buffer p))) p with
  | (p', Go s) => (p', Returned s)
  | (p', Suspend) => (p', Returned Again)
  | (p', Throw e) => (p', Raised e)
  | (p', Escapes e) => (p', Escaped e)
  | (p', Overrun) => (p', Overran)
  | (p', Undefined) => (p', Unknown)
  end.

(** Modelled from the spec: the byte buffer is defined outside the
    sources; its [feed] appends the bytes, and returns false without
    appending when the capacity would be exceeded. *)
Definition buffer_feed (data : string) (buf : string) : bool * string :=
  if (String.length buf + String.length data <=? MaxBuffer)%nat
  then (true, buf +:+ data)
  else (false, buf).

(** [Parser::feed] *)
Definition Parser_feed (data : string) (p : Parser) : bool * Parser :=
  let (ok, buf) := buffer_feed data (buffer p) in
  (ok, mkParser buf (cursor p) (currentStep p) (request p) (bytesRead p)).

(** [Parser::reset]: the buffer, the cursor, [currentStep], and the
    request's [headers_], [body_] and [resource_]. *)
Definition Parser_reset (p : Parser) : Parser :=
  mkParser "" 0 0
    (mkRequest (method_ (request p)) (version_ (request p)) ""
               (query_ (request p)) (Header.clear (headers_ (request p))) "")
    (bytesRead p).

(** [feed(c); parse()] for each chunk in order on the same parser, with
    what every pair of calls returned; an exception ends the run. *)
Fixpoint feed_all (chunks : list string) (p : Parser)
  : Parser * list (bool * Outcome) :=
  match chunks with
  | [] => (p, [])
  | c :: cs =>
      let (fed, p') := Parser_feed c p in
      let (p'', o) := Parser_parse p' in
      match o with
      | Returned _ => let (q, os) := feed_all cs p'' in (q, (fed, o) :: os)
      | _ => (p'', [(fed, o)])
      end
  end.

End Driver.

End Private.

(** ** Peers *)

Module Tcp.

(** Modelled from the spec: the peer is defined outside the sources.  A
    peer is named by a number; [Owners] gives, for each peer, how many
    [shared_ptr]s own it: the peer is alive while there is one.  A
    [shared_ptr] or [weak_ptr] is the peer it refers to, if any. *)
Definition Peer : Type := nat.
Definition Owners : Type := Peer -> nat.
Definition shared_ptr : Type := option Peer.
Definition weak_ptr : Type := option Peer.

Definition use_count (w : weak_ptr) (o : Owners) : nat :=
  match w with
  | Some p => o p
  | None => 0
  end.

Definition expired (w : weak_ptr) (o : Owners) : bool := Nat.eqb (use_count w o) 0.

Definition lock (w : weak_ptr) (o : Owners) : shared_ptr :=
  if expired w o then None else w.

End Tcp.

(** ** The output stream of the serializer *)

Module Io.

(** Modelled from the spec: the array-backed output buffer is defined
    outside the sources.  Every write is checked against the capacity; a
    write that does not fit puts the stream in the failed state, in
    which later writes do nothing. *)
Record OStream := mkOStream { capacity : nat; written : string; good : bool }.

Definition OutArrayBuf (size : nat) : OStream := mkOStream size "" true.

Definition put (s : string) (os : OStream) : OStream :=
  if good os then
    if (String.length (written os) + String.length s <=? capacity os)%nat
    then mkOStream (capacity os) (written os +:+ s) true
    else mkOStream (capacity os)
           (written os +:+ str_take (capacity os - String.length (written os)) s)
           false
  else os.

(** A stream in the good state holds no more than its capacity. *)
Definition sound (os : OStream) : Prop :=
  good os = true /\ String.length (written os) <= capacity os.

Definition fits (s : string) (os : OStream) : bool :=
  (String.length (written os) + String.length s <=? capacity os)%nat.

Definition extend (s : string) (os : OStream) : OStream :=
  mkOStream (capacity os) (written os +:+ s) true.

(** An insertion into the stream: the stream it leaves, or nothing when
    the call has no defined behaviour. *)
Definition Insertion : Type := OStream -> option OStream.

(** [stream << s] for a string, a character or a number written as [s]. *)
Definition out (s : string) : Insertion := fun os => Some (put s os).

(** [stream << crlf] calls [crlf(stream)], which writes CR LF and then
    reaches the closing brace of its body: its return type is a reference
    to the stream and it has no [return] statement.  Flowing off the end
    of such a function is undefined behaviour, whatever is done with the
    result, so the insertion leaves nothing to go on with. *)
Definition crlf : Insertion := fun _ => None.

End Io.

(** ** Response *)

Module Response.

Import Io.

Section Response.

Variable MaxBuffer : nat.

(** [operator<<] for a [Code] writes the reason phrase of the code; it is
    declared with the enumeration, outside the sources. *)
Variable codeReason : Code -> string.

(** [headers_], [bufSize] and [peer_]; the scratch bytes themselves are
    zeroed at every [send]. *)
Record Response := mkResponse {
  headers_ : Header.Collection;
  bufSize : nat;
  peer_ : Tcp.weak_ptr
}.

(** [Response::Response()]: [bufSize(Const::MaxBuffer << 1)]; [MaxBuffer]
    is a compile-time constant and the shift is taken without overflow. *)
Definition Response_new : Response :=
  mkResponse [] (Nat.shiftl MaxBuffer 1) None.

(** What a call leaves its caller with: a value, or a
    [std::runtime_error]. *)
Inductive Except (A : Type) :=
  | Val (a : A)
  | RuntimeError (what : string).
Arguments Val {A} a.
Arguments RuntimeError {A} what.

(** [Response::associatePeer] *)
Definition associatePeer (peer : Tcp.shared_ptr) (o : Tcp.Owners) (r : Response)
  : Response * Except unit :=
  if (0 <? Tcp.use_count (peer_ r) o)%nat
  then (r, RuntimeError "A peer was already associated to the response")
  else (mkResponse (headers_ r) (bufSize r) peer, Val tt).

(** [Response::peer] *)
Definition peer (o : Tcp.Owners) (r : Response) : Except Tcp.shared_ptr :=
  if Tcp.expired (peer_ r) o
  then RuntimeError "Broken pipe"
  else Val (Tcp.lock (peer_ r) o).

(** What [send] comes to: a rejected promise, an exception, the bytes
    handed to the peer's [send], or no defined behaviour. *)
Inductive Sent :=
  | Rejected (msg : string)
  | Thrown (what : string)
  | Transmitted (to : Tcp.shared_ptr) (bytes : string)
  | UndefinedBehaviour.

Definition insufficient_space : string :=
  "Could not write to stream: insufficient space".

(** The [OUT] macro: do the insertions, then leave with a rejected
    promise if the stream has failed. *)
Definition OUT (r : Response) (w : Insertion)
    (k : OStream -> Response * Sent) (os : OStream) : Response * Sent :=
  match w os with
  | None => (r, UndefinedBehaviour)
  | Some os' => if good os' then k os' else (r, Rejected insufficient_space)
  end.

(** [writeHeader<H>(stream, args...)]: name, [": "], the header's
    [write], [crlf]. *)
Definition writeHeader (Name value : string) : Insertion :=
  fun os => crlf (put value (put ": " (put Name os))).

(** [ContentType::setMime] on the header found by [tryGet]. *)
Definition setMime (mime : MediaType) (c : Header.Collection) : Header.Collection :=
  map (fun h => if Header.typed h && Header.has_name Header.ContentType_Name h
                then Header.mkHeader (Header.name h) true (mimeText mime)
                else h) c.

(** The loop over [headers_.list()]. *)
Fixpoint write_headers (r : Response) (hs : list Header.Header)
    (k : OStream -> Response * Sent) : OStream -> Response * Sent :=
  match hs with
  | [] => k
  | h :: hs' =>
      OUT r (fun os => Some (put ": " (put (Header.name h) os)))
     (OUT r (out (Header.text h))
     (OUT r crlf
     (write_headers r hs' k)))
  end.

(** The tail of [send]: the body part and the hand-over to the peer. *)
Definition send_body (o : Tcp.Owners) (r : Response) (body : string)
  : OStream -> Response * Sent :=
  let finish := fun os : OStream =>
    match peer o r with
    | RuntimeError what => (r, Thrown what)
    | Val to => (r, Transmitted to (written os))
    end in
  if negb (Nat.eqb (String.length body) 0) then
    OUT r (writeHeader Header.ContentLength_Name (dec (N.of_nat (String.length body))))
   (OUT r crlf
   (OUT r (out body)
    finish))
  else
    OUT r crlf finish.

(** [Response::send(code, body, mime)] *)
Definition send (o : Tcp.Owners) (code : Code) (body : string) (mime : MediaType)
    (r : Response) : Response * Sent :=
  OUT r (out "HTTP/1.1 ")
 (OUT r (out (dec_int (codeNumber code)))
 (OUT r (out " ")
 (OUT r (out (codeReason code))
 (OUT r crlf
 (fun os =>
    if isValid mime then
      match Header.tryGet Header.ContentType_Name (headers_ r) with
      | Some _ =>
          let r' := mkResponse (setMime mime (headers_ r)) (bufSize r) (peer_ r) in
          write_headers r' (headers_ r') (send_body o r' body) os
      | None =>
          OUT r (writeHeader Header.ContentType_Name (mimeText mime))
            (write_headers r (headers_ r) (send_body o r body)) os
      end
    else write_headers r (headers_ r) (send_body o r body) os)))))
  (OutArrayBuf (bufSize r)).

(** [Response::send(code)] *)
Definition send_code (o : Tcp.Owners) (code : Code) (r : Response) : Response * Sent :=
  send o code "" NoMime r.

(** What [send] writes before it first calls [crlf]: the status line
    without its line end. *)
Definition status_text (code : Code) : string :=
  "HTTP/1.1 " +:+ dec_int (codeNumber code) +:+ " " +:+ codeReason code.

End Response.

Arguments Val {A} a.
Arguments RuntimeError {A} what.

(** [ends k t X]: from a sound stream, [k] comes to [X] when [t] fits,
    and to a rejected promise on the response [r] when it does not. *)
Definition ends (r : Response) (k : OStream -> Response * Sent) (t : string)
    (X : Response * Sent) : Prop :=
  forall os, sound os ->
    k os = if fits t os then X else (r, Rejected insufficient_space).

End Response.

(** ** Connection glue *)

Module Handler.

Import Private Response.

Section Handler.

Variable isRegistered : string -> bool.
Variable MaxBuffer : nat.
Variable reserve_throws : N -> option StdError.
Variable codeReason : Code -> string.

(** [what()] of an exception of the standard library; the text is the
    library's. *)
Variable what : StdError -> string.

(** What leaves a [try] block: an [HttpError] or another
    [std::exception] with its [what()]. *)
Inductive Exception :=
  | HttpErr (e : HttpError)
  | StdException (what : string).

(** [onRequest] is supplied by the application: it is given the request
    and the response, hands some byte strings to the peer, and returns
    or throws. *)
Variable onRequest : Request -> Response -> list string * option Exception.

(** How a call ends: it returns, an exception leaves it, or it has no
    defined behaviour. *)
Inductive Ending :=
  | Returns
  | Leaves (what : string)
  | NoBehaviour.

(** A handler body of [onInput]: a fresh response, associated to the
    peer, sent with the code and the text; then the parser is reset.
    The promise [send] returns is dropped; an exception thrown here is
    not caught. *)
Definition respond (o : Tcp.Owners) (peer : Tcp.Peer) (code : Code)
    (reason : string) (parser : Parser) : Parser * list string * Ending :=
  match associatePeer (Some peer) o (Response_new MaxBuffer) with
  | (response, Val _) =>
      match snd (send codeReason o code reason NoMime response) with
      | Transmitted _ bytes => (Parser_reset parser, [bytes], Returns)
      | Rejected _ => (Parser_reset parser, [], Returns)
      | Thrown what => (parser, [], Leaves what)
      | UndefinedBehaviour => (parser, [], NoBehaviour)
      end
  | (_, RuntimeError what) => (parser, [], Leaves what)
  end.

Definition catch (o : Tcp.Owners) (peer : Tcp.Peer) (e : Exception)
    (parser : Parser) : Parser * list string * Ending :=
  match e with
  | HttpErr err => respond o peer (err_code err) (err_reason err) parser
  | StdException what => respond o peer Internal_Server_Error what parser
  end.

(** [Handler::onInput]: the parser of the peer after the call, the byte
    strings handed to the peer's [send], in order, and how the call
    ends. *)
Definition onInput (o : Tcp.Owners) (data : string) (peer : Tcp.Peer)
    (parser : Parser) : Parser * list string * Ending :=
  match Parser_feed MaxBuffer data parser with
  | (false, parser) =>
      let parser := Parser_reset parser in
      catch o peer
        (HttpErr (mkHttpError Request_Entity_Too_Large
                    "Request exceeded maximum buffer size"))
        parser
  | (true, parser) =>
      match Parser_parse isRegistered reserve_throws parser with
      | (parser, Returned Done) =>
          match associatePeer (Some peer) o (Response_new MaxBuffer) with
          | (response, Val _) =>
              match onRequest (request parser) response with
              | (out, None) => (Parser_reset parser, out, Returns)
              | (out, Some e) =>
                  let '(parser, out', ending) := catch o peer e parser in
                  (parser, (out ++ out')%list, ending)
              end
          | (_, RuntimeError what) => catch o peer (StdException what) parser
          end
      | (parser, Returned _) => (parser, [], Returns)
      | (parser, Raised err) => catch o peer (HttpErr err) parser
      | (parser, Escaped e) => catch o peer (StdException (what e)) parser
      | (parser, Overran) => (parser, [], NoBehaviour)
      | (parser, Unknown) => (parser, [], NoBehaviour)
      end
  end.

End Handler.

End Handler.

(** ** Polling::Epoll *)

Module Polling.

Inductive NotifyOn := Read | Write | Hangup.

(** Modelled from the spec: [Flags<NotifyOn>], [Tag] and [Event] are
    declared outside the sources.  An interest set is a subset of
    [{Read, Write, Hangup}]; a tag is a 64-bit value; an event is a tag
    and an interest set. *)
Record Flags := mkFlags { hasRead : bool; hasWrite : bool; hasHangup : bool }.

Definition hasFlag (f : Flags) (n : NotifyOn) : bool :=
  match n with
  | Read => hasRead f
  | Write => hasWrite f
  | Hangup => hasHangup f
  end.

Definition setFlag (n : NotifyOn) (f : Flags) : Flags :=
  match n with
  | Read => mkFlags true (hasWrite f) (hasHangup f)
  | Write => mkFlags (hasRead f) true (hasHangup f)
  | Hangup => mkFlags (hasRead f) (hasWrite f) true
  end.

(** [Flags<NotifyOn> flags;] *)
Definition Flags_new : Flags := mkFlags false false false.

Record Tag := mkTag { value_ : Z }.

Record Event := mkEvent { flags : Flags; tag : Tag }.

Inductive Mode := Level | Edge.

(** [<sys/epoll.h>] *)
Definition EPOLLIN : Z := 0x001.
Definition EPOLLOUT : Z := 0x004.
Definition EPOLLHUP : Z := 0x010.
Definition EPOLLONESHOT : Z := Z.shiftl 1 30.
Definition EPOLLET : Z := Z.shiftl 1 31.

(** [struct epoll_event]: [events] is 32 bits wide, [data.u64] 64. *)
Record epoll_event := mk_epoll_event { events : Z; data_u64 : Z }.

Definition u32 (z : Z) : Z := (z mod 2 ^ 32)%Z.

(** [Epoll::toEpollEvents]; [events] is declared without a value, and
    [uninit] stands for what it holds then. *)
Definition toEpollEvents (uninit : Z) (interest : Flags) : Z :=
  let events := uninit in
  let events := if hasFlag interest Read then Z.lor events EPOLLIN else events in
  let events := if hasFlag interest Write then Z.lor events EPOLLOUT else events in
  let events := if hasFlag interest Hangup then Z.lor events EPOLLHUP else events in
  events.

(** [Epoll::toNotifyOn] *)
Definition toNotifyOn (events : Z) : Flags :=
  let flags := Flags_new in
  let flags := if negb (Z.land events EPOLLIN =? 0)%Z then setFlag Read flags else flags in
  let flags := if negb (Z.land events EPOLLOUT =? 0)%Z then setFlag Write flags else flags in
  let flags := if negb (Z.land events EPOLLHUP =? 0)%Z then setFlag Hangup flags else flags in
  flags.

(** The interest list the kernel keeps for [epoll_fd]: for each
    registered descriptor, the [epoll_event] given to [epoll_ctl]. *)
Record Epoll := mkEpoll { interest_list : gmap Z epoll_event }.

Inductive Op := EPOLL_CTL_ADD | EPOLL_CTL_MOD | EPOLL_CTL_DEL.

(** [TRY(epoll_ctl(epoll_fd, op, fd, &ev))]: [None] when the call fails
    and [TRY] throws.  The failures followed are those the interest list
    decides: EEXIST for a descriptor registered already, ENOENT for one
    that is not.  The kernel also refuses descriptors that are not open,
    or cannot be polled, or are the epoll descriptor itself (EBADF,
    EPERM, EINVAL): these depend on the descriptor table, which is not
    followed, so a call that succeeds in the kernel succeeds here, and
    not the other way round. *)
Definition epoll_ctl (op : Op) (fd : Z) (ev : epoll_event) (e : Epoll) : option Epoll :=
  match op, interest_list e !! fd with
  | EPOLL_CTL_ADD, None => Some (mkEpoll (<[fd := ev]> (interest_list e)))
  | EPOLL_CTL_MOD, Some _ => Some (mkEpoll (<[fd := ev]> (interest_list e)))
  | EPOLL_CTL_DEL, Some _ => Some (mkEpoll (delete fd (interest_list e)))
  | _, _ => None
  end.

(** [Epoll::addFd] *)
Definition addFd (uninit : Z) (fd : Z) (interest : Flags) (tag : Tag) (mode : Mode)
    (e : Epoll) : option Epoll :=
  let ev_events := u32 (toEpollEvents uninit interest) in
  let ev_events := match mode with Edge => Z.lor ev_events EPOLLET | Level => ev_events end in
  epoll_ctl EPOLL_CTL_ADD fd (mk_epoll_event ev_events (value_ tag)) e.

(** [Epoll::addFdOneShot] *)
Definition addFdOneShot (uninit : Z) (fd : Z) (interest : Flags) (tag : Tag)
    (mode : Mode) (e : Epoll) : option Epoll :=
  let ev_events := u32 (toEpollEvents uninit interest) in
  let ev_events := Z.lor ev_events EPOLLONESHOT in
  let ev_events := match mode with Edge => Z.lor ev_events EPOLLET | Level => ev_events end in
  epoll_ctl EPOLL_CTL_ADD fd (mk_epoll_event ev_events (value_ tag)) e.

(** [Epoll::removeFd] *)
Definition removeFd (fd : Z) (e : Epoll) : option Epoll :=
  epoll_ctl EPOLL_CTL_DEL fd (mk_epoll_event 0 0) e.

(** [Epoll::rearmFd] *)
Definition rearmFd (uninit : Z) (fd : Z) (interest : Flags) (tag : Tag) (mode : Mode)
    (e : Epoll) : option Epoll :=
  let ev_events := u32 (toEpollEvents uninit interest) in
  let ev_events := match mode with Edge => Z.lor ev_events EPOLLET | Level => ev_events end in
  epoll_ctl EPOLL_CTL_MOD fd (mk_epoll_event ev_events (value_ tag)) e.

(** What [epoll_wait] may put in [evs] for a registered descriptor: the
    ready subset of the registered events (the kernel reports hang-up
    whether asked for or not), with the registered data. *)
Definition reports (e : Epoll) (fd : Z) (ev : epoll_event) : Prop :=
  exists reg, interest_list e !! fd = Some reg
    /\ data_u64 ev = data_u64 reg
    /\ Z.land (events ev) (Z.lor (events reg) EPOLLHUP) = events ev.

(** Modelled from the spec: [push_back(tag)] builds the event from the tag
    alone ([Event(tag)], declared outside the sources); [dflt] is the
    interest set such an event starts with. *)
Definition Event_of_tag (dflt : Flags) (t : Tag) : Event := mkEvent dflt t.

(** The body of the loop in [Epoll::poll], for one [epoll_event]: the
    local [event] gets the tag and the flags of [ev]; [tag] is what is
    pushed. *)
Definition poll_one (dflt : Flags) (ev : epoll_event) : Event :=
  let tag := mkTag (data_u64 ev) in
  let event := mkEvent (toNotifyOn (events ev)) tag in
  Event_of_tag dflt tag.

(** [Epoll::poll], given what [epoll_wait] returned ([ready_fds]) and
    wrote ([evs]): the return value and the vector of events. *)
Definition poll (dflt : Flags) (out : list Event) (ready_fds : Z)
    (evs : list epoll_event) : Z * list Event :=
  if (0 <? ready_fds)%Z
  then (ready_fds, (out ++ map (poll_one dflt) (take (Z.to_nat ready_fds) evs))%list)
  else (ready_fds, out).

End Polling.

(** ** Inputs and measures used in the statements *)

(** A run of [add] calls, in order. *)
Definition Query_adds (ops : list (string * string)) (q : Uri.Query) : Uri.Query :=
  fold_left (fun q kv => Uri.Query_add kv.1 kv.2 q) ops q.

(** The request of the first end-to-end scenario. *)
Definition hello_request : string :=
  "GET /hello HTTP/1.1" +:+ CRLF +:+ "Host: x" +:+ CRLF +:+ CRLF.

(** The parser of that scenario after the request line, and after the
    headers. *)
Definition after_request_line : Private.Parser :=
  Private.mkParser hello_request 21 0
    (mkRequest (Some Get) Http11 "/hello" Uri.Query_new [] "") 0.

Definition after_headers (isRegistered : string -> bool) : Private.Parser :=
  Private.mkParser hello_request 30 1
    (if isRegistered "Host"
     then mkRequest (Some Get) Http11 "/hello" Uri.Query_new
            [Header.mkHeader "Host" true "x"] ""
     else mkRequest (Some Get) Http11 "/hello" Uri.Query_new
            [Header.Raw "Host" "x"] "")
    0.

(** A registry that knows the Content-Length header and no other. *)
Definition content_length_only (name : string) : bool :=
  String.eqb name "Content-Length".

Definition get_slash : string := "GET / HTTP/1.1" +:+ CRLF +:+ CRLF.

Definition post_head : string :=
  "POST /x HTTP/1.1" +:+ CRLF +:+ "Content-Length: 3" +:+ CRLF +:+ CRLF.

(** The parser holding [input], about to run the request-line step. *)
Definition holding (input : string) : Private.Parser :=
  Private.mkParser input 0 0 Request_new 0.

Definition request_line_of (input : string) : Private.Parser * Private.Flow Private.State :=
  Private.RequestLineStep_apply (S (String.length input)) (holding input).

(** Two requests with the same query key. *)
Definition query_1 : string := "GET /?a=1 HTTP/1.1" +:+ CRLF +:+ CRLF.
Definition query_2 : string := "GET /?a=2 HTTP/1.1" +:+ CRLF +:+ CRLF.

(** [feed(input); parse()] *)
Definition feed_parse (isRegistered : string -> bool)
    (reserve_throws : N -> option Private.StdError) (input : string)
    (p : Private.Parser) : Private.Parser * Private.Outcome :=
  Private.Parser_parse isRegistered reserve_throws (snd (Private.Parser_feed 4096 input p)).

(** ** CpuSet *)

Module CpuSet.

Section CpuSet.

(** [CpuSet::Size], the width of [bits]; the constant is declared outside
    the sources. *)
Variable Size : nat.

(** [std::bitset<Size> bits]: the positions that are set. *)
Record CpuSet := mkCpuSet { bits : gset nat }.

Inductive Exception :=
  | invalid_argument (what : string)
  | range_error (what : string).

(** A member function leaves the set it ran on and, when it throws, the
    exception. *)
Definition Result : Type := CpuSet * option Exception.

(** [CpuSet::CpuSet()] and [CpuSet::clear]: [bits.reset()]. *)
Definition CpuSet_new : CpuSet := mkCpuSet ∅.
Definition clear (s : CpuSet) : CpuSet := mkCpuSet ∅.

(** [CpuSet::set(size_t cpu)] *)
Definition set (cpu : nat) (s : CpuSet) : Result :=
  if (Size <=? cpu)%nat
  then (s, Some (invalid_argument "Trying to set invalid cpu number"))
  else (mkCpuSet ({[cpu]} ∪ bits s), None).

(** [CpuSet::unset(size_t cpu)] *)
Definition unset (cpu : nat) (s : CpuSet) : Result :=
  if (Size <=? cpu)%nat
  then (s, Some (invalid_argument "Trying to unset invalid cpu number"))
  else (mkCpuSet (bits s ∖ {[cpu]}), None).

(** [for (auto cpu: cpus) op(cpu);] an exception leaves the loop. *)
Fixpoint for_each (op : nat -> CpuSet -> Result) (cpus : list nat) (s : CpuSet) : Result :=
  match cpus with
  | [] => (s, None)
  | cpu :: cpus' =>
      match op cpu s with
      | (s', None) => for_each op cpus' s'
      | thrown => thrown
      end
  end.

(** [CpuSet::set(std::initializer_list<size_t>)] and [unset] of a list. *)
Definition set_list (cpus : list nat) (s : CpuSet) : Result := for_each set cpus s.
Definition unset_list (cpus : list nat) (s : CpuSet) : Result := for_each unset cpus s.

(** [CpuSet::setRange]: [for (cpu = begin; cpu < end; ++cpu) set(cpu)]. *)
Definition setRange (begin end_ : nat) (s : CpuSet) : Result :=
  if (end_ <? begin)%nat
  then (s, Some (range_error "Invalid range, begin > end"))
  else for_each set (seq begin (end_ - begin)) s.

(** [CpuSet::unsetRange] *)
Definition unsetRange (begin end_ : nat) (s : CpuSet) : Result :=
  if (end_ <? begin)%nat
  then (s, Some (range_error "Invalid range, begin > end"))
  else for_each unset (seq begin (end_ - begin)) s.

(** [CpuSet::isset]: the bit, or the exception. *)
Definition isset (cpu : nat) (s : CpuSet) : bool + Exception :=
  if (Size <=? cpu)%nat
  then inr (invalid_argument "Trying to test invalid cpu number")
  else inl (bool_decide (cpu ∈ bits s)).

(** [CpuSet::count] *)
Definition count (s : CpuSet) : nat := size (bits s).

(** [cpu_set_t] with [CPU_ZERO], [CPU_SET] and [CPU_ISSET] of [<sched.h>]:
    a set of [CPU_SETSIZE] bits; [CPU_SET] of a larger number does nothing. *)
Definition CPU_SETSIZE : nat := 1024.
Definition cpu_set_t : Type := gset nat.
Definition CPU_ZERO : cpu_set_t := ∅.
Definition CPU_SET (cpu : nat) (c : cpu_set_t) : cpu_set_t :=
  if (cpu <? CPU_SETSIZE)%nat then {[cpu]} ∪ c else c.
Definition CPU_ISSET (cpu : nat) (c : cpu_set_t) : bool :=
  (cpu <? CPU_SETSIZE)%nat && bool_decide (cpu ∈ c).

(** [CpuSet::toPosix]: the loop over [0 .. Size). *)
Definition toPosix (s : CpuSet) : cpu_set_t :=
  fold_left (fun c cpu => if bool_decide (cpu ∈ bits s) then CPU_SET cpu c else c)
    (seq 0 Size) CPU_ZERO.

(** The sets a [CpuSet] can hold: positions below [Size]. *)
Definition wf (s : CpuSet) : Prop := forall cpu, cpu ∈ bits s -> cpu < Size.

End CpuSet.

End CpuSet.

(** The calls a user can make on a [CpuSet], and the set they leave (also
    when they throw). *)
Module CpuSetRun.

Inductive Call :=
  | Clear
  | Set_ (cpu : nat)
  | Unset (cpu : nat)
  | SetList (cpus : list nat)
  | UnsetList (cpus : list nat)
  | SetRange (begin end_ : nat)
  | UnsetRange (begin end_ : nat).

Definition call (Size : nat) (c : Call) (s : CpuSet.CpuSet) : CpuSet.CpuSet :=
  match c with
  | Clear => CpuSet.clear s
  | Set_ cpu => fst (CpuSet.set Size cpu s)
  | Unset cpu => fst (CpuSet.unset Size cpu s)
  | SetList cpus => fst (CpuSet.set_list Size cpus s)
  | UnsetList cpus => fst (CpuSet.unset_list Size cpus s)
  | SetRange b e => fst (CpuSet.setRange Size b e s)
  | UnsetRange b e => fst (CpuSet.unsetRange Size b e s)
  end.

Definition run (Size : nat) (calls : list Call) (s : CpuSet.CpuSet) : CpuSet.CpuSet :=
  fold_left (fun s c => call Size c s) calls s.

End CpuSetRun.

(** [Query::Query(std::initializer_list<...> params)]: [params(params)]
    builds the map by inserting the pairs in order, and a pair whose name
    is there already is not inserted. *)
Definition Query_init (params : list (string * string)) : Uri.Query :=
  Query_adds params Uri.Query_new.

(** The value of the first pair of [ops] with the name [k]. *)
Definition first_value (k : string) (ops : list (string * string)) : option string :=
  snd <$> List.find (fun kv => String.eqb kv.1 k) ops.

(** The union of two interest sets. *)
Definition Flags_union (a b : Polling.Flags) : Polling.Flags :=
  Polling.mkFlags (Polling.hasRead a || Polling.hasRead b)
                  (Polling.hasWrite a || Polling.hasWrite b)
                  (Polling.hasHangup a || Polling.hasHangup b).

(** The native bit of each interest. *)
Definition native_bit (n : Polling.NotifyOn) : Z :=
  match n with
  | Polling.Read => 0
  | Polling.Write => 2
  | Polling.Hangup => 4
  end.

(** ** Well-formed input, for the statements about the steps *)

(** Every byte of [s] satisfies [P]. *)
Fixpoint str_forall (P : ascii -> bool) (s : string) : bool :=
  match s with
  | EmptyString => true
  | String c s' => P c && str_forall P s'
  end.

Definition is_not (c : ascii) (d : ascii) : bool := negb (byte_eqb d c).

(** The bytes of the parser's buffer from the cursor on. *)
Definition unread (p : Private.Parser) : string :=
  str_drop (Private.cursor p) (Private.buffer p).

(** The first entry of the method table whose literal is at the start of [s]. *)
Definition find_method (s : string) : option (string * Method) :=
  List.find (fun lm => String.eqb (str_take (String.length lm.1) s) lm.1) Private.Methods.

(** A header field as it is on the wire: name, colon, [pad] spaces, value, CRLF. *)
Record Field := mkField { f_name : string; f_pad : nat; f_value : string }.

Definition field_bytes (f : Field) : string :=
  f_name f +:+ ":" +:+ str_repeat SP (f_pad f) +:+ f_value f +:+ CRLF.

(** A field the headers step splits where it was put together: no colon
    and no CR in the name; no CR in the value, which does not start with a
    space. *)
Definition field_ok (f : Field) : bool :=
  str_forall (fun c => is_not ":" c && is_not CR c) (f_name f)
  && str_forall (is_not CR) (f_value f)
  && negb (Private.first_is SP (f_value f)).

Fixpoint fields_bytes (fs : list Field) : string :=
  match fs with
  | [] => ""
  | f :: fs' => field_bytes f +:+ fields_bytes fs'
  end.

(** What the headers step does with a field: [add] of the typed header
    when the name is registered, [addRaw] otherwise. *)
Definition add_field (isRegistered : string -> bool) (c : Header.Collection) (f : Field)
  : Header.Collection :=
  if isRegistered (f_name f)
  then Header.add (Header.mkHeader (f_name f) true (f_value f)) c
  else Header.addRaw (Header.Raw (f_name f) (f_value f)) c.

(** ** The request line and the body on the wire *)

(** The literal of a version. *)
Definition version_token (v : Version) : string :=
  match v with
  | Http10 => "HTTP/1.0"
  | Http11 => "HTTP/1.1"
  end.

(** The pairs of a query as they are on the wire: [key=value], joined by [&]. *)
Fixpoint query_bytes (ps : list (string * string)) : string :=
  match ps with
  | [] => ""
  | (k, v) :: ps' =>
      k +:+ "=" +:+ v +:+
      match ps' with
      | [] => ""
      | _ :: _ => "&" +:+ query_bytes ps'
      end
  end.

(** A pair the request-line step splits where it was put together: no [=]
    and no space in the key, no space and no [&] in the value. *)
Definition pair_ok (kv : string * string) : bool :=
  str_forall (fun c => is_not "=" c && is_not SP c) kv.1
  && str_forall (fun c => is_not SP c && is_not "&" c) kv.2.

(** A path without space and without [?]. *)
Definition path_ok (path : string) : bool :=
  str_forall (fun c => is_not "?" c && is_not SP c) path.

(** The request target: the path, then [?] and the pairs when there is a query. *)
Definition target_bytes (path : string) (q : option (list (string * string))) : string :=
  path +:+ match q with
           | None => ""
           | Some ps => "?" +:+ query_bytes ps
           end.

(** The request line: method, SP, target, SP, version, CRLF. *)
Definition request_line_bytes (lit path : string) (q : option (list (string * string)))
    (v : Version) : string :=
  lit +:+ " " +:+ target_bytes path q +:+ " " +:+ version_token v +:+ CRLF.

(** The query of the request once the pairs of the target are added. *)
Definition query_after (q : option (list (string * string))) (q0 : Uri.Query) : Uri.Query :=
  match q with
  | None => q0
  | Some ps => Query_adds ps q0
  end.

(** The pairs of the target are well formed, and at most [fuel] of them. *)
Definition query_ok (fuel : nat) (q : option (list (string * string))) : Prop :=
  match q with
  | None => True
  | Some ps => forallb pair_ok ps = true /\ length ps <= fuel
  end.

(** The expected body: as long as the Content-Length header says, when
    there is one; none when there is not. *)
Definition body_expected (hs : Header.Collection) (body : string) : Prop :=
  match Header.tryGet Header.ContentLength_Name hs with
  | Some cl => Header.ContentLength_value cl = N.of_nat (String.length body)
  | None => body = ""
  end.

(** The bytes the body step moves over: the CRLF of the blank line and the
    body when there is a Content-Length header, nothing when there is not. *)
Definition body_consumed (hs : Header.Collection) (body : string) : nat :=
  match Header.tryGet Header.ContentLength_Name hs with
  | Some _ => 2 + String.length body
  | None => 0
  end.

(** ** What a step leaves of the parser *)

(** [m] relates every parser to the parser it leaves. *)
Definition respects {A} (R : Private.Parser -> Private.Parser -> Prop) (m : Private.M A) : Prop :=
  forall p, R p (fst (m p)).

(** Nothing but the cursor and the request differs. *)
Definition same_frame (p p' : Private.Parser) : Prop :=
  Private.buffer p' = Private.buffer p
  /\ Private.currentStep p' = Private.currentStep p
  /\ Private.bytesRead p' = Private.bytesRead p.

(** The buffer is the same, and a cursor within it stays within it. *)
Definition in_bounds (p p' : Private.Parser) : Prop :=
  Private.buffer p' = Private.buffer p
  /\ (Private.cursor p <= String.length (Private.buffer p) ->
      Private.cursor p' <= String.length (Private.buffer p)).

(** The buffer and the step index are the same. *)
Definition same_step (p p' : Private.Parser) : Prop :=
  Private.buffer p' = Private.buffer p
  /\ Private.currentStep p' = Private.currentStep p.

(** Whenever [m] goes on, it is with [Next]. *)
Definition only_next (m : Private.M Private.State) : Prop :=
  forall p s, snd (m p) = Private.Go s -> s = Private.Next.

(** The bytes between the cursor and the end of the buffer. *)
Definition unread_count (p : Private.Parser) : nat :=
  String.length (Private.buffer p) - Private.cursor p.

(** [bounded n k m]: run with fewer than [n] unread bytes, [m] stays within
    its fuel, and when it goes on it has left the buffer as it was and
    moved the cursor over at least [k] bytes. *)
Definition bounded {A} (n k : nat) (m : Private.M A) : Prop :=
  forall p, unread_count p < n ->
    match m p with
    | (p', Private.Go _) =>
        Private.buffer p' = Private.buffer p /\ unread_count p' + k <= unread_count p
    | (_, Private.Undefined) => False
    | _ => True
    end.

(** ** Where the faults of [parse] come from *)

(** [m] lets no exception of the standard library pass and reads no cell
    past the bytes fed. *)
Definition calm {A} (m : Private.M A) : Prop :=
  forall p, match snd (m p) with
            | Private.Escapes _ | Private.Overrun => False
            | _ => True
            end.

(** The two ways [parse] can end that are neither a state nor an
    [HttpError], and where they come from: the exception is one that
    [reserve] throws for a capacity above the bytes of the buffer, and a
    read past the bytes fed happens only when the body step is entered
    with [bytesRead > 0]. *)
Definition faults_accounted {A} (reserve_throws : N -> option Private.StdError)
    (p : Private.Parser) (flow : Private.Flow A) : Prop :=
  match flow with
  | Private.Escapes e =>
      exists n, reserve_throws n = Some e
                /\ (N.of_nat (String.length (Private.buffer p)) < n)%N
  | Private.Overrun => (0 < Private.bytesRead p)%N
  | _ => True
  end.

(** ** What the connection glue hands to a handler *)

(** The response a handler is given. *)
Definition handler_response (MaxBuffer : nat) (peer : Tcp.Peer) : Response.Response :=
  Response.mkResponse [] (Nat.shiftl MaxBuffer 1) (Some peer).

(** What comes of the response the glue sends for an error with the code
    [code], after [out] was handed to the peer: when the status text fits
    the scratch buffer, [send] calls [crlf]; when it does not, the
    promise is rejected and the parser is reset. *)
Definition after_error (MaxBuffer : nat) (codeReason : Code -> string) (code : Code)
    (out : list string) (parser : Private.Parser)
  : Private.Parser * list string * Handler.Ending :=
  if (String.length (Response.status_text codeReason code) <=? Nat.shiftl MaxBuffer 1)%nat
  then (parser, out, Handler.NoBehaviour)
  else (Private.Parser_reset parser, out, Handler.Returns).

(** * Properties *)

(** ** Byte strings *)

Lemma str_app_cons (c : ascii) (s t : string) : String c s +:+ t = String c (s +:+ t).
Proof. reflexivity. Qed.

Lemma str_length_app (s t : string) :
  String.length (s +:+ t) = String.length s + String.length t.
Proof.
  induction s as [|c s IH]; [reflexivity|].
  rewrite str_app_cons. simpl. now rewrite IH.
Qed.

Lemma str_app_assoc (s t u : string) : (s +:+ t) +:+ u = s +:+ (t +:+ u).
Proof.
  induction s as [|c s IH]; [reflexivity|].
  now rewrite !str_app_cons, IH.
Qed.

Lemma str_app_nil_r (s : string) : s +:+ "" = s.
Proof.
  induction s as [|c s IH]; [reflexivity|].
  now rewrite str_app_cons, IH.
Qed.

(** ** The output stream *)

Module StreamFacts.

Import Io Response.

Lemma sound_extend s os : sound os -> fits s os = true -> sound (extend s os).
Proof.
  intros [Hg Hl] Hf. unfold fits in Hf. apply Nat.leb_le in Hf.
  split; [reflexivity | simpl; rewrite str_length_app; exact Hf].
Qed.

Lemma put_sound s os :
  sound os -> if fits s os then put s os = extend s os else good (put s os) = false.
Proof.
  intros [Hg Hl]. unfold fits, put, extend. rewrite Hg.
  now destruct (_ <=? _)%nat.
Qed.

Lemma fits_app s t os : fits (s +:+ t) os = fits s os && fits t (extend s os).
Proof.
  unfold fits, extend. simpl. rewrite !str_length_app.
  destruct (Nat.leb_spec (String.length (written os) + String.length s) (capacity os));
    destruct (Nat.leb_spec (String.length (written os)
                            + (String.length s + String.length t)) (capacity os));
    destruct (Nat.leb_spec (String.length (written os) + String.length s
                            + String.length t) (capacity os));
    simpl; try reflexivity; lia.
Qed.

(** A checked insertion of [s] before [k]. *)
Lemma ends_out r s k t X : ends r k t X -> ends r (OUT r (out s) k) (s +:+ t) X.
Proof.
  intros Hk os Hs. unfold OUT, out. pose proof (put_sound s os Hs) as Hp.
  rewrite fits_app. destruct (fits s os) eqn:Hf; cbn [andb].
  - rewrite Hp. cbn [good extend]. apply Hk. now apply sound_extend.
  - now rewrite Hp.
Qed.

(** A checked [stream << crlf]: whatever would follow is not reached. *)
Lemma ends_crlf r k : ends r (OUT r crlf k) "" (r, UndefinedBehaviour).
Proof.
  intros os [_ Hl]. unfold OUT, crlf, fits. cbn [String.length].
  rewrite Nat.add_0_r. apply Nat.leb_le in Hl. now rewrite Hl.
Qed.

(** [send] comes to a rejected promise when the status text does not fit
    the scratch buffer; when it fits, [send] calls [crlf]. *)
Lemma send_spec codeReason o code body mime r :
  send codeReason o code body mime r =
    (r, if (String.length (status_text codeReason code) <=? bufSize r)%nat
        then UndefinedBehaviour
        else Rejected insufficient_space).
Proof.
  unfold send.
  match goal with |- context [OUT r crlf ?k] => set (rest := k) end.
  assert (Hall : ends r
    (OUT r (out "HTTP/1.1 ")
      (OUT r (out (dec_int (codeNumber code)))
        (OUT r (out " ")
          (OUT r (out (codeReason code))
            (OUT r crlf rest)))))
    (status_text codeReason code) (r, UndefinedBehaviour)).
  { assert (He : forall k t t' X, t = t' -> ends r k t X -> ends r k t' X)
      by (now intros k t t' X ->).
    eapply He; [| do 4 apply ends_out; apply ends_crlf].
    unfold status_text. now rewrite ?str_app_assoc, str_app_nil_r. }
  rewrite (Hall (OutArrayBuf (bufSize r))) by (split; [reflexivity | cbn; lia]).
  unfold fits. cbn [written capacity OutArrayBuf String.length Nat.add].
  now destruct (_ <=? _)%nat.
Qed.

End StreamFacts.

(** ** Query *)

Lemma Query_get_add (k k' v : string) (q : Uri.Query) :
  Uri.Query_get k' (Uri.Query_add k v q) =
    match Uri.Query_get k' q with
    | Some w => Some w
    | None => if decide (k = k') then Some v else None
    end.
Proof.
  unfold Uri.Query_get, Uri.Query_add.
  destruct (Uri.params q !! k) as [w|] eqn:Hk; simpl.
  - destruct (Uri.params q !! k') as [w'|] eqn:Hk'; [reflexivity|].
    case_decide; [congruence | reflexivity].
  - rewrite lookup_insert. case_decide; subst.
    + now rewrite Hk.
    + now destruct (Uri.params q !! k').
Qed.

Lemma Query_get_adds_Some (ops : list (string * string)) (k v : string) (q : Uri.Query) :
  Uri.Query_get k q = Some v -> Uri.Query_get k (Query_adds ops q) = Some v.
Proof.
  revert q. induction ops as [|[k' v'] ops IH]; intros q H; simpl; [exact H|].
  apply IH. rewrite Query_get_add. now rewrite H.
Qed.

Lemma Query_get_adds_None (ops : list (string * string)) (k : string) (q : Uri.Query) :
  Uri.Query_get k (Query_adds ops q) = None <->
  Uri.Query_get k q = None /\ forall v, (k, v) ∉ ops.
Proof.
  revert q. induction ops as [|[k' v'] ops IH]; intros q; simpl.
  - split; [intros H; split; [exact H | intros v Hin; inversion Hin] | tauto].
  - rewrite IH, Query_get_add. split.
    + intros [H Hno]. destruct (Uri.Query_get k q) eqn:Hq; [discriminate|].
      case_decide; [discriminate|]. split; [reflexivity|].
      intros v Hin. apply elem_of_cons in Hin as [Heq|Hin]; [congruence | now apply (Hno v)].
    + intros [Hq Hno]. rewrite Hq. case_decide.
      * subst. exfalso. apply (Hno v'). now left.
      * split; [reflexivity|]. intros v Hin. apply (Hno v). now right.
Qed.

(** C9.  After [add(k, v1)] on a query that has no [k] yet, [get(k)] is
    [Some v1] whatever is added later, also under the key [k]; on a query
    that has [k] already, [get(k)] stays at the value it had; and on a
    query built by [add] calls alone, [get(k)] is [None] exactly when no
    [add] had the key [k]. *)
Theorem query_first_value_retained
    (q : Uri.Query) (k v1 : string) (later : list (string * string)) :
  (Uri.Query_get k q = None ->
     Uri.Query_get k (Query_adds later (Uri.Query_add k v1 q)) = Some v1)
  /\ (forall v0, Uri.Query_get k q = Some v0 ->
        Uri.Query_get k (Query_adds later (Uri.Query_add k v1 q)) = Some v0)
  /\ (forall ops : list (string * string),
        Uri.Query_get k (Query_adds ops Uri.Query_new) = None <->
        forall v, (k, v) ∉ ops).
Proof.
  split; [|split].
  - intros Hq. apply Query_get_adds_Some. rewrite Query_get_add, Hq.
    now rewrite decide_True.
  - intros v0 Hq. apply Query_get_adds_Some. now rewrite Query_get_add, Hq.
  - intros ops. rewrite Query_get_adds_None. split; [tauto|].
    intros H. split; [reflexivity | exact H].
Qed.

Lemma query_first_value_retained_witness :
  Uri.Query_get "a" Uri.Query_new = None
  /\ Uri.Query_get "a"
       (Query_adds [("b", "2"); ("a", "3")] (Uri.Query_add "a" "1" Uri.Query_new))
     = Some "1".
Proof.
  split; [reflexivity|].
  apply (proj1 (query_first_value_retained Uri.Query_new "a" "1" [("b", "2"); ("a", "3")])).
  reflexivity.
Defined.

(** ** Response *)

(** C10.  [associatePeer] on a response whose association is live throws
    and leaves the response as it was; on a response with no live
    association it stores the peer, and [peer()] then returns that peer
    while it has an owner and throws "Broken pipe" once it has none. *)
Theorem associatePeer_single_shot
    (o : Tcp.Owners) (r : Response.Response) (p : Tcp.Peer) :
  (0 < Tcp.use_count (Response.peer_ r) o ->
     Response.associatePeer (Some p) o r =
       (r, Response.RuntimeError "A peer was already associated to the response"))
  /\ (Tcp.use_count (Response.peer_ r) o = 0 ->
        exists r',
          Response.associatePeer (Some p) o r = (r', Response.Val tt)
          /\ Response.peer_ r' = Some p
          /\ Response.headers_ r' = Response.headers_ r
          /\ forall o' : Tcp.Owners,
               (0 < o' p -> Response.peer o' r' = Response.Val (Some p))
               /\ (o' p = 0 -> Response.peer o' r' = Response.RuntimeError "Broken pipe")).
Proof.
  unfold Response.associatePeer. split.
  - intros H. apply Nat.ltb_lt in H. now rewrite H.
  - intros H. rewrite H. simpl. eexists. split; [reflexivity|].
    split; [reflexivity|]. split; [reflexivity|].
    intros o'. unfold Response.peer, Tcp.lock, Tcp.expired. simpl. split; intros Hp.
    + destruct (o' p); [lia | reflexivity].
    + now rewrite Hp.
Qed.

Lemma associatePeer_single_shot_witness :
  Response.associatePeer (Some 1) (fun _ => 1) (Response.mkResponse [] 8 (Some 0)) =
    (Response.mkResponse [] 8 (Some 0),
     Response.RuntimeError "A peer was already associated to the response")
  /\ exists r',
       Response.associatePeer (Some 1) (fun _ => 1) (Response.mkResponse [] 8 None)
         = (r', Response.Val tt)
       /\ Response.peer (fun _ => 1) r' = Response.Val (Some 1)
       /\ Response.peer (fun _ => 0) r' = Response.RuntimeError "Broken pipe".
Proof.
  split.
  - apply (associatePeer_single_shot (fun _ => 1) (Response.mkResponse [] 8 (Some 0)) 1).
    simpl. lia.
  - destruct (proj2 (associatePeer_single_shot (fun _ => 1)
                       (Response.mkResponse [] 8 None) 1) eq_refl)
      as (r' & Ha & _ & _ & Hp).
    exists r'. split; [exact Ha|]. split.
    + apply (Hp (fun _ => 1)). lia.
    + apply (Hp (fun _ => 0)). reflexivity.
Defined.

(** C6 on the code.  [send(200, "hi", text/plain)] on a response with no
    header: when the scratch buffer does not hold the 13 bytes
    "HTTP/1.1 200 " and the reason phrase, the promise is rejected; when
    it does, [send] calls [crlf] for the end of the status line, and
    [crlf] has no [return] statement: the call has no defined behaviour,
    and no Content-Type line, Content-Length line or body is emitted.
    This holds whatever the reason phrase, the peer and its owners are;
    and no call of [send], with any code, body, MIME type and response,
    hands bytes to a peer. *)
Theorem send_hi_reaches_crlf (codeReason : Code -> string) (o : Tcp.Owners)
    (peer : Tcp.weak_ptr) (size : nat) :
  Response.send codeReason o Ok "hi" (Mime "text/plain") (Response.mkResponse [] size peer)
    = (Response.mkResponse [] size peer,
       if (13 + String.length (codeReason Ok) <=? size)%nat
       then Response.UndefinedBehaviour
       else Response.Rejected Response.insufficient_space)
  /\ Response.send (fun _ => "OK") (fun _ => 1) Ok "hi" (Mime "text/plain")
       (Response.mkResponse [] 4096 (Some 1))
     = (Response.mkResponse [] 4096 (Some 1), Response.UndefinedBehaviour)
  /\ forall code body mime r to bytes,
       snd (Response.send codeReason o code body mime r) <> Response.Transmitted to bytes.
Proof.
  split; [|split].
  - rewrite StreamFacts.send_spec. unfold Response.status_text.
    rewrite !str_length_app. reflexivity.
  - reflexivity.
  - intros code body mime r to bytes. rewrite StreamFacts.send_spec. cbn [snd].
    now destruct (_ <=? _)%nat.
Qed.

(** C7 on the code.  [send] comes to the rejected promise "insufficient
    space" exactly when the status text (the status line without its line
    end) does not fit the scratch buffer.  A write that exceeds the
    buffer later is not reached: with a scratch buffer of 20 bytes,
    [send(200, "hi", text/plain)] writes the 15 bytes "HTTP/1.1 200 OK",
    and although the 66 bytes of the response do not fit, the call is not
    rejected: it calls [crlf], and has no defined behaviour. *)
Theorem send_overflow_reaches_crlf (codeReason : Code -> string) (o : Tcp.Owners)
    (code : Code) (body : string) (mime : MediaType) (r : Response.Response) :
  (snd (Response.send codeReason o code body mime r)
     = Response.Rejected Response.insufficient_space
   <-> Response.bufSize r < String.length (Response.status_text codeReason code))
  /\ (snd (Response.send codeReason o code body mime r) = Response.UndefinedBehaviour
      <-> String.length (Response.status_text codeReason code) <= Response.bufSize r)
  /\ Response.status_text (fun _ => "OK") Ok = "HTTP/1.1 200 OK"
  /\ 20 < String.length ("HTTP/1.1 200 OK" +:+ CRLF
                         +:+ "Content-Type: text/plain" +:+ CRLF
                         +:+ "Content-Length: 2" +:+ CRLF +:+ CRLF +:+ "hi")
  /\ Response.send (fun _ => "OK") (fun _ => 1) Ok "hi" (Mime "text/plain")
       (Response.mkResponse [] 20 (Some 1))
     = (Response.mkResponse [] 20 (Some 1), Response.UndefinedBehaviour).
Proof.
  rewrite StreamFacts.send_spec. cbn [snd].
  split; [|split; [|split; [|split]]].
  - destruct (Nat.leb_spec (String.length (Response.status_text codeReason code))
                (Response.bufSize r)) as [Hle|Hgt];
      split; intros H; try discriminate; try lia; reflexivity.
  - destruct (Nat.leb_spec (String.length (Response.status_text codeReason code))
                (Response.bufSize r)) as [Hle|Hgt];
      split; intros H; try discriminate; try lia; reflexivity.
  - reflexivity.
  - vm_compute. lia.
  - reflexivity.
Qed.

(** ** Overflow of the parser's buffer *)

Lemma Parser_reset_idem (p : Private.Parser) :
  Private.Parser_reset (Private.Parser_reset p) = Private.Parser_reset p.
Proof. reflexivity. Qed.

Lemma Parser_feed_false (MaxBuffer : nat) (data : string) (p : Private.Parser) :
  fst (Private.Parser_feed MaxBuffer data p) = false <->
  MaxBuffer < String.length (Private.buffer p) + String.length data.
Proof.
  unfold Private.Parser_feed, Private.buffer_feed.
  destruct (Nat.leb_spec (String.length (Private.buffer p) + String.length data) MaxBuffer);
    simpl; split; intros; try lia; try discriminate; reflexivity.
Qed.

(** C5 on the code.  [Parser::feed] returns false exactly when the bytes
    fed so far and the chunk together exceed the capacity, and then the
    parser is as it was.  [Handler::onInput] then resets the parser and
    throws the error 413, and its handler calls [send]: when the status
    text "HTTP/1.1 413 " with the reason phrase fits the scratch buffer of
    [2 * MaxBuffer] bytes, [send] calls [crlf], which has no [return]
    statement, and the call has no defined behaviour; when it does not
    fit, the promise is rejected and dropped.  Either way no byte of a
    response is handed to the peer.  On a parser that holds part of a
    request, the reset has emptied the buffer and the headers and put the
    cursor and the step back to the start by then. *)
Theorem feed_overflow_reaches_crlf
    (isRegistered : string -> bool) (MaxBuffer : nat)
    (reserve_throws : N -> option Private.StdError) (codeReason : Code -> string)
    (what : Private.StdError -> string)
    (onRequest : Request -> Response.Response -> list string * option Handler.Exception)
    (o : Tcp.Owners) (data : string) (peer : Tcp.Peer) (parser : Private.Parser) :
  (fst (Private.Parser_feed MaxBuffer data parser) = false <->
     MaxBuffer < String.length (Private.buffer parser) + String.length data)
  /\ (fst (Private.Parser_feed MaxBuffer data parser) = false ->
        snd (Private.Parser_feed MaxBuffer data parser) = parser
        /\ Handler.onInput isRegistered MaxBuffer reserve_throws codeReason what onRequest
             o data peer parser
           = (Private.Parser_reset parser, [],
              if (String.length
                    (Response.status_text codeReason Request_Entity_Too_Large)
                  <=? Nat.shiftl MaxBuffer 1)%nat
              then Handler.NoBehaviour
              else Handler.Returns))
  /\ Handler.onInput isRegistered 64 reserve_throws
       (fun _ => "Request Entity Too Large") what onRequest (fun _ => 1)
       "0123456789" 1
       (Private.mkParser (str_repeat "a" 60) 7 1
          (mkRequest (Some Post) Http10 "/x" Uri.Query_new [Header.Raw "Host" "x"] "b") 0)
     = (Private.mkParser "" 0 0 (mkRequest (Some Post) Http10 "" Uri.Query_new [] "") 0,
        [], Handler.NoBehaviour).
Proof.
  split; [apply Parser_feed_false|]. split; [|reflexivity].
  intros Hf. pose proof (proj1 (Parser_feed_false _ _ _) Hf) as Hlt.
  assert (Hfeed : Private.Parser_feed MaxBuffer data parser = (false, parser)).
  { unfold Private.Parser_feed, Private.buffer_feed.
    destruct (Nat.leb_spec (String.length (Private.buffer parser) + String.length data)
                MaxBuffer); [lia|]. now destruct parser. }
  split; [now rewrite Hfeed|].
  unfold Handler.onInput. rewrite Hfeed.
  unfold Handler.catch, Handler.respond. cbn [err_code err_reason].
  change (Response.associatePeer (Some peer) o (Response.Response_new MaxBuffer))
    with (Response.mkResponse [] (Nat.shiftl MaxBuffer 1) (Some peer),
          @Response.Val unit tt).
  cbv iota. rewrite StreamFacts.send_spec. cbn [snd Response.bufSize].
  now destruct (_ <=? _)%nat.
Qed.

Lemma Parser_feed_fits (MaxBuffer : nat) (data : string) (p : Private.Parser) :
  String.length (Private.buffer p) + String.length data <= MaxBuffer ->
  Private.Parser_feed MaxBuffer data p =
    (true, Private.mkParser (Private.buffer p +:+ data) (Private.cursor p)
             (Private.currentStep p) (Private.request p) (Private.bytesRead p)).
Proof.
  intros H. unfold Private.Parser_feed, Private.buffer_feed.
  destruct (Nat.leb_spec (String.length (Private.buffer p) + String.length data) MaxBuffer);
    [reflexivity | lia].
Qed.

(** One turn of the loop of [Parser::parse]. *)
Lemma parse_loop_unfold (isRegistered : string -> bool)
    (reserve_throws : N -> option Private.StdError) (n fuel : nat) (p : Private.Parser) :
  Private.parse_loop isRegistered reserve_throws n fuel p =
    match Private.allSteps isRegistered reserve_throws fuel !! Private.currentStep p with
    | None => (p, Private.Undefined)
    | Some step =>
        match step p with
        | (p', Private.Go Private.Next) =>
            match n with
            | O => (Private.set_currentStep (S (Private.currentStep p')) p',
                    Private.Undefined)
            | S n' =>
                Private.parse_loop isRegistered reserve_throws n' fuel
                  (Private.set_currentStep (S (Private.currentStep p')) p')
            end
        | (p', Private.Go s) => (p', Private.Go s)
        | (p', Private.Suspend) => (p', Private.Suspend)
        | (p', Private.Throw e) => (p', Private.Throw e)
        | (p', Private.Escapes e) => (p', Private.Escapes e)
        | (p', Private.Overrun) => (p', Private.Overrun)
        | (p', Private.Undefined) => (p', Private.Undefined)
        end
    end.
Proof.
  destruct n; simpl; unfold Private.bind, Private.get_parser;
    destruct (Private.allSteps isRegistered reserve_throws fuel !! Private.currentStep p) as [step|];
    try reflexivity;
    destruct (step p) as [p' [[]| | | | |]]; reflexivity.
Qed.

(** C4.  The chunk "GET /hello HTTP/1.1\r\nHost: x\r\n\r\n" fed to a new
    parser (whose buffer has room for its 32 bytes): [parse()] returns
    [Done], and the request has method Get, resource "/hello", an empty
    query, a Host header with value "x", an empty body and version
    Http11. *)
Theorem parse_hello_request (isRegistered : string -> bool) (MaxBuffer : nat)
    (reserve_throws : N -> option Private.StdError) :
  32 <= MaxBuffer ->
  exists p p',
    Private.Parser_feed MaxBuffer hello_request Private.Parser_new = (true, p)
    /\ Private.Parser_parse isRegistered reserve_throws p = (p', Private.Returned Private.Done)
    /\ method_ (Private.request p') = Some Get
    /\ resource_ (Private.request p') = "/hello"
    /\ query_ (Private.request p') = Uri.Query_new
    /\ Header.get "Host" (headers_ (Private.request p')) = Some "x"
    /\ length (headers_ (Private.request p')) = 1
    /\ body_ (Private.request p') = ""
    /\ version_ (Private.request p') = Http11.
Proof.
  intros Hm.
  exists (Private.mkParser hello_request 0 0 Request_new 0),
         (Private.set_currentStep 2 (after_headers isRegistered)).
  split; [apply (Parser_feed_fits MaxBuffer hello_request Private.Parser_new); exact Hm|].
  split.
  - unfold Private.Parser_parse.
    rewrite parse_loop_unfold.
    change (Private.allSteps isRegistered reserve_throws _ !! _)
      with (Some (Private.RequestLineStep_apply 33)).
    cbv iota beta.
    replace (Private.RequestLineStep_apply 33 _)
      with (after_request_line, Private.Go Private.Next) by (vm_compute; reflexivity).
    cbv iota beta. rewrite parse_loop_unfold.
    change (Private.allSteps isRegistered reserve_throws _ !! _)
      with (Some (Private.HeadersStep_apply isRegistered 33)).
    cbv iota beta.
    replace (Private.HeadersStep_apply isRegistered 33 _)
      with (after_headers isRegistered, Private.Go Private.Next)
      by (vm_compute; reflexivity).
    cbv iota beta. rewrite parse_loop_unfold.
    change (Private.allSteps isRegistered reserve_throws _ !! _) with (Some (Private.BodyStep_apply reserve_throws)).
    cbv iota beta.
    replace (Private.BodyStep_apply reserve_throws _)
      with (Private.set_currentStep 2 (after_headers isRegistered),
            Private.Go Private.Done)
      by (unfold after_headers; destruct (isRegistered "Host"); vm_compute; reflexivity).
    reflexivity.
  - unfold after_headers. destruct (isRegistered "Host"); vm_compute; repeat split.
Qed.

Lemma parse_hello_request_witness :
  exists p p',
    Private.Parser_feed 32 hello_request Private.Parser_new = (true, p)
    /\ Private.Parser_parse (fun _ => false) (fun _ => Some Private.bad_alloc) p
       = (p', Private.Returned Private.Done)
    /\ method_ (Private.request p') = Some Get
    /\ resource_ (Private.request p') = "/hello"
    /\ query_ (Private.request p') = Uri.Query_new
    /\ Header.get "Host" (headers_ (Private.request p')) = Some "x"
    /\ length (headers_ (Private.request p')) = 1
    /\ body_ (Private.request p') = ""
    /\ version_ (Private.request p') = Http11.
Proof.
  apply (parse_hello_request (fun _ => false) 32 (fun _ => Some Private.bad_alloc)).
  apply le_n.
Defined.

(** C1 at two partitions.  The request "GET / HTTP/1.1\r\n\r\n" parses to
    [Done] in one chunk, but fed as "G" and the rest, the first [parse()]
    throws "Unknown HTTP request method".  The request with the body "abc"
    parses to [Done] with that body in one chunk, but fed as everything up
    to the blank line and then the body, both calls return [Again], and
    the body holds "c". *)
Theorem fragmented_feed_differs (reserve_throws : N -> option Private.StdError) :
  (forall isRegistered : string -> bool,
     snd (Private.feed_all isRegistered 4096 reserve_throws [get_slash] Private.Parser_new)
       = [(true, Private.Returned Private.Done)]
     /\ snd (Private.feed_all isRegistered 4096 reserve_throws
               ["G"; "ET / HTTP/1.1" +:+ CRLF +:+ CRLF] Private.Parser_new)
        = [(true, Private.Raised (mkHttpError Bad_Request "Unknown HTTP request method"))])
  /\ snd (Private.feed_all content_length_only 4096 reserve_throws [post_head +:+ "abc"] Private.Parser_new)
     = [(true, Private.Returned Private.Done)]
  /\ body_ (Private.request
       (fst (Private.feed_all content_length_only 4096 reserve_throws [post_head +:+ "abc"]
               Private.Parser_new))) = "abc"
  /\ snd (Private.feed_all content_length_only 4096 reserve_throws [post_head; "abc"] Private.Parser_new)
     = [(true, Private.Returned Private.Again); (true, Private.Returned Private.Again)]
  /\ body_ (Private.request
       (fst (Private.feed_all content_length_only 4096 reserve_throws [post_head; "abc"]
               Private.Parser_new))) = "c".
Proof.
  split; [intros isRegistered; split; vm_compute; reflexivity|].
  repeat split; vm_compute; reflexivity.
Qed.

(** A body that arrives in two chunks: on resumption the step moves over
    the missing bytes and appends as many bytes read at the cursor's new
    position: the bytes that follow the body when there are enough of
    them, and otherwise cells past the bytes fed. *)
Lemma split_body_misread (reserve_throws : N -> option Private.StdError) :
  snd (Private.feed_all content_length_only 4096 reserve_throws
         [post_head +:+ "a"; "bcXY"] Private.Parser_new)
    = [(true, Private.Returned Private.Again); (true, Private.Returned Private.Done)]
  /\ body_ (Private.request
       (fst (Private.feed_all content_length_only 4096 reserve_throws
               [post_head +:+ "a"; "bcXY"] Private.Parser_new))) = "aXY"
  /\ snd (Private.feed_all content_length_only 4096 reserve_throws
            [post_head +:+ "a"; "bc"] Private.Parser_new)
     = [(true, Private.Returned Private.Again); (true, Private.Overran)].
Proof. repeat split; vm_compute; reflexivity. Qed.

Lemma strncmp_prefix (lit t : string) :
  String.prefix t lit = true -> strncmp t lit (String.length t) = 0%Z.
Proof.
  revert lit. induction t as [|a t IH]; intros lit H; [reflexivity|].
  destruct lit as [|b lit]; [discriminate|]. simpl in H.
  destruct (ascii_dec a b) as [->|]; [|discriminate].
  simpl. unfold byte_eqb. rewrite Ascii.eqb_refl. simpl.
  destruct (Ascii.eqb b NUL); [reflexivity | now apply IH].
Qed.

(** C2 on the code.  "HTTP/1.0" and "HTTP/1.1" set [Http10] and [Http11],
    and "HTTP/2.0" raises "Encountered invalid HTTP version"; but the
    tokens "HTTP" and "" set [Http10] as well, and the step returns
    [Next]. *)
Theorem version_token_prefix_accepted :
  (version_ (Private.request (fst (request_line_of ("GET / HTTP/1.0" +:+ CRLF)))) = Http10
   /\ snd (request_line_of ("GET / HTTP/1.0" +:+ CRLF)) = Private.Go Private.Next)
  /\ (version_ (Private.request (fst (request_line_of ("GET / HTTP/1.1" +:+ CRLF)))) = Http11
      /\ snd (request_line_of ("GET / HTTP/1.1" +:+ CRLF)) = Private.Go Private.Next)
  /\ snd (request_line_of ("GET / HTTP/2.0" +:+ CRLF +:+ CRLF))
     = Private.Throw (mkHttpError Bad_Request "Encountered invalid HTTP version")
  /\ (version_ (Private.request (fst (request_line_of ("GET / HTTP" +:+ CRLF +:+ CRLF)))) = Http10
      /\ snd (request_line_of ("GET / HTTP" +:+ CRLF +:+ CRLF)) = Private.Go Private.Next)
  /\ (version_ (Private.request (fst (request_line_of ("GET / " +:+ CRLF +:+ CRLF)))) = Http10
      /\ snd (request_line_of ("GET / " +:+ CRLF +:+ CRLF)) = Private.Go Private.Next).
Proof. repeat split; vm_compute; reflexivity. Qed.

(** C3 on the code.  A parser that parsed "GET /?a=1 ..." and was reset
    still holds the query [a=1] and the method; the request
    "GET /?a=2 ..." then parses to [Done] with [a=1] on it, and with
    [a=2] on a new parser. *)
Theorem reset_keeps_query (isRegistered : string -> bool)
    (reserve_throws : N -> option Private.StdError) :
  let used := Private.Parser_reset (fst (feed_parse isRegistered reserve_throws query_1 Private.Parser_new)) in
  used <> Private.Parser_new
  /\ Uri.Query_get "a" (query_ (Private.request used)) = Some "1"
  /\ method_ (Private.request used) = Some Get
  /\ snd (feed_parse isRegistered reserve_throws query_2 used) = Private.Returned Private.Done
  /\ Uri.Query_get "a" (query_ (Private.request (fst (feed_parse isRegistered reserve_throws query_2 used))))
     = Some "1"
  /\ snd (feed_parse isRegistered reserve_throws query_2 Private.Parser_new) = Private.Returned Private.Done
  /\ Uri.Query_get "a"
       (query_ (Private.request (fst (feed_parse isRegistered reserve_throws query_2 Private.Parser_new))))
     = Some "2".
Proof.
  cbv zeta. split; [|repeat split; vm_compute; reflexivity].
  intros H. apply (f_equal (fun p => method_ (Private.request p))) in H.
  vm_compute in H. discriminate.
Qed.

(** ** Epoll *)

Lemma poll_tags (dflt : Polling.Flags) (out : list Polling.Event) (ready_fds : Z)
    (evs : list Polling.epoll_event) :
  fst (Polling.poll dflt out ready_fds evs) = ready_fds
  /\ exists pushed,
       snd (Polling.poll dflt out ready_fds evs) = (out ++ pushed)%list
       /\ map (fun e => Polling.value_ (Polling.tag e)) pushed
          = map Polling.data_u64 (take (Z.to_nat ready_fds) evs)
       /\ Forall (fun e => Polling.flags e = dflt) pushed.
Proof.
  unfold Polling.poll. destruct (0 <? ready_fds)%Z eqn:Hr; simpl.
  - split; [reflexivity|]. eexists. split; [reflexivity|].
    split.
    + rewrite map_map. reflexivity.
    + induction (take (Z.to_nat ready_fds) evs) as [|ev l IH]; simpl;
        constructor; [reflexivity | exact IH].
  - split; [reflexivity|]. exists []. rewrite app_nil_r.
    assert (Z.to_nat ready_fds = 0) as -> by (apply Z.ltb_ge in Hr; lia).
    repeat split. constructor.
Qed.

(** The tag of a registration comes back with every event the kernel
    reports for it. *)
Lemma registered_tag_echoed (uninit fd : Z) (interest : Polling.Flags) (t : Polling.Tag)
    (mode : Polling.Mode) (e e' : Polling.Epoll) (ev : Polling.epoll_event)
    (dflt : Polling.Flags) :
  Polling.addFd uninit fd interest t mode e = Some e'
  \/ Polling.addFdOneShot uninit fd interest t mode e = Some e'
  \/ Polling.rearmFd uninit fd interest t mode e = Some e' ->
  Polling.reports e' fd ev ->
  Polling.tag (Polling.poll_one dflt ev) = t.
Proof.
  intros Hreg (reg & Hl & Hd & _).
  assert (Hdata : Polling.data_u64 reg = Polling.value_ t).
  { unfold Polling.addFd, Polling.addFdOneShot, Polling.rearmFd, Polling.epoll_ctl in Hreg.
    destruct (Polling.interest_list e !! fd);
      destruct Hreg as [H|[H|H]]; try discriminate;
      injection H as <-; simpl in Hl; rewrite lookup_insert_eq in Hl;
      injection Hl as <-; reflexivity. }
  unfold Polling.poll_one, Polling.Event_of_tag. simpl.
  rewrite Hd, Hdata. now destruct t.
Qed.

(** C8 on the code.  Descriptor 5 is registered for Read with tag 7 and
    descriptor 6 for Write with tag 8; the kernel reports 5 readable and 6
    writable.  [poll] returns 2 and pushes two events with the tags 7 and
    8, both with the interest set an event is built with, whatever was
    observed: they cannot both carry the observed subset. *)
Theorem poll_pushes_tag_without_flags (dflt : Polling.Flags) :
  exists e1 e2,
    Polling.addFd 0 5 (Polling.setFlag Polling.Read Polling.Flags_new)
      (Polling.mkTag 7) Polling.Level (Polling.mkEpoll ∅) = Some e1
    /\ Polling.addFd 0 6 (Polling.setFlag Polling.Write Polling.Flags_new)
         (Polling.mkTag 8) Polling.Level e1 = Some e2
    /\ Polling.reports e2 5 (Polling.mk_epoll_event Polling.EPOLLIN 7)
    /\ Polling.reports e2 6 (Polling.mk_epoll_event Polling.EPOLLOUT 8)
    /\ Polling.poll dflt [] 2
         [Polling.mk_epoll_event Polling.EPOLLIN 7;
          Polling.mk_epoll_event Polling.EPOLLOUT 8]
       = (2%Z, [Polling.mkEvent dflt (Polling.mkTag 7);
                Polling.mkEvent dflt (Polling.mkTag 8)])
    /\ Polling.toNotifyOn Polling.EPOLLIN = Polling.mkFlags true false false
    /\ Polling.toNotifyOn Polling.EPOLLOUT = Polling.mkFlags false true false
    /\ ~ (dflt = Polling.toNotifyOn Polling.EPOLLIN
          /\ dflt = Polling.toNotifyOn Polling.EPOLLOUT).
Proof.
  eexists _, _. split; [vm_compute; reflexivity|]. split; [vm_compute; reflexivity|].
  split; [eexists; split; [vm_compute; reflexivity | split; reflexivity]|].
  split; [eexists; split; [vm_compute; reflexivity | split; reflexivity]|].
  split; [reflexivity|]. split; [reflexivity|]. split; [reflexivity|].
  intros [H1 H2]. rewrite H1 in H2. discriminate.
Qed.

(** ** CpuSet *)

Lemma cpuset_for_each_set_seq (Size b n : nat) (s : CpuSet.CpuSet) :
  (forall c, c ∈ CpuSet.bits (fst (CpuSet.for_each (CpuSet.set Size) (seq b n) s)) <->
             c ∈ CpuSet.bits s \/ (b <= c < b + n /\ c < Size))
  /\ snd (CpuSet.for_each (CpuSet.set Size) (seq b n) s) =
       if (Size <? b + n)%nat && (0 <? n)%nat
       then Some (CpuSet.invalid_argument "Trying to set invalid cpu number")
       else None.
Proof.
  revert b s. induction n as [|n IH]; intros b s.
  - simpl. rewrite andb_false_r. split; [|reflexivity]. intros c. split; [tauto|].
    intros [H|[H _]]; [exact H | lia].
  - cbn [seq CpuSet.for_each]. unfold CpuSet.set at 1 3.
    destruct (Nat.leb_spec Size b) as [Hge|Hlt].
    + cbn [fst snd]. split.
      * intros c. split; [tauto|]. intros [H|[H1 H2]]; [exact H | lia].
      * destruct (Nat.ltb_spec Size (b + S n)); [reflexivity | lia].
    + destruct (IH (S b) (CpuSet.mkCpuSet ({[b]} ∪ CpuSet.bits s))) as [Hm Hs].
      split.
      * intros c. rewrite Hm. cbn [CpuSet.bits]. rewrite elem_of_union, elem_of_singleton.
        intuition lia.
      * rewrite Hs. replace (S b + n) with (b + S n) by lia.
        destruct (Nat.ltb_spec Size (b + S n)); simpl; [|reflexivity].
        destruct n; [lia | reflexivity].
Qed.

Lemma cpuset_for_each_unset_seq (Size b n : nat) (s : CpuSet.CpuSet) :
  (forall c, c ∈ CpuSet.bits (fst (CpuSet.for_each (CpuSet.unset Size) (seq b n) s)) <->
             c ∈ CpuSet.bits s /\ ~ (b <= c < b + n /\ c < Size))
  /\ snd (CpuSet.for_each (CpuSet.unset Size) (seq b n) s) =
       if (Size <? b + n)%nat && (0 <? n)%nat
       then Some (CpuSet.invalid_argument "Trying to unset invalid cpu number")
       else None.
Proof.
  revert b s. induction n as [|n IH]; intros b s.
  - simpl. rewrite andb_false_r. split; [|reflexivity]. intros c. split; [|tauto].
    intros H. split; [exact H | lia].
  - cbn [seq CpuSet.for_each]. unfold CpuSet.unset at 1 3.
    destruct (Nat.leb_spec Size b) as [Hge|Hlt].
    + cbn [fst snd]. split.
      * intros c. split; [|tauto]. intros H. split; [exact H | lia].
      * destruct (Nat.ltb_spec Size (b + S n)); [reflexivity | lia].
    + destruct (IH (S b) (CpuSet.mkCpuSet (CpuSet.bits s ∖ {[b]}))) as [Hm Hs].
      split.
      * intros c. rewrite Hm. cbn [CpuSet.bits].
        rewrite elem_of_difference, elem_of_singleton.
        intuition lia.
      * rewrite Hs. replace (S b + n) with (b + S n) by lia.
        destruct (Nat.ltb_spec Size (b + S n)); simpl; [|reflexivity].
        destruct n; [lia | reflexivity].
Qed.

(** X1.  [set(cpu)] with [cpu >= Size] throws [invalid_argument] and leaves
    the set as it was; with [cpu < Size] it returns, [isset(cpu)] is then
    true, and [isset] of every other cpu is what it was. *)
Theorem cpuset_set_isset (Size cpu : nat) (s : CpuSet.CpuSet) :
  (Size <= cpu ->
     CpuSet.set Size cpu s =
       (s, Some (CpuSet.invalid_argument "Trying to set invalid cpu number")))
  /\ (cpu < Size ->
        snd (CpuSet.set Size cpu s) = None
        /\ CpuSet.isset Size cpu (fst (CpuSet.set Size cpu s)) = inl true
        /\ forall c, c <> cpu ->
             CpuSet.isset Size c (fst (CpuSet.set Size cpu s)) = CpuSet.isset Size c s).
Proof.
  unfold CpuSet.set, CpuSet.isset. split; intros H.
  - destruct (Nat.leb_spec Size cpu); [reflexivity | lia].
  - destruct (Nat.leb_spec Size cpu); [lia|]. cbn [fst snd CpuSet.bits].
    split; [reflexivity|]. split.
    + f_equal. apply bool_decide_eq_true. set_solver.
    + intros c Hc. destruct (Size <=? c)%nat; [reflexivity|]. f_equal.
      apply bool_decide_ext. set_solver.
Qed.

Lemma cpuset_set_isset_witness :
  CpuSet.isset 8 3 (fst (CpuSet.set 8 3 (CpuSet.CpuSet_new))) = inl true
  /\ CpuSet.set 8 8 CpuSet.CpuSet_new =
       (CpuSet.CpuSet_new,
        Some (CpuSet.invalid_argument "Trying to set invalid cpu number")).
Proof.
  split.
  - apply (proj2 (cpuset_set_isset 8 3 CpuSet.CpuSet_new)). lia.
  - apply (proj1 (cpuset_set_isset 8 8 CpuSet.CpuSet_new)). lia.
Defined.

(** X2.  [unset(cpu)] with [cpu < Size] returns, [isset(cpu)] is then
    false and every other cpu is as before; after [set(cpu)] on a set that
    did not have [cpu], it gives back the bits the set had.  With
    [cpu >= Size] it throws [invalid_argument] and changes nothing. *)
Theorem cpuset_unset_isset (Size cpu : nat) (s : CpuSet.CpuSet) :
  (Size <= cpu ->
     CpuSet.unset Size cpu s =
       (s, Some (CpuSet.invalid_argument "Trying to unset invalid cpu number")))
  /\ (cpu < Size ->
        snd (CpuSet.unset Size cpu s) = None
        /\ CpuSet.isset Size cpu (fst (CpuSet.unset Size cpu s)) = inl false
        /\ (forall c, c <> cpu ->
              CpuSet.isset Size c (fst (CpuSet.unset Size cpu s)) = CpuSet.isset Size c s)
        /\ (cpu ∉ CpuSet.bits s ->
              CpuSet.bits (fst (CpuSet.unset Size cpu (fst (CpuSet.set Size cpu s))))
                = CpuSet.bits s)).
Proof.
  unfold CpuSet.set, CpuSet.unset, CpuSet.isset. split; intros H.
  - destruct (Nat.leb_spec Size cpu); [reflexivity | lia].
  - destruct (Nat.leb_spec Size cpu); [lia|]. cbn [fst snd CpuSet.bits].
    split; [reflexivity|]. split; [|split].
    + f_equal. apply bool_decide_eq_false. set_solver.
    + intros c Hc. destruct (Size <=? c)%nat; [reflexivity|]. f_equal.
      apply bool_decide_ext. set_solver.
    + intros Hn. set_solver.
Qed.

Lemma cpuset_unset_isset_witness :
  CpuSet.isset 8 3 (fst (CpuSet.unset 8 3 (fst (CpuSet.set 8 3 CpuSet.CpuSet_new))))
    = inl false.
Proof.
  apply (proj2 (cpuset_unset_isset 8 3 (fst (CpuSet.set 8 3 CpuSet.CpuSet_new)))). lia.
Defined.

(** X3.  [setRange(begin, end)] with [begin > end] throws [range_error] and
    changes nothing.  Otherwise it sets the cpus of [begin .. end) that are
    below [Size], keeps the others, and throws [invalid_argument] exactly
    when the range is not empty and [end > Size]: the cpus below [Size]
    are set by then. *)
Theorem cpuset_setRange (Size b e : nat) (s : CpuSet.CpuSet) :
  (e < b ->
     CpuSet.setRange Size b e s =
       (s, Some (CpuSet.range_error "Invalid range, begin > end")))
  /\ (b <= e ->
        (forall c, c ∈ CpuSet.bits (fst (CpuSet.setRange Size b e s)) <->
                   c ∈ CpuSet.bits s \/ (b <= c < e /\ c < Size))
        /\ snd (CpuSet.setRange Size b e s) =
             if (Size <? e)%nat && (b <? e)%nat
             then Some (CpuSet.invalid_argument "Trying to set invalid cpu number")
             else None).
Proof.
  unfold CpuSet.setRange. split; intros H.
  - destruct (Nat.ltb_spec e b); [reflexivity | lia].
  - destruct (Nat.ltb_spec e b); [lia|].
    destruct (cpuset_for_each_set_seq Size b (e - b) s) as [Hm Hs].
    replace (b + (e - b)) with e in * by lia. split.
    + exact Hm.
    + rewrite Hs. f_equal. f_equal.
      destruct (Nat.ltb_spec 0 (e - b)); destruct (Nat.ltb_spec b e); try reflexivity; lia.
Qed.

Lemma cpuset_setRange_witness :
  (forall c, c ∈ CpuSet.bits (fst (CpuSet.setRange 8 6 10 CpuSet.CpuSet_new)) <->
             c ∈ CpuSet.bits CpuSet.CpuSet_new \/ (6 <= c < 10 /\ c < 8))
  /\ snd (CpuSet.setRange 8 6 10 CpuSet.CpuSet_new) =
       Some (CpuSet.invalid_argument "Trying to set invalid cpu number")
  /\ CpuSet.setRange 8 3 2 CpuSet.CpuSet_new =
       (CpuSet.CpuSet_new, Some (CpuSet.range_error "Invalid range, begin > end")).
Proof.
  split; [|split].
  - apply (proj2 (cpuset_setRange 8 6 10 CpuSet.CpuSet_new)). lia.
  - apply (proj2 (proj2 (cpuset_setRange 8 6 10 CpuSet.CpuSet_new) ltac:(lia))).
  - apply (proj1 (cpuset_setRange 8 3 2 CpuSet.CpuSet_new)). lia.
Defined.

(** X4.  [unsetRange(begin, end)] with [begin <= end <= Size] returns and
    clears exactly the cpus of [begin .. end); run after
    [setRange(begin, end)] on a set that had none of them, it gives back
    the bits the set had. *)
Theorem cpuset_unsetRange_undoes_setRange (Size b e : nat) (s : CpuSet.CpuSet) :
  b <= e -> e <= Size ->
  snd (CpuSet.unsetRange Size b e s) = None
  /\ (forall c, c ∈ CpuSet.bits (fst (CpuSet.unsetRange Size b e s)) <->
                c ∈ CpuSet.bits s /\ ~ (b <= c < e))
  /\ ((forall c, b <= c < e -> c ∉ CpuSet.bits s) ->
        CpuSet.bits (fst (CpuSet.unsetRange Size b e (fst (CpuSet.setRange Size b e s))))
          = CpuSet.bits s).
Proof.
  intros Hbe HeS.
  assert (Hun : forall s0,
    snd (CpuSet.unsetRange Size b e s0) = None
    /\ forall c, c ∈ CpuSet.bits (fst (CpuSet.unsetRange Size b e s0)) <->
                 c ∈ CpuSet.bits s0 /\ ~ (b <= c < e)).
  { intros s0. unfold CpuSet.unsetRange. destruct (Nat.ltb_spec e b); [lia|].
    destruct (cpuset_for_each_unset_seq Size b (e - b) s0) as [Hm Hs].
    replace (b + (e - b)) with e in * by lia. split.
    - rewrite Hs. destruct (Nat.ltb_spec Size e); [lia | reflexivity].
    - intros c. rewrite Hm. split; intros [H1 H2]; (split; [exact H1|]); lia. }
  split; [apply Hun|]. split; [apply Hun|].
  intros Hfresh. apply set_eq. intros c.
  rewrite (proj2 (Hun _)), (proj1 (proj2 (cpuset_setRange Size b e s) Hbe)).
  split.
  - intros [[H|[H1 H2]] Hn]; [exact H | lia].
  - intros H. split; [now left|]. intros Hr. exact (Hfresh c Hr H).
Qed.

Lemma cpuset_unsetRange_undoes_setRange_witness :
  CpuSet.bits (fst (CpuSet.unsetRange 8 2 5 (fst (CpuSet.setRange 8 2 5 CpuSet.CpuSet_new))))
    = CpuSet.bits CpuSet.CpuSet_new.
Proof.
  apply (cpuset_unsetRange_undoes_setRange 8 2 5 CpuSet.CpuSet_new); [lia | lia |].
  intros c _. apply not_elem_of_empty.
Defined.

Lemma cpuset_wf_set (Size cpu : nat) (s : CpuSet.CpuSet) :
  CpuSet.wf Size s -> CpuSet.wf Size (fst (CpuSet.set Size cpu s)).
Proof.
  intros Hw. unfold CpuSet.set. destruct (Nat.leb_spec Size cpu); [exact Hw|].
  intros c. cbn [fst CpuSet.bits]. rewrite elem_of_union, elem_of_singleton.
  intros [->|Hc]; [assumption | now apply Hw].
Qed.

Lemma cpuset_wf_unset (Size cpu : nat) (s : CpuSet.CpuSet) :
  CpuSet.wf Size s -> CpuSet.wf Size (fst (CpuSet.unset Size cpu s)).
Proof.
  intros Hw. unfold CpuSet.unset. destruct (Nat.leb_spec Size cpu); [exact Hw|].
  intros c. cbn [fst CpuSet.bits]. rewrite elem_of_difference.
  intros [Hc _]. now apply Hw.
Qed.

Lemma cpuset_wf_for_each (Size : nat) (op : nat -> CpuSet.CpuSet -> CpuSet.Result)
    (cpus : list nat) (s : CpuSet.CpuSet) :
  (forall cpu s0, CpuSet.wf Size s0 -> CpuSet.wf Size (fst (op cpu s0))) ->
  CpuSet.wf Size s -> CpuSet.wf Size (fst (CpuSet.for_each op cpus s)).
Proof.
  intros Hop. revert s. induction cpus as [|cpu cpus IH]; intros s Hw; [exact Hw|].
  cbn [CpuSet.for_each]. specialize (Hop cpu s Hw).
  destruct (op cpu s) as [s' [ex|]]; [exact Hop | now apply IH].
Qed.

Lemma cpuset_size_bound (Size : nat) (s : CpuSet.CpuSet) :
  CpuSet.wf Size s -> CpuSet.count s <= Size.
Proof.
  intros Hw. unfold CpuSet.count.
  assert (Hsub : CpuSet.bits s ⊆ list_to_set (C := gset nat) (seq 0 Size)).
  { intros c Hc. apply elem_of_list_to_set, elem_of_seq. specialize (Hw c Hc). lia. }
  apply subseteq_size in Hsub.
  rewrite size_list_to_set, length_seq in Hsub; [exact Hsub | apply NoDup_seq].
Qed.

(** X5.  Whatever calls are made on a new [CpuSet] ([clear], [set],
    [unset], of one cpu, of a list or of a range; returning or throwing),
    every bit that is set is below [Size] and [count()] is at most [Size];
    and [set(cpu)] with [cpu < Size] raises [count()] by one when the cpu
    was not set and leaves it when it was. *)
Theorem cpuset_count_bounded (Size : nat) (calls : list CpuSetRun.Call) :
  CpuSet.wf Size (CpuSetRun.run Size calls CpuSet.CpuSet_new)
  /\ CpuSet.count (CpuSetRun.run Size calls CpuSet.CpuSet_new) <= Size
  /\ forall cpu s, cpu < Size ->
       CpuSet.count (fst (CpuSet.set Size cpu s)) =
         if bool_decide (cpu ∈ CpuSet.bits s) then CpuSet.count s
         else S (CpuSet.count s).
Proof.
  assert (Hrun : forall s, CpuSet.wf Size s -> CpuSet.wf Size (CpuSetRun.run Size calls s)).
  { induction calls as [|c calls IH]; intros s Hw; [exact Hw|].
    cbn [CpuSetRun.run fold_left]. apply IH.
    destruct c as [|cpu|cpu|cpus|cpus|b e|b e]; cbn [CpuSetRun.call].
    - intros c Hc. cbn in Hc. now apply not_elem_of_empty in Hc.
    - now apply cpuset_wf_set.
    - now apply cpuset_wf_unset.
    - apply cpuset_wf_for_each; [apply cpuset_wf_set | exact Hw].
    - apply cpuset_wf_for_each; [apply cpuset_wf_unset | exact Hw].
    - unfold CpuSet.setRange. destruct (e <? b)%nat; [exact Hw|].
      apply cpuset_wf_for_each; [apply cpuset_wf_set | exact Hw].
    - unfold CpuSet.unsetRange. destruct (e <? b)%nat; [exact Hw|].
      apply cpuset_wf_for_each; [apply cpuset_wf_unset | exact Hw]. }
  assert (Hnew : CpuSet.wf Size CpuSet.CpuSet_new).
  { intros c Hc. cbn in Hc. now apply not_elem_of_empty in Hc. }
  split; [now apply Hrun|]. split; [now apply cpuset_size_bound, Hrun|].
  intros cpu s Hlt. unfold CpuSet.set, CpuSet.count.
  destruct (Nat.leb_spec Size cpu); [lia|]. cbn [fst CpuSet.bits].
  case_bool_decide as Hin.
  - f_equal. apply set_eq. intros c. rewrite elem_of_union, elem_of_singleton.
    split; [intros [->|Hc]; assumption | tauto].
  - rewrite size_union by set_solver. now rewrite size_singleton.
Qed.

Lemma cpuset_count_bounded_witness :
  CpuSet.count (fst (CpuSet.set 8 3 CpuSet.CpuSet_new)) = 1.
Proof.
  rewrite (proj2 (proj2 (cpuset_count_bounded 8 [])) 3 CpuSet.CpuSet_new); [reflexivity | lia].
Defined.

(** X6.  [set] of a list of cpus that are all below [Size] returns with
    these cpus added; when some cpu of the list is not below [Size], the
    call throws [invalid_argument] at the first such cpu, and the cpus
    before it are set by then. *)
Theorem cpuset_set_list (Size : nat) (s : CpuSet.CpuSet) (cpus : list nat) :
  (Forall (fun cpu => cpu < Size) cpus ->
     snd (CpuSet.set_list Size cpus s) = None
     /\ forall c, c ∈ CpuSet.bits (fst (CpuSet.set_list Size cpus s)) <->
                  c ∈ CpuSet.bits s \/ c ∈ cpus)
  /\ (forall good bad rest,
        cpus = (good ++ bad :: rest)%list ->
        Forall (fun cpu => cpu < Size) good -> Size <= bad ->
        snd (CpuSet.set_list Size cpus s) =
          Some (CpuSet.invalid_argument "Trying to set invalid cpu number")
        /\ forall c, c ∈ CpuSet.bits (fst (CpuSet.set_list Size cpus s)) <->
                     c ∈ CpuSet.bits s \/ c ∈ good).
Proof.
  unfold CpuSet.set_list.
  assert (Hgood : forall good tail s0,
    Forall (fun cpu => cpu < Size) good ->
    exists s1, CpuSet.for_each (CpuSet.set Size) (good ++ tail) s0
               = CpuSet.for_each (CpuSet.set Size) tail s1
      /\ forall c, c ∈ CpuSet.bits s1 <-> c ∈ CpuSet.bits s0 \/ c ∈ good).
  { induction good as [|g good IH]; intros tail s0 Hall.
    - exists s0. split; [reflexivity|]. intros c. rewrite elem_of_nil. tauto.
    - inversion Hall as [|? ? Hg Hall']; subst.
      cbn [app CpuSet.for_each]. unfold CpuSet.set at 1.
      destruct (Nat.leb_spec Size g); [lia|].
      destruct (IH tail (CpuSet.mkCpuSet ({[g]} ∪ CpuSet.bits s0)) Hall') as (s1 & He & Hm).
      exists s1. split; [exact He|]. intros c. rewrite Hm. cbn [CpuSet.bits].
      rewrite elem_of_union, elem_of_singleton, elem_of_cons. tauto. }
  split.
  - intros Hall. destruct (Hgood cpus [] s Hall) as (s1 & He & Hm).
    rewrite app_nil_r in He. rewrite He. cbn. split; [reflexivity | exact Hm].
  - intros good bad rest -> Hall Hbad.
    destruct (Hgood good (bad :: rest) s Hall) as (s1 & He & Hm).
    rewrite He. cbn [CpuSet.for_each]. unfold CpuSet.set.
    destruct (Nat.leb_spec Size bad); [|lia]. cbn. split; [reflexivity | exact Hm].
Qed.

Lemma cpuset_set_list_witness :
  snd (CpuSet.set_list 8 [1; 9; 2] CpuSet.CpuSet_new) =
    Some (CpuSet.invalid_argument "Trying to set invalid cpu number")
  /\ snd (CpuSet.set_list 8 [1; 2] CpuSet.CpuSet_new) = None.
Proof.
  split.
  - apply (proj2 (cpuset_set_list 8 CpuSet.CpuSet_new [1; 9; 2]) [1] 9 [2] eq_refl).
    + repeat constructor.
    + lia.
  - apply (proj1 (cpuset_set_list 8 CpuSet.CpuSet_new [1; 2])). repeat constructor.
Defined.

Lemma cpuset_toPosix_fold (s : CpuSet.CpuSet) (l : list nat) (acc : CpuSet.cpu_set_t) (c : nat) :
  c ∈ fold_left (fun a cpu => if bool_decide (cpu ∈ CpuSet.bits s)
                              then CpuSet.CPU_SET cpu a else a) l acc <->
  c ∈ acc \/ (c ∈ l /\ c ∈ CpuSet.bits s /\ c < CpuSet.CPU_SETSIZE).
Proof.
  revert acc. induction l as [|x l IH]; intros acc; cbn [fold_left].
  - rewrite elem_of_nil. tauto.
  - rewrite IH, elem_of_cons. unfold CpuSet.CPU_SET.
    case_bool_decide as Hx.
    + destruct (Nat.ltb_spec x CpuSet.CPU_SETSIZE).
      * rewrite elem_of_union, elem_of_singleton. split.
        -- intros [[->|H1]|H1]; [right; tauto | tauto | tauto].
        -- intros [H1|[[->|H1] H2]]; tauto.
      * split; [tauto|]. intros [H1|[[->|H1] [H2 H3]]]; [tauto | lia | tauto].
    + split; [tauto|]. intros [H1|[[->|H1] [H2 H3]]]; tauto.
Qed.

(** X7.  [toPosix()] has exactly the cpus of the set that are below [Size]
    and below [CPU_SETSIZE]: with [Size <= CPU_SETSIZE], [CPU_ISSET] on
    the result agrees with [isset] for every cpu below [Size] and is false
    for the others. *)
Theorem cpuset_toPosix (Size : nat) (s : CpuSet.CpuSet) (c : nat) :
  Size <= CpuSet.CPU_SETSIZE ->
  (c < Size -> CpuSet.isset Size c s = inl (CpuSet.CPU_ISSET c (CpuSet.toPosix Size s)))
  /\ (Size <= c -> CpuSet.CPU_ISSET c (CpuSet.toPosix Size s) = false).
Proof.
  intros HS. unfold CpuSet.CPU_ISSET, CpuSet.toPosix, CpuSet.isset. split; intros Hc.
  - destruct (Nat.leb_spec Size c); [lia|].
    destruct (Nat.ltb_spec c CpuSet.CPU_SETSIZE); [|lia]. cbn [andb]. f_equal.
    apply bool_decide_ext. rewrite cpuset_toPosix_fold, elem_of_seq.
    unfold CpuSet.CPU_ZERO. rewrite elem_of_empty. intuition lia.
  - apply andb_false_iff. right. apply bool_decide_eq_false.
    rewrite cpuset_toPosix_fold, elem_of_seq. unfold CpuSet.CPU_ZERO.
    rewrite elem_of_empty. intuition lia.
Qed.

Lemma cpuset_toPosix_witness :
  CpuSet.isset 8 3 (fst (CpuSet.set 8 3 CpuSet.CpuSet_new))
    = inl (CpuSet.CPU_ISSET 3 (CpuSet.toPosix 8 (fst (CpuSet.set 8 3 CpuSet.CpuSet_new)))).
Proof.
  apply (proj1 (cpuset_toPosix 8 (fst (CpuSet.set 8 3 CpuSet.CpuSet_new)) 3
                  ltac:(unfold CpuSet.CPU_SETSIZE; lia))).
  lia.
Defined.

(** ** Query, in general *)

(** X8.  After any run of [add] calls, [get(k)] is the value the query had
    for [k] before the run, if it had one, and otherwise the value of the
    first [add] of the run with the name [k]; a query built from an
    initializer list gives, for each name, the value of its first pair. *)
Theorem query_get_first_added (q : Uri.Query) (ops : list (string * string)) (k : string) :
  Uri.Query_get k (Query_adds ops q) =
    match Uri.Query_get k q with
    | Some v => Some v
    | None => first_value k ops
    end
  /\ Uri.Query_get k (Query_init ops) = first_value k ops.
Proof.
  assert (H : forall q0, Uri.Query_get k (Query_adds ops q0) =
                match Uri.Query_get k q0 with
                | Some v => Some v
                | None => first_value k ops
                end).
  { induction ops as [|[k' v'] ops IH]; intros q0.
    - cbn. now destruct (Uri.Query_get k q0).
    - cbn [Query_adds fold_left fst snd]. fold (Query_adds ops (Uri.Query_add k' v' q0)).
      rewrite IH, Query_get_add. unfold first_value. cbn [List.find fst].
      destruct (Uri.Query_get k q0) as [v|]; [reflexivity|].
      case_decide as Hk.
      + subst. now rewrite String.eqb_refl.
      + apply String.eqb_neq in Hk. now rewrite Hk. }
  split; [apply H|]. unfold Query_init. now rewrite H.
Qed.

(** ** Epoll, the interest bits *)

Lemma land_pow2_testbit (x i : Z) :
  (0 <= i)%Z -> negb (Z.land x (2 ^ i) =? 0)%Z = Z.testbit x i.
Proof.
  intros Hi. destruct (Z.testbit x i) eqn:Hb.
  - apply negb_true_iff, Z.eqb_neq. intros H0.
    assert (Ht : Z.testbit (Z.land x (2 ^ i)) i = true)
      by (rewrite Z.land_spec, Hb, Z.pow2_bits_true; [reflexivity | exact Hi]).
    rewrite H0, Z.bits_0 in Ht. discriminate.
  - apply negb_false_iff, Z.eqb_eq. apply Z.bits_inj'. intros n Hn.
    rewrite Z.land_spec, Z.bits_0.
    destruct (Z.eq_dec i n) as [<-|Hne].
    + now rewrite Hb.
    + rewrite (Z.pow2_bits_false i n) by exact Hne. apply andb_false_r.
Qed.

Lemma toNotifyOn_testbit (ev : Z) (n : Polling.NotifyOn) :
  Polling.hasFlag (Polling.toNotifyOn ev) n = Z.testbit ev (native_bit n).
Proof.
  unfold Polling.toNotifyOn.
  change Polling.EPOLLIN with (2 ^ 0)%Z. change Polling.EPOLLOUT with (2 ^ 2)%Z.
  change Polling.EPOLLHUP with (2 ^ 4)%Z.
  rewrite !land_pow2_testbit by lia.
  destruct n; cbn [native_bit];
    destruct (Z.testbit ev 0), (Z.testbit ev 2), (Z.testbit ev 4); reflexivity.
Qed.

Lemma toEpollEvents_testbit (uninit : Z) (interest : Polling.Flags) (n : Polling.NotifyOn) :
  Z.testbit (Polling.toEpollEvents uninit interest) (native_bit n) =
    Z.testbit uninit (native_bit n) || Polling.hasFlag interest n.
Proof.
  unfold Polling.toEpollEvents, Polling.hasFlag.
  destruct interest as [[] [] []]; destruct n; cbn [Polling.hasRead Polling.hasWrite
    Polling.hasHangup native_bit]; rewrite ?Z.lor_spec;
    change (Z.testbit Polling.EPOLLIN 0) with true;
    change (Z.testbit Polling.EPOLLIN 2) with false;
    change (Z.testbit Polling.EPOLLIN 4) with false;
    change (Z.testbit Polling.EPOLLOUT 0) with false;
    change (Z.testbit Polling.EPOLLOUT 2) with true;
    change (Z.testbit Polling.EPOLLOUT 4) with false;
    change (Z.testbit Polling.EPOLLHUP 0) with false;
    change (Z.testbit Polling.EPOLLHUP 2) with false;
    change (Z.testbit Polling.EPOLLHUP 4) with true;
    rewrite ?orb_false_r, ?orb_true_r; reflexivity.
Qed.

Lemma Flags_ext (a b : Polling.Flags) :
  (forall n, Polling.hasFlag a n = Polling.hasFlag b n) -> a = b.
Proof.
  intros H. destruct a, b.
  pose proof (H Polling.Read) as H1. pose proof (H Polling.Write) as H2.
  pose proof (H Polling.Hangup) as H3. cbn in H1, H2, H3. now subst.
Qed.

(** X9.  Mapped to the native bits and back, an interest set comes out as
    its union with whatever interests the bits left in the accumulator of
    [toEpollEvents] spell: every requested interest is there, and the set
    comes back unchanged exactly when the accumulator spells none (as when
    it starts at zero). *)
Theorem epoll_interest_round_trip (uninit : Z) (interest : Polling.Flags) :
  Polling.toNotifyOn (Polling.toEpollEvents uninit interest)
    = Flags_union (Polling.toNotifyOn uninit) interest
  /\ Polling.toNotifyOn (Polling.toEpollEvents 0 interest) = interest
  /\ (forall n, Polling.hasFlag interest n = true ->
        Polling.hasFlag (Polling.toNotifyOn (Polling.toEpollEvents uninit interest)) n = true).
Proof.
  assert (H : forall u, Polling.toNotifyOn (Polling.toEpollEvents u interest)
                        = Flags_union (Polling.toNotifyOn u) interest).
  { intros u. apply Flags_ext. intros n.
    rewrite toNotifyOn_testbit, toEpollEvents_testbit, <- toNotifyOn_testbit.
    destruct n; reflexivity. }
  split; [apply H|]. split.
  - rewrite H. now destruct interest.
  - intros n Hn. rewrite toNotifyOn_testbit, toEpollEvents_testbit, Hn. apply orb_true_r.
Qed.

Lemma u32_testbit (z i : Z) : (0 <= i < 32)%Z -> Z.testbit (Polling.u32 z) i = Z.testbit z i.
Proof. intros Hi. unfold Polling.u32. apply Z.mod_pow2_bits_low. lia. Qed.

Lemma u32_range (z : Z) : (0 <= Polling.u32 z < 2 ^ 32)%Z.
Proof. unfold Polling.u32. apply Z.mod_pos_bound. lia. Qed.

Lemma lor_range32 (a b : Z) :
  (0 <= a < 2 ^ 32)%Z -> (0 <= b < 2 ^ 32)%Z -> (0 <= Z.lor a b < 2 ^ 32)%Z.
Proof.
  intros Ha Hb.
  assert (H : Z.lor a b = (Z.lor a b mod 2 ^ 32)%Z).
  { rewrite <- Z.land_ones by lia. rewrite Z.land_lor_distr_l.
    rewrite !Z.land_ones by lia. now rewrite !Z.mod_small by assumption. }
  rewrite H. apply Z.mod_pos_bound. lia.
Qed.

(** X10.  A registration made by [addFd], [addFdOneShot] or [rearmFd]
    stores, for the descriptor, the tag as given and a 32-bit mask that
    has the native bit of every requested interest, [EPOLLET] when the
    mode is [Edge], and [EPOLLONESHOT] when made by [addFdOneShot],
    whatever the accumulator of [toEpollEvents] held. *)
Theorem epoll_registration_mask (uninit fd : Z) (interest : Polling.Flags)
    (t : Polling.Tag) (mode : Polling.Mode) (e e' : Polling.Epoll) :
  Polling.addFd uninit fd interest t mode e = Some e'
  \/ Polling.addFdOneShot uninit fd interest t mode e = Some e'
  \/ Polling.rearmFd uninit fd interest t mode e = Some e' ->
  exists reg,
    Polling.interest_list e' !! fd = Some reg
    /\ Polling.data_u64 reg = Polling.value_ t
    /\ (0 <= Polling.events reg < 2 ^ 32)%Z
    /\ (forall n, Polling.hasFlag interest n = true ->
          Polling.hasFlag (Polling.toNotifyOn (Polling.events reg)) n = true)
    /\ (mode = Polling.Edge -> Z.testbit (Polling.events reg) 31 = true)
    /\ (Polling.addFdOneShot uninit fd interest t mode e = Some e' ->
          Z.testbit (Polling.events reg) 30 = true).
Proof.
  assert (Hbits : forall m n,
    (exists extra, m = Z.lor (Polling.u32 (Polling.toEpollEvents uninit interest)) extra
                   /\ (0 <= extra)%Z) ->
    Polling.hasFlag interest n = true ->
    Polling.hasFlag (Polling.toNotifyOn m) n = true).
  { intros m n (extra & -> & _) Hn.
    rewrite toNotifyOn_testbit, Z.lor_spec, u32_testbit, toEpollEvents_testbit, Hn
      by (destruct n; cbn; lia).
    now rewrite orb_true_r. }
  assert (HET : (0 <= Polling.EPOLLET < 2 ^ 32)%Z) by (vm_compute; split; congruence).
  assert (HOS : (0 <= Polling.EPOLLONESHOT < 2 ^ 32)%Z) by (vm_compute; split; congruence).
  pose proof (u32_range (Polling.toEpollEvents uninit interest)) as Hu.
  set (base := Polling.u32 (Polling.toEpollEvents uninit interest)) in *.
  set (edge := fun m : Z => match mode with
                            | Polling.Edge => Z.lor m Polling.EPOLLET
                            | Polling.Level => m
                            end).
  assert (Hctl : forall op ev,
    Polling.epoll_ctl op fd ev e = Some e' -> op <> Polling.EPOLL_CTL_DEL ->
    Polling.interest_list e' !! fd = Some ev).
  { intros op ev H Hop. unfold Polling.epoll_ctl in H.
    destruct op, (Polling.interest_list e !! fd); try discriminate; try congruence;
      injection H as <-; cbn; apply lookup_insert_eq. }
  assert (Hedge_range : forall m, (0 <= m < 2 ^ 32)%Z -> (0 <= edge m < 2 ^ 32)%Z).
  { intros m Hm. unfold edge. destruct mode; [exact Hm | now apply lor_range32]. }
  assert (Hedge_bits : forall m n,
    (exists extra, m = Z.lor base extra /\ (0 <= extra)%Z) ->
    Polling.hasFlag interest n = true ->
    Polling.hasFlag (Polling.toNotifyOn (edge m)) n = true).
  { intros m n (extra & -> & Hx) Hn. apply Hbits; [|exact Hn]. unfold edge.
    destruct mode; [now exists extra|].
    exists (Z.lor extra Polling.EPOLLET). split; [now rewrite Z.lor_assoc|].
    apply Z.lor_nonneg. lia. }
  assert (Hedge_et : forall m, mode = Polling.Edge -> Z.testbit (edge m) 31 = true).
  { intros m Hm. unfold edge. rewrite Hm, Z.lor_spec.
    change (Z.testbit Polling.EPOLLET 31) with true. apply orb_true_r. }
  assert (Hone : forall reg,
    Polling.interest_list e' !! fd = Some reg ->
    Polling.addFdOneShot uninit fd interest t mode e = Some e' ->
    Z.testbit (Polling.events reg) 30 = true).
  { intros reg Hl H. unfold Polling.addFdOneShot in H.
    apply Hctl in H; [|discriminate]. rewrite Hl in H.
    injection H as ->. cbn [Polling.events]. destruct mode; rewrite ?Z.lor_spec;
      change (Z.testbit Polling.EPOLLONESHOT 30) with true;
      rewrite ?orb_true_r; reflexivity. }
  intros [H|[H|H]]; pose proof H as H';
    unfold Polling.addFd, Polling.addFdOneShot, Polling.rearmFd in H';
    apply Hctl in H'; try discriminate.
  - exists (Polling.mk_epoll_event (edge base) (Polling.value_ t)).
    split; [exact H'|]. split; [reflexivity|]. cbn [Polling.events].
    split; [now apply Hedge_range|].
    split; [intros n; apply Hedge_bits; exists 0%Z; rewrite Z.lor_0_r;
            split; [reflexivity | lia]|].
    split; [apply Hedge_et | exact (Hone _ H')].
  - exists (Polling.mk_epoll_event (edge (Z.lor base Polling.EPOLLONESHOT)) (Polling.value_ t)).
    split; [exact H'|]. split; [reflexivity|]. cbn [Polling.events].
    split; [apply Hedge_range; now apply lor_range32|].
    split; [intros n; apply Hedge_bits; eexists; split; [reflexivity | lia]|].
    split; [apply Hedge_et | exact (Hone _ H')].
  - exists (Polling.mk_epoll_event (edge base) (Polling.value_ t)).
    split; [exact H'|]. split; [reflexivity|]. cbn [Polling.events].
    split; [now apply Hedge_range|].
    split; [intros n; apply Hedge_bits; exists 0%Z; rewrite Z.lor_0_r;
            split; [reflexivity | lia]|].
    split; [apply Hedge_et | exact (Hone _ H')].
Qed.

Lemma epoll_registration_mask_witness :
  exists reg,
    Polling.interest_list
      (Polling.mkEpoll (<[5%Z := Polling.mk_epoll_event (Z.lor 1 Polling.EPOLLET) 7]> ∅))
      !! 5%Z = Some reg
    /\ Polling.data_u64 reg = 7%Z
    /\ Z.testbit (Polling.events reg) 31 = true.
Proof.
  destruct (epoll_registration_mask 0 5 (Polling.setFlag Polling.Read Polling.Flags_new)
              (Polling.mkTag 7) Polling.Edge (Polling.mkEpoll ∅)
              (Polling.mkEpoll (<[5%Z := Polling.mk_epoll_event (Z.lor 1 Polling.EPOLLET) 7]> ∅))
              ltac:(left; vm_compute; reflexivity))
    as (reg & Hl & Hd & _ & _ & HE & _).
  exists reg. split; [exact Hl|]. split; [exact Hd | now apply HE].
Defined.

(** X11.  [poll] returns what [epoll_wait] returned.  When that is zero
    (timeout) or negative (error), the vector of events is left as it
    was; when it is positive, the events already there are kept and one
    event is appended for each of the first [ready_fds] entries the kernel
    wrote, in order, with the tag of that entry. *)
Theorem epoll_poll_appends (dflt : Polling.Flags) (out : list Polling.Event)
    (ready_fds : Z) (evs : list Polling.epoll_event) :
  fst (Polling.poll dflt out ready_fds evs) = ready_fds
  /\ ((ready_fds <= 0)%Z -> snd (Polling.poll dflt out ready_fds evs) = out)
  /\ ((0 < ready_fds <= Z.of_nat (length evs))%Z ->
        exists pushed,
          snd (Polling.poll dflt out ready_fds evs) = (out ++ pushed)%list
          /\ length pushed = Z.to_nat ready_fds
          /\ forall i ev, i < Z.to_nat ready_fds -> evs !! i = Some ev ->
               Polling.tag <$> pushed !! i = Some (Polling.mkTag (Polling.data_u64 ev))).
Proof.
  unfold Polling.poll. split; [now destruct (0 <? ready_fds)%Z|]. split.
  - intros H. destruct (Z.ltb_spec 0 ready_fds); [lia | reflexivity].
  - intros [H0 Hl]. destruct (Z.ltb_spec 0 ready_fds); [|lia].
    eexists. split; [reflexivity|]. split.
    + rewrite length_map, length_take. lia.
    + intros i ev Hi Hev. rewrite list_lookup_fmap, lookup_take_lt by exact Hi.
      now rewrite Hev.
Qed.

Lemma epoll_poll_appends_witness :
  snd (Polling.poll Polling.Flags_new [] 0 [Polling.mk_epoll_event 1 7]) = [].
Proof.
  apply (proj1 (proj2 (epoll_poll_appends Polling.Flags_new [] 0 [Polling.mk_epoll_event 1 7]))).
  lia.
Defined.

(** ** The cursor over the unread bytes *)

Lemma str_drop_nil (n : nat) : str_drop n "" = "".
Proof. now destruct n. Qed.

Lemma str_length_drop (n : nat) (s : string) :
  String.length (str_drop n s) = String.length s - n.
Proof.
  revert n. induction s as [|c s IH]; intros [|n]; simpl; try reflexivity. apply IH.
Qed.

Lemma str_drop_drop (n k : nat) (s : string) :
  str_drop (n + k) s = str_drop k (str_drop n s).
Proof.
  revert s. induction n as [|n IH]; intros s; [reflexivity|].
  destruct s as [|c s]; simpl; [now rewrite str_drop_nil | apply IH].
Qed.

Lemma str_drop_app (a b : string) : str_drop (String.length a) (a +:+ b) = b.
Proof. induction a as [|c a IH]; [reflexivity | rewrite str_app_cons; exact IH]. Qed.

Lemma str_take_app (a b : string) : str_take (String.length a) (a +:+ b) = a.
Proof.
  induction a as [|c a IH]; [now destruct b|]. rewrite str_app_cons. simpl. now rewrite IH.
Qed.

Lemma substring_take_drop (n m : nat) (s : string) :
  substring n m s = str_take m (str_drop n s).
Proof.
  revert n m. induction s as [|c s IH]; intros [|n] [|m]; simpl; try reflexivity.
  - now rewrite IH.
  - apply IH.
  - apply IH.
Qed.

Lemma get_drop (n : nat) (s : string) :
  String.get n s = match str_drop n s with String c _ => Some c | EmptyString => None end.
Proof.
  revert n. induction s as [|c s IH]; intros [|n]; simpl; try reflexivity. apply IH.
Qed.

Lemma str_length_repeat (c : ascii) (n : nat) : String.length (str_repeat c n) = n.
Proof. induction n; simpl; congruence. Qed.

(** A scan passes the bytes on which it cannot stop. *)
Lemma scan_skip (stop : string -> bool) (Q : ascii -> bool) (pre rest : string) :
  (forall d s, Q d = true -> stop (String d s) = false) ->
  str_forall Q pre = true -> stop rest = true ->
  StreamCursor.scan stop (pre +:+ rest) = Some (String.length pre).
Proof.
  intros HQ. induction pre as [|d pre IH]; intros Hall Hstop.
  - change ("" +:+ rest) with rest. destruct rest; simpl; now rewrite Hstop.
  - cbn [str_forall] in Hall. apply andb_true_iff in Hall as [Hd Hall].
    rewrite str_app_cons. simpl. rewrite (HQ d _ Hd), (IH Hall Hstop). reflexivity.
Qed.

(** The operations of the cursor, read on the unread bytes. *)
Section CursorOps.

Variables (b : string) (c st : nat) (r : Request) (n : N).

Let p := Private.mkParser b c st r n.

Lemma op_advance_while (cond : string -> bool) (Q : ascii -> bool) (pre rest : string) :
  str_drop c b = pre +:+ rest ->
  (forall d s, Q d = true -> cond (String d s) = true) ->
  str_forall Q pre = true -> cond rest = false ->
  Private.advance_while cond p
    = (Private.mkParser b (c + String.length pre) st r n, Private.Go tt).
Proof.
  intros Hu HQ Hall Hstop. unfold Private.advance_while. cbn [Private.cursor Private.buffer p].
  rewrite Hu, (scan_skip _ Q pre rest); [reflexivity | | exact Hall | now rewrite Hstop].
  intros d s Hd. now rewrite (HQ d s Hd).
Qed.

Lemma op_advance_or_again (k : nat) :
  k <= String.length (str_drop c b) ->
  Private.advance_or_again (N.of_nat k) p
    = (Private.mkParser b (c + k) st r n, Private.Go tt).
Proof.
  intros Hk. unfold Private.advance_or_again, Private.bind, Private.cursor_advance,
    StreamCursor.advance, StreamCursor.remaining.
  cbn [Private.cursor Private.buffer p]. rewrite str_length_drop in Hk.
  destruct (N.leb_spec (N.of_nat k) (N.of_nat (String.length b - c))); [|lia].
  now rewrite Nat2N.id.
Qed.

Lemma op_advance_short (k : nat) :
  String.length (str_drop c b) < k ->
  Private.advance_or_again (N.of_nat k) p = (p, Private.Suspend).
Proof.
  intros Hk. unfold Private.advance_or_again, Private.bind, Private.cursor_advance,
    StreamCursor.advance, StreamCursor.remaining.
  cbn [Private.cursor Private.buffer p]. rewrite str_length_drop in Hk.
  destruct (N.leb_spec (N.of_nat k) (N.of_nat (String.length b - c))); [lia | reflexivity].
Qed.

Lemma op_text_from (start : nat) (tok rest : string) :
  str_drop start b = tok +:+ rest -> c = start + String.length tok ->
  Private.text_from start p = (p, Private.Go tok).
Proof.
  intros Hs ->. unfold Private.text_from, StreamCursor.token_text.
  cbn [Private.cursor Private.buffer p].
  rewrite substring_take_drop, Hs. replace (start + String.length tok - start)
    with (String.length tok) by lia. now rewrite str_take_app.
Qed.

Lemma op_current :
  Private.cursor_current p
    = (p, Private.Go match str_drop c b with
                     | String d _ => Some d
                     | EmptyString => None
                     end).
Proof. unfold Private.cursor_current, StreamCursor.current. cbn. now rewrite get_drop. Qed.

Lemma op_eol : Private.cursor_eol p = (p, Private.Go (Private.at_eol (str_drop c b))).
Proof.
  unfold Private.cursor_eol, StreamCursor.eol, StreamCursor.current.
  cbn [Private.cursor Private.buffer p]. rewrite !get_drop.
  replace (S c) with (c + 1) by lia. rewrite str_drop_drop.
  destruct (str_drop c b) as [|d [|d' s]]; cbn; rewrite ?andb_false_r; reflexivity.
Qed.

Lemma op_eof :
  Private.cursor_eof p = (p, Private.Go (Nat.eqb (String.length (str_drop c b)) 0)).
Proof.
  unfold Private.cursor_eof, StreamCursor.eof, StreamCursor.remaining. cbn.
  now rewrite str_length_drop.
Qed.

End CursorOps.

Lemma bind_Go {A B} (m : Private.M A) (f : A -> Private.M B) p p' a :
  m p = (p', Private.Go a) -> Private.bind m f p = f a p'.
Proof. intros H. unfold Private.bind. now rewrite H. Qed.

Lemma drop_after (b : string) (c : nat) (pre rest : string) :
  str_drop c b = pre +:+ rest -> str_drop (c + String.length pre) b = rest.
Proof. intros H. now rewrite str_drop_drop, H, str_drop_app. Qed.

(** ** The headers step *)

Lemma header_field_ok (isRegistered : string -> bool) (b : string) (c st : nat)
    (r : Request) (n : N) (f : Field) (tail : string) :
  field_ok f = true ->
  str_drop c b = field_bytes f +:+ tail ->
  Private.header_field isRegistered (Private.mkParser b c st r n) =
    (Private.mkParser b (c + String.length (field_bytes f)) st
       (Private.set_headers (add_field isRegistered (headers_ r) f) r) n,
     Private.Go tt).
Proof.
  intros Hok Hu. destruct f as [name k value]. unfold field_ok in Hok.
  cbn [f_name f_pad f_value] in Hok.
  apply andb_true_iff in Hok as [Hok Hsp]. apply andb_true_iff in Hok as [Hname Hval].
  apply negb_true_iff in Hsp.
  unfold field_bytes in *. cbn [f_name f_pad f_value] in *.
  rewrite !str_app_assoc in Hu.
  pose proof (drop_after _ _ _ _ Hu) as H1.
  assert (H2 : str_drop (c + String.length name + 1) b
               = str_repeat SP k +:+ (value +:+ (CRLF +:+ tail))).
  { apply (drop_after _ _ ":" _ H1). }
  pose proof (drop_after _ _ _ _ H2) as H3. rewrite str_length_repeat in H3.
  pose proof (drop_after _ _ _ _ H3) as H4.
  unfold Private.header_field, Private.Revert.
  match goal with |- context [Private.bind ?m ?f ?p] => set (body := Private.bind m f) end.
  assert (Hbody : body (Private.mkParser b c st r n) =
    (Private.mkParser b (c + String.length name + 1 + k + String.length value + 2) st
       (Private.set_headers (add_field isRegistered (headers_ r) (mkField name k value)) r) n,
     Private.Go tt)).
  { subst body.
    erewrite bind_Go by reflexivity.
    erewrite bind_Go;
      [| eapply (op_advance_while _ _ _ _ _ _ (fun d => is_not ":" d && is_not CR d) name);
         [exact Hu | | exact Hname | reflexivity]].
    2:{ intros d s Hd. apply andb_true_iff in Hd as [Hd _]. exact Hd. }
    erewrite bind_Go;
      [| apply (op_advance_or_again _ _ _ _ _ 1); rewrite H1, str_length_app; cbn; lia].
    erewrite bind_Go by reflexivity. cbv zeta.
    cbn [Private.cursor Private.buffer].
    replace (c + String.length name + 1 - c - 1) with (String.length name) by lia.
    rewrite substring_take_drop, Hu, str_take_app.
    erewrite bind_Go;
      [| eapply (op_advance_while _ _ _ _ _ _ (fun d => byte_eqb d SP) (str_repeat SP k));
         [exact H2 | | | ]].
    2:{ intros d s Hd. exact Hd. }
    2:{ clear. induction k; [reflexivity | simpl; exact IHk]. }
    2:{ destruct value; [reflexivity | exact Hsp]. }
    rewrite str_length_repeat.
    erewrite bind_Go by reflexivity.
    erewrite bind_Go;
      [| eapply (op_advance_while _ _ _ _ _ _ (is_not CR) value);
         [exact H3 | | exact Hval | reflexivity]].
    2:{ intros d s Hd. unfold is_not in Hd. apply negb_true_iff in Hd.
        cbv beta. unfold Private.at_eol. destruct s; [reflexivity | now rewrite Hd]. }
    erewrite bind_Go; [| eapply op_text_from; [exact H3 | reflexivity]].
    erewrite bind_Go by reflexivity.
    unfold Private.set_request.
    cbn [Private.request Private.buffer Private.cursor Private.currentStep Private.bytesRead].
    change 2%N with (N.of_nat 2).
    rewrite (op_advance_or_again _ _ _ _ _ 2) by (rewrite H4, str_length_app; cbn; lia).
    unfold add_field. cbn [f_name f_value]. now destruct (isRegistered name). }
  rewrite Hbody. f_equal. f_equal. rewrite !str_length_app, str_length_repeat. cbn. lia.
Qed.

Lemma all_true {A} (f : A -> bool) (l : list A) :
  forallb f l = true -> Forall (fun x => f x = true) l.
Proof.
  induction l as [|x l IH]; cbn [forallb]; intros H; constructor;
    apply andb_true_iff in H as [Hx Hl]; [exact Hx | exact (IH Hl)].
Qed.

Lemma set_headers_twice (h h' : Header.Collection) (r : Request) :
  Private.set_headers h (Private.set_headers h' r) = Private.set_headers h r.
Proof. reflexivity. Qed.

Lemma at_eol_first (d : ascii) (s : string) :
  byte_eqb d CR = false -> Private.at_eol (String d s) = false.
Proof. intros H. unfold Private.at_eol. destruct s; now rewrite ?H. Qed.

Lemma field_not_eol (f : Field) (rest : string) :
  field_ok f = true -> Private.at_eol (field_bytes f +:+ rest) = false.
Proof.
  intros Hok. destruct f as [name k value]. unfold field_ok, field_bytes in *.
  cbn [f_name f_pad f_value] in *.
  apply andb_true_iff in Hok as [Hok _]. apply andb_true_iff in Hok as [Hname _].
  rewrite !str_app_assoc.
  destruct name as [|d name].
  - change ("" +:+ ?x) with x. change (":" +:+ ?x) with (String ":" x).
    now apply at_eol_first.
  - cbn [str_forall] in Hname. apply andb_true_iff in Hname as [Hd _].
    apply andb_true_iff in Hd as [_ Hd]. unfold is_not in Hd. apply negb_true_iff in Hd.
    rewrite str_app_cons. now apply at_eol_first.
Qed.

Lemma headers_loop_fields (isRegistered : string -> bool) (b : string) (st : nat) (n : N)
    (fs : list Field) (rest : string) :
  Forall (fun f => field_ok f = true) fs ->
  forall (c : nat) (r : Request) (fuel : nat),
  str_drop c b = fields_bytes fs +:+ rest ->
  length fs <= fuel ->
  exists fuel',
    fuel = length fs + fuel'
    /\ Private.headers_loop isRegistered fuel (Private.mkParser b c st r n)
       = Private.headers_loop isRegistered fuel'
           (Private.mkParser b (c + String.length (fields_bytes fs)) st
              (Private.set_headers (fold_left (add_field isRegistered) fs (headers_ r)) r) n).
Proof.
  induction 1 as [|f fs Hf Hfs IH]; intros c r fuel Hu Hfuel.
  - exists fuel. split; [reflexivity|]. cbn. rewrite Nat.add_0_r. now destruct r.
  - cbn [length] in Hfuel. destruct fuel as [|fuel]; [lia|].
    cbn [fields_bytes] in Hu. rewrite str_app_assoc in Hu.
    destruct (IH (c + String.length (field_bytes f))
                (Private.set_headers (add_field isRegistered (headers_ r) f) r)
                fuel (drop_after _ _ _ _ Hu) ltac:(lia)) as (fuel' & -> & Hloop).
    exists fuel'. split; [cbn; lia|].
    cbn [Private.headers_loop].
    erewrite bind_Go by apply op_eol.
    rewrite Hu, (field_not_eol f _ Hf). cbn [negb].
    erewrite bind_Go by (apply (header_field_ok _ _ _ _ _ _ _ _ Hf Hu)).
    rewrite Hloop. cbn [fields_bytes fold_left Private.set_headers headers_].
    rewrite str_length_app, Nat.add_assoc. reflexivity.
Qed.

Lemma headers_fields_then_blank (isRegistered : string -> bool) (b : string) (c st : nat)
    (r : Request) (n : N) (fs : list Field) (tail : string) (fuel : nat) :
  forallb field_ok fs = true ->
  str_drop c b = fields_bytes fs +:+ CRLF +:+ tail ->
  length fs <= fuel ->
  Private.HeadersStep_apply isRegistered fuel (Private.mkParser b c st r n) =
    (Private.mkParser b (c + String.length (fields_bytes fs)) st
       (Private.set_headers (fold_left (add_field isRegistered) fs (headers_ r)) r) n,
     Private.Go Private.Next).
Proof.
  intros Hfs Hu Hfuel. apply all_true in Hfs.
  destruct (headers_loop_fields isRegistered b st n fs (CRLF +:+ tail) Hfs c r fuel
              Hu Hfuel) as (fuel' & _ & Hloop).
  unfold Private.HeadersStep_apply, Private.as_state, Private.Revert.
  unfold Private.bind at 1. rewrite Hloop.
  assert (Hend : forall p, str_drop (Private.cursor p) (Private.buffer p) = CRLF +:+ tail ->
            Private.headers_loop isRegistered fuel' p = (p, Private.Go tt)).
  { intros [b0 c0 st0 r0 n0] H0. cbn [Private.cursor Private.buffer] in H0.
    destruct fuel'; cbn [Private.headers_loop];
      (erewrite bind_Go by apply op_eol); rewrite H0; reflexivity. }
  rewrite Hend; [reflexivity|]. cbn [Private.cursor Private.buffer].
  exact (drop_after _ _ _ _ Hu).
Qed.

(** X12.  [HeadersStep::apply] on well-formed fields followed by the blank
    line: the spaces after each colon are skipped, every field is added to
    the headers in the order read (as a typed header when its name is
    registered, as a raw one otherwise), the cursor stops on the blank
    line, and the step returns [Next]. *)
Theorem headers_step_parses (isRegistered : string -> bool) (b : string) (c st : nat)
    (r : Request) (n : N) (fs : list Field) (tail : string) (fuel : nat) :
  forallb field_ok fs = true ->
  str_drop c b = fields_bytes fs +:+ CRLF +:+ tail ->
  length fs <= fuel ->
  Private.HeadersStep_apply isRegistered fuel (Private.mkParser b c st r n) =
    (Private.mkParser b (c + String.length (fields_bytes fs)) st
       (Private.set_headers (fold_left (add_field isRegistered) fs (headers_ r)) r) n,
     Private.Go Private.Next).
Proof. apply headers_fields_then_blank.
Qed.

Lemma headers_step_parses_witness :
  Private.HeadersStep_apply content_length_only 2
    (Private.mkParser ("Host: x" +:+ CRLF +:+ "Content-Length:3" +:+ CRLF +:+ CRLF +:+ "abc")
       0 1 Request_new 0)
  = (Private.mkParser ("Host: x" +:+ CRLF +:+ "Content-Length:3" +:+ CRLF +:+ CRLF +:+ "abc")
       27 1
       (Private.set_headers
          [Header.Raw "Host" "x"; Header.mkHeader "Content-Length" true "3"] Request_new) 0,
     Private.Go Private.Next).
Proof.
  apply (headers_step_parses content_length_only
           ("Host: x" +:+ CRLF +:+ "Content-Length:3" +:+ CRLF +:+ CRLF +:+ "abc")
           0 1 Request_new 0 [mkField "Host" 1 "x"; mkField "Content-Length" 0 "3"] "abc" 2);
    [reflexivity | reflexivity | simpl; lia].
Defined.

(** X13.  [HeadersStep::apply] on well-formed fields after which the bytes
    end before the blank line: the step returns [Again] with the cursor
    back where the step began, and the fields read are in the headers all
    the same. *)
Theorem headers_step_suspends (isRegistered : string -> bool) (b : string) (c st : nat)
    (r : Request) (n : N) (fs : list Field) (fuel : nat) :
  forallb field_ok fs = true ->
  str_drop c b = fields_bytes fs ->
  length fs < fuel ->
  Private.HeadersStep_apply isRegistered fuel (Private.mkParser b c st r n) =
    (Private.mkParser b c st
       (Private.set_headers (fold_left (add_field isRegistered) fs (headers_ r)) r) n,
     Private.Go Private.Again).
Proof.
  intros Hfs Hu Hfuel. apply all_true in Hfs.
  rewrite <- (str_app_nil_r (fields_bytes fs)) in Hu.
  destruct (headers_loop_fields isRegistered b st n fs "" Hfs c r fuel
              Hu ltac:(lia)) as (fuel' & -> & Hloop).
  unfold Private.HeadersStep_apply, Private.as_state, Private.Revert.
  unfold Private.bind at 1. rewrite Hloop.
  destruct fuel' as [|fuel']; [lia|].
  pose proof (drop_after _ _ _ _ Hu) as Hend.
  cbn [Private.headers_loop].
  erewrite bind_Go by apply op_eol. rewrite Hend. cbn [Private.at_eol negb].
  unfold Private.bind at 1. unfold Private.header_field, Private.Revert.
  unfold Private.bind at 1. unfold Private.bind at 1. cbn [Private.position].
  unfold Private.advance_while at 1. cbn [Private.cursor Private.buffer].
  rewrite Hend. reflexivity.
Qed.

Lemma headers_step_suspends_witness :
  Private.HeadersStep_apply content_length_only 2
    (Private.mkParser ("Host: x" +:+ CRLF) 0 1 Request_new 0)
  = (Private.mkParser ("Host: x" +:+ CRLF) 0 1
       (Private.set_headers [Header.Raw "Host" "x"] Request_new) 0,
     Private.Go Private.Again).
Proof.
  apply (headers_step_suspends content_length_only ("Host: x" +:+ CRLF) 0 1 Request_new 0
           [mkField "Host" 1 "x"] 2);
    [reflexivity | reflexivity | simpl; lia].
Defined.

(** ** The body step *)

Lemma op_cursor_advance (b : string) (c st : nat) (r : Request) (n : N) (k : N) :
  Private.cursor_advance k (Private.mkParser b c st r n) =
    if (k <=? N.of_nat (String.length (str_drop c b)))%N
    then (Private.mkParser b (c + N.to_nat k) st r n, Private.Go true)
    else (Private.mkParser b c st r n, Private.Go false).
Proof.
  unfold Private.cursor_advance, StreamCursor.advance, StreamCursor.remaining.
  cbn [Private.cursor Private.buffer]. rewrite str_length_drop.
  now destruct (k <=? _)%N.
Qed.

(** A read of bytes that were fed. *)
Lemma read_whole (b : string) (off : nat) (s rest : string) :
  str_drop off b = s +:+ rest ->
  StreamCursor.read b off (String.length s) = Some s.
Proof.
  intros H. unfold StreamCursor.read.
  assert (Hs : substring off (String.length s) b = s)
    by (now rewrite substring_take_drop, H, str_take_app).
  rewrite Hs.
  destruct (Nat.eqb_spec (String.length s) 0) as [|Hn]; [reflexivity|]. cbn [orb].
  pose proof (str_length_drop off b) as Hl. rewrite H, str_length_app in Hl.
  destruct (Nat.leb_spec (off + String.length s) (String.length b)); [reflexivity | lia].
Qed.

(** A read that leaves the bytes fed. *)
Lemma read_past (b : string) (off n : nat) :
  0 < n -> String.length (str_drop off b) < n -> StreamCursor.read b off n = None.
Proof.
  intros Hn Hl. unfold StreamCursor.read. rewrite str_length_drop in Hl.
  destruct (Nat.eqb_spec n 0); [lia|]. cbn [orb].
  destruct (Nat.leb_spec (off + n) (String.length b)); [lia | reflexivity].
Qed.

(** [reserve] of a capacity the buffer already holds. *)
Lemma op_reserve_held (reserve_throws : N -> option Private.StdError)
    (b : string) (c st : nat) (r : Request) (n k : N) :
  (k <= N.of_nat (String.length b))%N ->
  Private.reserve_body reserve_throws k (Private.mkParser b c st r n)
    = (Private.mkParser b c st r n, Private.Go tt).
Proof.
  intros Hk. unfold Private.reserve_body. cbn [Private.buffer].
  apply N.leb_le in Hk. now rewrite Hk.
Qed.

Lemma body_whole (reserve_throws : N -> option Private.StdError)
    (b : string) (c st : nat) (r : Request)
    (cl : Header.Header) (body tail : string) :
  Header.tryGet Header.ContentLength_Name (headers_ r) = Some cl ->
  Header.ContentLength_value cl = N.of_nat (String.length body) ->
  str_drop c b = CRLF +:+ body +:+ tail ->
  Private.BodyStep_apply reserve_throws (Private.mkParser b c st r 0) =
    (Private.mkParser b (c + 2 + String.length body) st
       (Private.set_body (body_ r +:+ body) r) 0,
     Private.Go Private.Done).
Proof.
  intros Hcl Hval Hu.
  pose proof (drop_after _ _ CRLF _ Hu) as H2. cbn [String.length CRLF] in H2.
  pose proof (str_length_drop c b) as Hlen. rewrite Hu, !str_length_app in Hlen.
  unfold Private.BodyStep_apply, Private.as_state, Private.BodyStep_body.
  erewrite bind_Go by reflexivity. cbn [Private.request Private.bytesRead].
  rewrite Hcl. cbv zeta. rewrite Hval. cbn [N.ltb N.compare].
  unfold Private.bind at 1. unfold Private.bind at 1.
  change 2%N with (N.of_nat 2).
  rewrite op_advance_or_again by (rewrite Hu, str_length_app; cbn; lia).
  unfold Private.bind at 1. rewrite op_reserve_held by lia.
  unfold Private.bind at 1. cbn [Private.position Private.cursor].
  unfold Private.bind at 1. rewrite op_cursor_advance, H2, str_length_app.
  destruct (N.leb_spec (N.of_nat (String.length body))
              (N.of_nat (String.length body + String.length tail))); [|lia].
  cbn [negb]. unfold Private.bind at 1. unfold Private.cursor_read.
  cbn [Private.buffer]. rewrite Nat2N.id, (read_whole _ _ _ _ H2).
  reflexivity.
Qed.

(** X14.  [BodyStep::apply], entered with [bytesRead = 0] on a request with
    a Content-Length header, when the CRLF of the blank line and the whole
    body are in the buffer: the step moves over both, appends exactly the
    body to [body_], leaves [bytesRead] at 0 and returns [Done]; what
    follows the body is not read. *)
Theorem body_step_complete (reserve_throws : N -> option Private.StdError)
    (b : string) (c st : nat) (r : Request)
    (cl : Header.Header) (body tail : string) :
  Header.tryGet Header.ContentLength_Name (headers_ r) = Some cl ->
  Header.ContentLength_value cl = N.of_nat (String.length body) ->
  str_drop c b = CRLF +:+ body +:+ tail ->
  Private.BodyStep_apply reserve_throws (Private.mkParser b c st r 0) =
    (Private.mkParser b (c + 2 + String.length body) st
       (Private.set_body (body_ r +:+ body) r) 0,
     Private.Go Private.Done).
Proof. apply body_whole.
Qed.

Lemma body_step_complete_witness :
  Private.BodyStep_apply (fun _ => Some Private.bad_alloc)
    (Private.mkParser (CRLF +:+ "abcGET") 0 2
       (Private.set_headers [Header.mkHeader "Content-Length" true "3"] Request_new) 0)
  = (Private.mkParser (CRLF +:+ "abcGET") 5 2
       (Private.set_body "abc"
          (Private.set_headers [Header.mkHeader "Content-Length" true "3"] Request_new)) 0,
     Private.Go Private.Done).
Proof.
  apply (body_step_complete (fun _ => Some Private.bad_alloc) (CRLF +:+ "abcGET") 0 2
           (Private.set_headers [Header.mkHeader "Content-Length" true "3"] Request_new)
           (Header.mkHeader "Content-Length" true "3") "abc" "GET");
    [reflexivity | reflexivity | reflexivity].
Defined.

(** X15.  [BodyStep::apply], entered with [bytesRead = 0] when fewer bytes
    than Content-Length follow the CRLF.  The step first moves over the
    CRLF and calls [body_.reserve(contentLength)]: when that throws
    ([std::length_error] above [max_size()], [std::bad_alloc] when the
    storage is refused), the exception leaves the step with the cursor
    behind the CRLF (the step has no guard that would put it back), and
    the body and [bytesRead] as they were.  When it does not throw, the
    step appends the bytes that are there, counts them in [bytesRead],
    leaves the cursor at the end of them and returns [Again]. *)
Theorem body_step_partial (reserve_throws : N -> option Private.StdError)
    (b : string) (c st : nat) (r : Request)
    (cl : Header.Header) (part : string) :
  Header.tryGet Header.ContentLength_Name (headers_ r) = Some cl ->
  (N.of_nat (String.length part) < Header.ContentLength_value cl)%N ->
  str_drop c b = CRLF +:+ part ->
  Private.BodyStep_apply reserve_throws (Private.mkParser b c st r 0) =
    match
      (if (Header.ContentLength_value cl <=? N.of_nat (String.length b))%N then None
       else reserve_throws (Header.ContentLength_value cl))
    with
    | Some e => (Private.mkParser b (c + 2) st r 0, Private.Escapes e)
    | None =>
        (Private.mkParser b (c + 2 + String.length part) st
           (Private.set_body (body_ r +:+ part) r)
           (Private.size_add 0 (N.of_nat (String.length part))),
         Private.Go Private.Again)
    end.
Proof.
  intros Hcl Hlt Hu.
  pose proof (drop_after _ _ CRLF _ Hu) as H2. cbn [String.length CRLF] in H2.
  unfold Private.BodyStep_apply, Private.as_state, Private.BodyStep_body.
  erewrite bind_Go by reflexivity. cbn [Private.request Private.bytesRead].
  rewrite Hcl. cbv zeta. cbn [N.ltb N.compare].
  unfold Private.bind at 1. unfold Private.bind at 1.
  change 2%N with (N.of_nat 2).
  rewrite op_advance_or_again by (rewrite Hu, str_length_app; cbn; lia).
  unfold Private.bind at 1. unfold Private.reserve_body. cbn [Private.buffer].
  assert (Hread : StreamCursor.read b (c + 2) (String.length part) = Some part).
  { rewrite <- (str_app_nil_r part) in H2. exact (read_whole _ _ _ _ H2). }
  destruct (Header.ContentLength_value cl <=? N.of_nat (String.length b))%N;
    [|destruct (reserve_throws (Header.ContentLength_value cl)); [reflexivity|]].
  all: unfold Private.bind at 1; cbn [Private.position Private.cursor];
       unfold Private.bind at 1; rewrite op_cursor_advance, H2;
       (destruct (N.leb_spec (Header.ContentLength_value cl)
                    (N.of_nat (String.length part))); [lia|]);
       cbn [negb]; unfold Private.read_available;
       unfold Private.bind at 1;
       unfold Private.cursor_remaining, StreamCursor.remaining;
       cbn [Private.buffer Private.cursor]; rewrite <- str_length_drop, H2;
       unfold Private.bind at 1; unfold Private.cursor_read; cbn [Private.buffer];
       rewrite Hread;
       unfold Private.append_body, Private.modify_request, Private.modify, Private.bind;
       unfold Private.set_bytesRead, Private.set_request;
       cbn [Private.buffer Private.cursor Private.currentStep Private.request
            Private.bytesRead];
       rewrite op_cursor_advance, H2, N.leb_refl, Nat2N.id; reflexivity.
Qed.

Lemma body_step_partial_witness :
  Private.BodyStep_apply
    (fun n => if (4611686018427387903 <? n)%N then Some Private.length_error else None)
    (Private.mkParser (CRLF +:+ "ab") 0 2
       (Private.set_headers [Header.mkHeader "Content-Length" true "5"] Request_new) 0)
  = (Private.mkParser (CRLF +:+ "ab") 4 2
       (Private.set_body "ab"
          (Private.set_headers [Header.mkHeader "Content-Length" true "5"] Request_new)) 2,
     Private.Go Private.Again)
  /\ Private.BodyStep_apply
       (fun n => if (4611686018427387903 <? n)%N then Some Private.length_error else None)
       (Private.mkParser (CRLF +:+ "ab") 0 2
          (Private.set_headers
             [Header.mkHeader "Content-Length" true "9223372036854775808"] Request_new) 0)
     = (Private.mkParser (CRLF +:+ "ab") 2 2
          (Private.set_headers
             [Header.mkHeader "Content-Length" true "9223372036854775808"] Request_new) 0,
        Private.Escapes Private.length_error).
Proof.
  split.
  - apply (body_step_partial
             (fun n => if (4611686018427387903 <? n)%N then Some Private.length_error
                       else None)
             (CRLF +:+ "ab") 0 2
             (Private.set_headers [Header.mkHeader "Content-Length" true "5"] Request_new)
             (Header.mkHeader "Content-Length" true "5") "ab");
      [reflexivity | vm_compute; reflexivity | reflexivity].
  - apply (body_step_partial
             (fun n => if (4611686018427387903 <? n)%N then Some Private.length_error
                       else None)
             (CRLF +:+ "ab") 0 2
             (Private.set_headers
                [Header.mkHeader "Content-Length" true "9223372036854775808"] Request_new)
             (Header.mkHeader "Content-Length" true "9223372036854775808") "ab");
      [reflexivity | vm_compute; reflexivity | reflexivity].
Defined.

(** ** The request-line step *)

Lemma op_match_until (b : string) (c st : nat) (r : Request) (n : N)
    (chars : list ascii) (Q : ascii -> bool) (pre rest : string) :
  str_drop c b = pre +:+ rest ->
  (forall d, Q d = true -> existsb (fun x => byte_eqb d x) chars = false) ->
  str_forall Q pre = true ->
  existsb (fun x => Private.first_is x rest) chars = true ->
  Private.match_until chars (Private.mkParser b c st r n)
    = (Private.mkParser b (c + String.length pre) st r n, Private.Go true).
Proof.
  intros Hu HQ Hall Hstop. unfold Private.match_until.
  cbn [Private.cursor Private.buffer].
  rewrite Hu, (scan_skip _ Q pre rest); [reflexivity | | exact Hall | exact Hstop].
  intros d s Hd. exact (HQ d Hd).
Qed.

Lemma match_method_spec (ms : list (string * Method)) (b : string) (c st : nat)
    (r : Request) (n : N) :
  Private.match_method ms (Private.mkParser b c st r n) =
    match List.find (fun lm => String.eqb (str_take (String.length lm.1) (str_drop c b)) lm.1) ms with
    | Some (lit, m) =>
        (Private.mkParser b (c + String.length lit) st (Private.set_method m r) n,
         Private.Go true)
    | None => (Private.mkParser b c st r n, Private.Go false)
    end.
Proof.
  induction ms as [|[lit m] ms IH]; [reflexivity|].
  cbn [Private.match_method List.find fst]. unfold Private.bind at 1.
  unfold Private.match_raw, StreamCursor.matches. cbn [Private.cursor Private.buffer].
  rewrite substring_take_drop.
  destruct (String.eqb _ lit); [reflexivity | exact IH].
Qed.

Lemma find_method_literal (lit : string) (m : Method) (rest : string) :
  In (lit, m) Private.Methods -> find_method (lit +:+ rest) = Some (lit, m).
Proof.
  intros H. unfold Private.Methods in H. cbn [In] in H.
  repeat (destruct H as [H|H]; [injection H as <- <-; vm_compute; reflexivity|]).
  contradiction.
Qed.

Lemma first_char_app (Q : ascii -> bool) (x : ascii) (s rest : string) (d : ascii) :
  str_forall Q s = true -> Q d = true ->
  (forall a, Q a = true -> byte_eqb a x = false) ->
  Private.first_is x (s +:+ String d rest) = false.
Proof.
  intros Hs Hd HQ. destruct s as [|a s].
  - cbn. now apply HQ.
  - rewrite str_app_cons. cbn in *. apply andb_true_iff in Hs as [Ha _]. now apply HQ.
Qed.

Lemma query_loop_pairs (b : string) (st : nat) (n : N) (ps : list (string * string))
    (rest : string) :
  Forall (fun kv => pair_ok kv = true) ps ->
  forall (c : nat) (r : Request) (fuel : nat),
  str_drop c b = query_bytes ps +:+ String SP rest ->
  length ps <= fuel ->
  Private.query_loop fuel (Private.mkParser b c st r n) =
    (Private.mkParser b (c + String.length (query_bytes ps)) st
       (Private.set_query (Query_adds ps (query_ r)) r) n,
     Private.Go tt).
Proof.
  induction 1 as [|[k v] ps Hkv Hps IH]; intros c r fuel Hu Hfuel.
  - cbn [query_bytes] in *. change ("" +:+ ?x) with x in Hu.
    destruct fuel; cbn [Private.query_loop]; (erewrite bind_Go by apply op_current);
      rewrite Hu; cbn; rewrite Nat.add_0_r; now destruct r.
  - cbn [length] in Hfuel. destruct fuel as [|fuel]; [lia|].
    unfold pair_ok in Hkv. cbn [fst snd] in Hkv.
    apply andb_true_iff in Hkv as [Hk Hv].
    cbn [query_bytes] in Hu. rewrite !str_app_assoc in Hu.
    change ("=" +:+ ?x) with (String "=" x) in Hu.
    pose proof (drop_after _ _ _ _ Hu) as H1.
    assert (H2 : str_drop (c + String.length k + 1) b
                 = v +:+ (match ps with [] => "" | _ :: _ => "&" +:+ query_bytes ps end
                          +:+ String SP rest)).
    { apply (drop_after _ _ (String "=" "") _ H1). }
    pose proof (drop_after _ _ _ _ H2) as H3.
    cbn [Private.query_loop].
    erewrite bind_Go by apply op_current. rewrite Hu.
    assert (Hnsp : cur_is SP match k +:+ String "=" (v +:+ match ps with
                                                          | [] => ""
                                                          | _ :: _ => "&" +:+ query_bytes ps
                                                          end +:+ String SP rest) with
                             | String d _ => Some d
                             | EmptyString => None
                             end = false).
    { destruct k as [|a k]; [reflexivity|]. rewrite str_app_cons. cbn in *.
      apply andb_true_iff in Hk as [Ha _]. apply andb_true_iff in Ha as [_ Ha].
      unfold is_not in Ha. now apply negb_true_iff in Ha. }
    rewrite Hnsp. cbn [negb].
    erewrite bind_Go by reflexivity.
    erewrite bind_Go;
      [| eapply (op_match_until _ _ _ _ _ _ (fun d => is_not "=" d && is_not SP d) k);
         [exact Hu | | exact Hk | reflexivity]].
    2:{ intros d Hd. apply andb_true_iff in Hd as [Hd _]. unfold is_not in Hd.
        apply negb_true_iff in Hd. cbn. now rewrite Hd. }
    cbn [negb]. erewrite bind_Go by reflexivity.
    erewrite bind_Go; [| eapply op_text_from; [exact Hu | reflexivity]].
    erewrite bind_Go;
      [| apply (op_advance_or_again _ _ _ _ _ 1); rewrite H1; cbn; lia].
    erewrite bind_Go by reflexivity.
    erewrite bind_Go;
      [| eapply (op_match_until _ _ _ _ _ _ (fun d => is_not SP d && is_not "&" d) v);
         [exact H2 | | exact Hv | ]].
    2:{ intros d Hd. apply andb_true_iff in Hd as [Hd1 Hd2]. unfold is_not in *.
        apply negb_true_iff in Hd1, Hd2. cbn. now rewrite Hd1, Hd2. }
    2:{ destruct ps; reflexivity. }
    cbn [negb]. erewrite bind_Go by reflexivity.
    erewrite bind_Go; [| eapply op_text_from; [exact H2 | reflexivity]].
    erewrite bind_Go by reflexivity.
    unfold Private.set_request.
    cbn [Private.request Private.buffer Private.cursor Private.currentStep Private.bytesRead].
    erewrite bind_Go by apply op_current. rewrite H3.
    destruct ps as [|kv' ps'].
    + change ("" +:+ ?x) with x. cbn [cur_is byte_eqb Ascii.eqb].
      change (cur_is "&" (Some SP)) with false. cbv iota.
      erewrite bind_Go by reflexivity.
      change ("" +:+ ?x) with x in H3.
      destruct fuel; cbn [Private.query_loop]; (erewrite bind_Go by apply op_current);
        rewrite H3; cbn -[Nat.add]; rewrite str_app_nil_r, !str_length_app;
        unfold Private.ret; f_equal; f_equal; cbn [String.length]; lia.
    + change (("&" +:+ ?x) +:+ ?y) with (String "&" (x +:+ y)) in *.
      change (cur_is "&" (Some "&"%char)) with true. cbv iota.
      erewrite bind_Go;
        [| apply (op_advance_or_again _ _ _ _ _ 1); rewrite H3; cbn; lia].
      rewrite (IH _ _ fuel (drop_after _ _ (String "&" "") _ H3) ltac:(cbn in *; lia)).
      cbn [Query_adds fold_left fst snd Private.set_query query_ ].
      f_equal. f_equal.
      change (query_bytes ((k, v) :: kv' :: ps'))
        with (k +:+ "=" +:+ v +:+ "&" +:+ query_bytes (kv' :: ps')).
      rewrite !str_length_app. cbn [String.length]. lia.
Qed.

Lemma version_of_literal (v : Version) (p : Private.Parser) :
  Private.version_of (version_token v) (String.length (version_token v)) p =
    (Private.set_request (Private.set_version v (Private.request p)) p, Private.Go tt).
Proof. destruct v; reflexivity. Qed.

Lemma version_token_no_cr (v : Version) : str_forall (is_not CR) (version_token v) = true.
Proof. destruct v; reflexivity. Qed.

Lemma request_line_whole (fuel : nat) (b : string) (c st : nat) (r : Request) (n : N)
    (lit : string) (m : Method) (path : string) (q : option (list (string * string)))
    (v : Version) (tail : string) :
  In (lit, m) Private.Methods ->
  path_ok path = true ->
  query_ok fuel q ->
  str_drop c b = request_line_bytes lit path q v +:+ tail ->
  Private.RequestLineStep_apply fuel (Private.mkParser b c st r n) =
    (Private.mkParser b (c + String.length (request_line_bytes lit path q v)) st
       (mkRequest (Some m) v path (query_after q (query_ r)) (headers_ r) (body_ r)) n,
     Private.Go Private.Next).
Proof.
  intros Hm Hpath Hq Hu.
  set (qs := match q with None => "" | Some ps => "?" +:+ query_bytes ps end).
  assert (Hline : request_line_bytes lit path q v
                  = lit +:+ String SP (path +:+ qs +:+ String SP (version_token v +:+ CRLF))).
  { unfold request_line_bytes, target_bytes. fold qs. now rewrite !str_app_assoc. }
  rewrite Hline in *. clear Hline. rewrite !str_app_assoc in Hu.
  change ((String SP ?x) +:+ ?y) with (String SP (x +:+ y)) in Hu.
  rewrite !str_app_assoc in Hu.
  change ((String SP ?x) +:+ ?y) with (String SP (x +:+ y)) in Hu.
  rewrite !str_app_assoc in Hu.
  pose proof (drop_after _ _ _ _ Hu) as H1.
  assert (H2 : str_drop (c + String.length lit + 1) b
               = path +:+ (qs +:+ String SP (version_token v +:+ (CRLF +:+ tail)))).
  { apply (drop_after _ _ (String SP "") _ H1). }
  pose proof (drop_after _ _ _ _ H2) as H3.
  pose proof (drop_after _ _ _ _ H3) as H4.
  assert (H5 : str_drop (c + String.length lit + 1 + String.length path
                         + String.length qs + 1) b
               = version_token v +:+ (CRLF +:+ tail)).
  { apply (drop_after _ _ (String SP "") _ H4). }
  pose proof (drop_after _ _ _ _ H5) as H6.
  unfold Private.RequestLineStep_apply, Private.as_state, Private.Revert.
  match goal with |- context [Private.RequestLineStep_body ?f ?p] =>
    assert (Hbody : Private.RequestLineStep_body f p =
      (Private.mkParser b (c + String.length lit + 1 + String.length path
                           + String.length qs + 1 + String.length (version_token v) + 2) st
         (mkRequest (Some m) v path (query_after q (query_ r)) (headers_ r) (body_ r)) n,
       Private.Go Private.Next))
  end.
  { unfold Private.RequestLineStep_body.
    erewrite bind_Go;
      [| rewrite match_method_spec; fold (find_method (str_drop c b));
         rewrite Hu, (find_method_literal _ _ _ Hm); reflexivity].
    cbn [negb]. erewrite bind_Go by reflexivity.
    erewrite bind_Go by apply op_eof. rewrite H1. cbn [String.length Nat.eqb].
    erewrite bind_Go; [| erewrite bind_Go by apply op_current; rewrite H1; reflexivity].
    erewrite bind_Go;
      [| apply (op_advance_or_again _ _ _ _ _ 1); rewrite H1; cbn; lia].
    erewrite bind_Go by reflexivity.
    erewrite bind_Go;
      [| eapply (op_advance_while _ _ _ _ _ _ (fun d => is_not "?" d && is_not SP d) path);
         [exact H2 | | exact Hpath | ]].
    2:{ intros d s Hd. apply andb_true_iff in Hd as [Hd1 Hd2]. unfold is_not in *.
        cbn. now rewrite Hd1, Hd2. }
    2:{ subst qs. destruct q; reflexivity. }
    erewrite bind_Go by apply op_current. rewrite H3.
    erewrite bind_Go; [| eapply op_text_from; [exact H2 | reflexivity]].
    erewrite bind_Go by reflexivity.
    unfold Private.set_request.
    cbn [Private.request Private.buffer Private.cursor Private.currentStep Private.bytesRead].
    erewrite bind_Go.
    2:{ instantiate (1 := tt).
        instantiate (1 := Private.mkParser b
              (c + String.length lit + 1 + String.length path + String.length qs) st
              (Private.set_query (query_after q (query_ r))
                 (Private.set_resource path (Private.set_method m r))) n).
        subst qs. destruct q as [ps|].
        - destruct Hq as [Hps Hlen]. apply all_true in Hps.
          change (("?" +:+ ?x) +:+ ?y) with (String "?" (x +:+ y)) in *.
          match goal with |- context [cur_is ?a ?o] => change (cur_is a o) with true end.
          cbv iota.
          erewrite bind_Go;
            [| apply (op_advance_or_again _ _ _ _ _ 1); rewrite H3; cbn; lia].
          rewrite (query_loop_pairs b st n ps _ Hps _ _ fuel
                     (drop_after _ _ (String "?" "") _ H3) Hlen).
          cbn [query_after Private.set_query Private.set_resource Private.set_method
               query_ method_ version_ resource_ headers_ body_].
          f_equal. f_equal. change ("?" +:+ ?x) with (String "?" x).
          cbn [String.length]. lia.
        - change ("" +:+ ?x) with x in *.
          match goal with |- context [cur_is ?a ?o] => change (cur_is a o) with false end.
          cbv iota.
          cbn [query_after String.length]. unfold Private.ret. rewrite Nat.add_0_r.
          now destruct r. }
    erewrite bind_Go;
      [| apply (op_advance_or_again _ _ _ _ _ 1); rewrite H4; cbn; lia].
    erewrite bind_Go by reflexivity.
    erewrite bind_Go;
      [| eapply (op_advance_while _ _ _ _ _ _ (is_not CR) (version_token v));
         [exact H5 | | apply version_token_no_cr | reflexivity]].
    2:{ intros d s Hd. unfold is_not in Hd. apply negb_true_iff in Hd.
        cbv beta. now rewrite at_eol_first. }
    erewrite bind_Go; [| eapply op_text_from; [exact H5 | reflexivity]].
    erewrite bind_Go by apply version_of_literal.
    unfold Private.set_request.
    cbn [Private.request Private.buffer Private.cursor Private.currentStep Private.bytesRead].
    erewrite bind_Go;
      [| change 2%N with (N.of_nat 2); apply op_advance_or_again; rewrite H6;
         rewrite str_length_app; cbn; lia].
    reflexivity. }
  rewrite Hbody. f_equal. f_equal.
  rewrite !str_length_app. cbn [String.length]. rewrite !str_length_app.
  cbn [String.length]. rewrite !str_length_app. cbn [String.length CRLF]. lia.
Qed.

(** X16.  [RequestLineStep::apply] on a whole request line: for every
    method of the table, every path without space and [?], every list of
    [key=value] pairs (optional, joined by [&]) and both versions, the step
    sets the method, the resource, the version, adds each pair to the
    query in order, leaves the headers and the body alone, moves the
    cursor past the CRLF and returns [Next]. *)
Theorem request_line_parses (fuel : nat) (b : string) (c st : nat) (r : Request) (n : N)
    (lit : string) (m : Method) (path : string) (q : option (list (string * string)))
    (v : Version) (tail : string) :
  In (lit, m) Private.Methods ->
  path_ok path = true ->
  query_ok fuel q ->
  str_drop c b = request_line_bytes lit path q v +:+ tail ->
  Private.RequestLineStep_apply fuel (Private.mkParser b c st r n) =
    (Private.mkParser b (c + String.length (request_line_bytes lit path q v)) st
       (mkRequest (Some m) v path (query_after q (query_ r)) (headers_ r) (body_ r)) n,
     Private.Go Private.Next).
Proof. apply request_line_whole.
Qed.

Lemma request_line_parses_witness :
  Private.RequestLineStep_apply 2 (holding ("GET /a?x=1&y=2 HTTP/1.0" +:+ CRLF +:+ "Host"))
  = (Private.mkParser ("GET /a?x=1&y=2 HTTP/1.0" +:+ CRLF +:+ "Host") 25 0
       (mkRequest (Some Get) Http10 "/a"
          (Uri.Query_add "y" "2" (Uri.Query_add "x" "1" Uri.Query_new)) [] "") 0,
     Private.Go Private.Next).
Proof.
  apply (request_line_parses 2 ("GET /a?x=1&y=2 HTTP/1.0" +:+ CRLF +:+ "Host") 0 0
           Request_new 0 "GET" Get "/a" (Some [("x", "1"); ("y", "2")]) Http10 "Host");
    [right; left; reflexivity | reflexivity | split; [reflexivity | simpl; lia]
    | reflexivity].
Defined.

(** ** Malformed and partial input, and whole requests *)

(** X17.  [RequestLineStep::apply] when no method literal is at the cursor:
    the step throws 400 "Unknown HTTP request method" and leaves the parser
    as it was.  This is also what it does when no byte is left to read: it
    does not return [Again]. *)
Theorem request_line_unknown_method (fuel : nat) (b : string) (c st : nat) (r : Request) (n : N) :
  (find_method (str_drop c b) = None ->
     Private.RequestLineStep_apply fuel (Private.mkParser b c st r n) =
       (Private.mkParser b c st r n,
        Private.Throw (mkHttpError Bad_Request "Unknown HTTP request method")))
  /\ (String.length b <= c ->
        Private.RequestLineStep_apply fuel (Private.mkParser b c st r n) =
          (Private.mkParser b c st r n,
           Private.Throw (mkHttpError Bad_Request "Unknown HTTP request method"))).
Proof.
  assert (Hthrow : find_method (str_drop c b) = None ->
     Private.RequestLineStep_apply fuel (Private.mkParser b c st r n) =
       (Private.mkParser b c st r n,
        Private.Throw (mkHttpError Bad_Request "Unknown HTTP request method"))).
  { intros Hf. unfold Private.RequestLineStep_apply, Private.as_state, Private.Revert,
      Private.RequestLineStep_body.
    unfold Private.bind at 1. rewrite match_method_spec. fold (find_method (str_drop c b)).
    rewrite Hf. reflexivity. }
  split; [exact Hthrow|].
  intros Hc. apply Hthrow. assert (H : str_drop c b = "").
  { pose proof (str_length_drop c b) as Hl. destruct (str_drop c b); [reflexivity|].
    cbn in Hl. lia. }
  now rewrite H.
Qed.

Lemma request_line_unknown_method_witness :
  Private.RequestLineStep_apply 8 (holding "G")
  = (holding "G", Private.Throw (mkHttpError Bad_Request "Unknown HTTP request method"))
  /\ Private.RequestLineStep_apply 8 (holding "")
     = (holding "", Private.Throw (mkHttpError Bad_Request "Unknown HTTP request method")).
Proof.
  split.
  - apply (proj1 (request_line_unknown_method 8 "G" 0 0 Request_new 0)). reflexivity.
  - apply (proj2 (request_line_unknown_method 8 "" 0 0 Request_new 0)). simpl. lia.
Defined.

(** X18.  [RequestLineStep::apply] after a method literal: a byte other than
    a space throws 400 "Malformed HTTP request after Method, expected SP",
    and the end of the bytes returns [Again]; both with the cursor back at
    the start of the line and the method already set on the request. *)
Theorem request_line_expects_space (fuel : nat) (b : string) (c st : nat) (r : Request)
    (n : N) (lit : string) (m : Method) :
  In (lit, m) Private.Methods ->
  (forall d rest, str_drop c b = lit +:+ String d rest -> byte_eqb d SP = false ->
     Private.RequestLineStep_apply fuel (Private.mkParser b c st r n) =
       (Private.mkParser b c st (Private.set_method m r) n,
        Private.Throw (mkHttpError Bad_Request
                         "Malformed HTTP request after Method, expected SP")))
  /\ (str_drop c b = lit ->
        Private.RequestLineStep_apply fuel (Private.mkParser b c st r n) =
          (Private.mkParser b c st (Private.set_method m r) n, Private.Go Private.Again)).
Proof.
  intros Hm.
  assert (Hstart : forall rest, str_drop c b = lit +:+ rest ->
    Private.match_method Private.Methods (Private.mkParser b c st r n) =
      (Private.mkParser b (c + String.length lit) st (Private.set_method m r) n,
       Private.Go true)).
  { intros rest Hu. rewrite match_method_spec. fold (find_method (str_drop c b)).
    now rewrite Hu, (find_method_literal _ _ _ Hm). }
  split.
  - intros d rest Hu Hd. pose proof (drop_after _ _ _ _ Hu) as H1.
    unfold Private.RequestLineStep_apply, Private.as_state, Private.Revert,
      Private.RequestLineStep_body.
    erewrite bind_Go by (apply (Hstart _ Hu)). cbn [negb].
    erewrite bind_Go by reflexivity.
    erewrite bind_Go by apply op_eof. rewrite H1. cbn [String.length Nat.eqb].
    unfold Private.bind at 1. unfold Private.bind at 1. rewrite op_current, H1.
    cbn [cur_is]. rewrite Hd. reflexivity.
  - intros Hu. rewrite <- (str_app_nil_r lit) in Hu.
    pose proof (drop_after _ _ _ _ Hu) as H1.
    unfold Private.RequestLineStep_apply, Private.as_state, Private.Revert,
      Private.RequestLineStep_body.
    erewrite bind_Go by (apply (Hstart _ Hu)). cbn [negb].
    erewrite bind_Go by reflexivity.
    erewrite bind_Go by apply op_eof. rewrite H1. reflexivity.
Qed.

Lemma request_line_expects_space_witness :
  Private.RequestLineStep_apply 8 (holding "GETX / HTTP/1.1")
  = (Private.mkParser "GETX / HTTP/1.1" 0 0 (Private.set_method Get Request_new) 0,
     Private.Throw (mkHttpError Bad_Request
                      "Malformed HTTP request after Method, expected SP"))
  /\ Private.RequestLineStep_apply 8 (holding "GET")
     = (Private.mkParser "GET" 0 0 (Private.set_method Get Request_new) 0,
        Private.Go Private.Again).
Proof.
  pose proof (request_line_expects_space 8 "GETX / HTTP/1.1" 0 0 Request_new 0 "GET" Get
                ltac:(right; left; reflexivity)) as [H1 _].
  pose proof (request_line_expects_space 8 "GET" 0 0 Request_new 0 "GET" Get
                ltac:(right; left; reflexivity)) as [_ H2].
  split.
  - apply (H1 "X"%char " / HTTP/1.1"); reflexivity.
  - apply H2. reflexivity.
Defined.

Lemma str_take_drop_id (n : nat) (s : string) : str_take n s +:+ str_drop n s = s.
Proof.
  revert s. induction n as [|n IH]; intros [|d s]; try reflexivity.
  cbn [str_take str_drop]. rewrite str_app_cons. now rewrite IH.
Qed.

Lemma str_take_full (n : nat) (s : string) :
  n <= String.length s -> String.length (str_take n s) = n.
Proof.
  revert s. induction n as [|n IH]; intros [|d s] H; cbn in *; try reflexivity; try lia.
  rewrite IH; [reflexivity | lia].
Qed.

(** X19.  [BodyStep::apply], entered again with [bytesRead = k > 0] when the
    [Content-Length - k] bytes still missing are in the buffer: the step
    moves the cursor over them and then reads as many bytes at the
    cursor's new position.  When that many bytes follow the missing ones
    in the buffer, it is these it appends to the body, not the missing
    ones, and it resets [bytesRead] and returns [Done].  When fewer
    follow, the read goes past the bytes fed: nothing determines what is
    appended. *)
Theorem body_step_resume (reserve_throws : N -> option Private.StdError)
    (b : string) (c st : nat) (r : Request) (k : N)
    (cl : Header.Header) (more tail : string) :
  Header.tryGet Header.ContentLength_Name (headers_ r) = Some cl ->
  (0 < k)%N ->
  Private.size_sub (Header.ContentLength_value cl) k = N.of_nat (String.length more) ->
  str_drop c b = more +:+ tail ->
  Private.BodyStep_apply reserve_throws (Private.mkParser b c st r k) =
    if (String.length more <=? String.length tail)%nat
    then (Private.mkParser b (c + String.length more) st
            (Private.set_body (body_ r +:+ str_take (String.length more) tail) r) 0,
          Private.Go Private.Done)
    else (Private.mkParser b (c + String.length more) st r k, Private.Overrun).
Proof.
  intros Hcl Hk Hrem Hu. pose proof (drop_after _ _ _ _ Hu) as H1.
  unfold Private.BodyStep_apply, Private.as_state, Private.BodyStep_body.
  erewrite bind_Go by reflexivity. cbn [Private.request Private.bytesRead].
  rewrite Hcl. cbv zeta. apply N.ltb_lt in Hk. rewrite Hk, Hrem.
  unfold Private.bind at 1. unfold Private.bind at 1.
  cbn [Private.position Private.cursor].
  unfold Private.bind at 1. rewrite op_cursor_advance, Hu, str_length_app.
  destruct (N.leb_spec (N.of_nat (String.length more))
              (N.of_nat (String.length more + String.length tail))); [|lia].
  cbn [negb]. unfold Private.bind at 1. cbn [Private.position Private.cursor].
  unfold Private.bind at 1. unfold Private.cursor_read.
  cbn [Private.buffer]. rewrite !Nat2N.id.
  destruct (Nat.leb_spec (String.length more) (String.length tail)) as [Hle|Hgt].
  - rewrite <- (str_take_drop_id (String.length more) tail) in H1 at 1.
    pose proof (read_whole _ _ _ _ H1) as Hr.
    rewrite (str_take_full _ _ Hle) in Hr. rewrite Hr. reflexivity.
  - rewrite read_past by (rewrite ?H1; lia). reflexivity.
Qed.

Lemma body_step_resume_witness :
  Private.BodyStep_apply (fun _ => None)
    (Private.mkParser "cdeGET /" 0 2
       (Private.set_headers [Header.mkHeader "Content-Length" true "5"] Request_new) 2)
  = (Private.mkParser "cdeGET /" 3 2
       (Private.set_body "GET"
          (Private.set_headers [Header.mkHeader "Content-Length" true "5"] Request_new)) 0,
     Private.Go Private.Done)
  /\ Private.BodyStep_apply (fun _ => None)
       (Private.mkParser "cde" 0 2
          (Private.set_headers [Header.mkHeader "Content-Length" true "5"] Request_new) 2)
     = (Private.mkParser "cde" 3 2
          (Private.set_headers [Header.mkHeader "Content-Length" true "5"] Request_new) 2,
        Private.Overrun).
Proof.
  split.
  - apply (body_step_resume (fun _ => None) "cdeGET /" 0 2
             (Private.set_headers [Header.mkHeader "Content-Length" true "5"] Request_new)
             2 (Header.mkHeader "Content-Length" true "5") "cde" "GET /");
      [reflexivity | reflexivity | vm_compute; reflexivity | reflexivity].
  - apply (body_step_resume (fun _ => None) "cde" 0 2
             (Private.set_headers [Header.mkHeader "Content-Length" true "5"] Request_new)
             2 (Header.mkHeader "Content-Length" true "5") "cde" "");
      [reflexivity | reflexivity | vm_compute; reflexivity | reflexivity].
Defined.

Lemma fields_count (fs : list Field) : length fs <= String.length (fields_bytes fs).
Proof.
  induction fs as [|f fs IH]; [cbn; lia|]. cbn [length fields_bytes].
  rewrite str_length_app. unfold field_bytes. rewrite !str_length_app. cbn [String.length]. lia.
Qed.

Lemma pairs_count (ps : list (string * string)) : length ps <= String.length (query_bytes ps).
Proof.
  induction ps as [|[k v] ps IH]; [cbn; lia|].
  cbn [length query_bytes]. rewrite !str_length_app. cbn [String.length].
  destruct ps as [|kv ps]; [cbn; lia|].
  rewrite str_length_app. cbn [String.length length] in *. lia.
Qed.

Lemma str_length_le_drop (c : nat) (b s : string) :
  str_drop c b = s -> String.length s <= String.length b.
Proof. intros <-. rewrite str_length_drop. lia. Qed.

(** X20.  [Parser::parse] on a parser at its first step whose unread bytes
    are a whole request (request line, well-formed fields, blank line, and
    a body of the length the Content-Length header gives, or no body when
    there is no such header): one call runs the three steps and returns
    [Done]; the request holds the method, version, path, query pairs,
    headers and body of the bytes; [currentStep] is the body step, and the
    cursor is at the end of the body (before the blank line when there is
    no Content-Length header). *)
Theorem parse_whole_request (isRegistered : string -> bool)
    (reserve_throws : N -> option Private.StdError) (b : string) (c : nat)
    (r : Request) (lit : string) (m : Method) (path : string)
    (q : option (list (string * string))) (v : Version) (fs : list Field)
    (body tail : string) :
  In (lit, m) Private.Methods ->
  path_ok path = true ->
  match q with Some ps => forallb pair_ok ps = true | None => True end ->
  forallb field_ok fs = true ->
  body_expected (fold_left (add_field isRegistered) fs (headers_ r)) body ->
  str_drop c b = request_line_bytes lit path q v +:+ fields_bytes fs +:+ CRLF
                 +:+ body +:+ tail ->
  Private.Parser_parse isRegistered reserve_throws (Private.mkParser b c 0 r 0) =
    (Private.mkParser b
       (c + String.length (request_line_bytes lit path q v)
          + String.length (fields_bytes fs)
          + body_consumed (fold_left (add_field isRegistered) fs (headers_ r)) body)
       2
       (mkRequest (Some m) v path (query_after q (query_ r))
          (fold_left (add_field isRegistered) fs (headers_ r)) (body_ r +:+ body))
       0,
     Private.Returned Private.Done).
Proof.
  intros Hm Hpath Hq Hfs Hbody Hu.
  pose proof (str_length_le_drop _ _ _ Hu) as Hlen.
  rewrite !str_length_app in Hlen.
  assert (Hqok : query_ok (S (String.length b)) q).
  { destruct q as [ps|]; [|exact I]. split; [exact Hq|].
    pose proof (pairs_count ps). unfold request_line_bytes, target_bytes in Hlen.
    rewrite !str_length_app in Hlen. lia. }
  pose proof (fields_count fs) as Hfc.
  pose proof (drop_after _ _ _ _ Hu) as H1.
  pose proof (drop_after _ _ _ _ H1) as H2.
  unfold Private.Parser_parse. cbn [Private.buffer].
  rewrite parse_loop_unfold. cbn [Private.currentStep].
  change (Private.allSteps isRegistered reserve_throws ?f !! 0) with (Some (Private.RequestLineStep_apply f)).
  cbv iota beta.
  rewrite (request_line_whole _ _ _ _ _ _ _ _ _ _ _ _ Hm Hpath Hqok Hu).
  cbv iota beta. rewrite parse_loop_unfold.
  unfold Private.set_currentStep.
  cbn [Private.request Private.buffer Private.cursor Private.currentStep Private.bytesRead].
  change (Private.allSteps isRegistered reserve_throws ?f !! 1)
    with (Some (Private.HeadersStep_apply isRegistered f)).
  cbv iota beta.
  rewrite (headers_fields_then_blank _ _ _ _ _ _ _ _ _ Hfs H1) by lia.
  cbv iota beta. rewrite parse_loop_unfold.
  unfold Private.set_currentStep.
  cbn [Private.request Private.buffer Private.cursor Private.currentStep Private.bytesRead].
  change (Private.allSteps isRegistered reserve_throws ?f !! 2) with (Some (Private.BodyStep_apply reserve_throws)).
  cbv iota beta.
  unfold body_expected, body_consumed in *.
  cbn [Private.set_headers headers_] in *.
  set (hs := fold_left (add_field isRegistered) fs (headers_ r)) in *.
  destruct (Header.tryGet Header.ContentLength_Name hs) as [cl|] eqn:Hcl.
  - erewrite body_whole; [| exact Hcl | exact Hbody | exact H2].
    cbn [Private.set_body method_ version_ resource_ query_ headers_ body_].
    f_equal. f_equal. lia.
  - subst body. unfold Private.BodyStep_apply, Private.as_state, Private.BodyStep_body.
    unfold Private.bind, Private.get_parser. cbn [Private.request headers_].
    change (headers_ (Private.set_headers hs ?x)) with hs.
    rewrite Hcl. unfold Private.ret. rewrite str_app_nil_r, Nat.add_0_r.
    reflexivity.
Qed.

Lemma parse_whole_request_witness :
  Private.Parser_parse content_length_only (fun _ => Some Private.length_error)
    (holding ("POST /x?a=1 HTTP/1.1" +:+ CRLF +:+ "Content-Length: 3" +:+ CRLF +:+ CRLF
              +:+ "abc"))
  = (Private.mkParser
       ("POST /x?a=1 HTTP/1.1" +:+ CRLF +:+ "Content-Length: 3" +:+ CRLF +:+ CRLF +:+ "abc")
       46 2
       (mkRequest (Some Post) Http11 "/x" (Uri.Query_add "a" "1" Uri.Query_new)
          [Header.mkHeader "Content-Length" true "3"] "abc")
       0,
     Private.Returned Private.Done).
Proof.
  apply (parse_whole_request content_length_only (fun _ => Some Private.length_error)
           ("POST /x?a=1 HTTP/1.1" +:+ CRLF +:+ "Content-Length: 3" +:+ CRLF +:+ CRLF
            +:+ "abc") 0 Request_new "POST" Post "/x" (Some [("a", "1")]) Http11
           [mkField "Content-Length" 1 "3"] "abc" "");
    [right; right; left; reflexivity | reflexivity | reflexivity | reflexivity
    | reflexivity | reflexivity].
Defined.

(** ** What the steps leave of the parser *)

Section Respects.

Variable R : Private.Parser -> Private.Parser -> Prop.
Hypothesis R_refl : forall p, R p p.
Hypothesis R_trans : forall p q s, R p q -> R q s -> R p s.
Hypothesis R_request : forall r p, R p (Private.set_request r p).
Hypothesis R_advance : forall n, respects R (Private.cursor_advance n).
Hypothesis R_advance_while : forall cond, respects R (Private.advance_while cond).
Hypothesis R_match_raw : forall lit, respects R (Private.match_raw lit).
Hypothesis R_match_until : forall chars, respects R (Private.match_until chars).
Hypothesis R_revert : forall p p', R p p' -> R p (Private.set_cursor (Private.cursor p) p').

Lemma respects_bind {A B} (m : Private.M A) (f : A -> Private.M B) :
  respects R m -> (forall a, respects R (f a)) -> respects R (Private.bind m f).
Proof.
  intros Hm Hf p. unfold Private.bind. specialize (Hm p).
  destruct (m p) as [p' [a| | | | |]]; cbn [fst] in *; try exact Hm.
  eapply R_trans; [exact Hm | apply Hf].
Qed.

Lemma respects_pure {A} (m : Private.M A) : (forall p, fst (m p) = p) -> respects R m.
Proof. intros H p. rewrite H. apply R_refl. Qed.

Lemma respects_if {A} (c : bool) (m1 m2 : Private.M A) :
  respects R m1 -> respects R m2 -> respects R (if c then m1 else m2).
Proof. now destruct c. Qed.

Lemma respects_modify_request f : respects R (Private.modify_request f).
Proof. intros p. apply R_request. Qed.

Lemma respects_advance_or_again n : respects R (Private.advance_or_again n).
Proof.
  apply respects_bind; [apply R_advance|]. intros [|]; now apply respects_pure.
Qed.

Lemma respects_Revert {A} (m : Private.M A) : respects R m -> respects R (Private.Revert m).
Proof.
  intros Hm p. unfold Private.Revert. specialize (Hm p).
  destruct (m p) as [p' [a| | | | |]]; cbn [fst] in *; try exact Hm; now apply R_revert.
Qed.

Lemma respects_as_state (m : Private.M Private.State) :
  respects R m -> respects R (Private.as_state m).
Proof.
  intros Hm p. unfold Private.as_state. specialize (Hm p).
  now destruct (m p) as [p' [a| | | | |]].
Qed.

Lemma respects_match_method ms : respects R (Private.match_method ms).
Proof.
  induction ms as [|[lit m] ms IH]; [now apply respects_pure|].
  cbn [Private.match_method]. apply respects_bind; [apply R_match_raw|].
  intros [|]; [|exact IH].
  apply respects_bind; [apply respects_modify_request | intros; now apply respects_pure].
Qed.

Lemma respects_query_loop fuel : respects R (Private.query_loop fuel).
Proof.
  induction fuel as [|fuel IH]; cbn [Private.query_loop];
    (apply respects_bind; [now apply respects_pure|]); intros o;
    (apply respects_if; [|now apply respects_pure]); [now apply respects_pure|].
  repeat first
    [ exact IH
    | apply R_match_until
    | apply respects_advance_or_again
    | apply respects_modify_request
    | now apply respects_pure
    | apply respects_bind; [|intros ?]
    | apply respects_if ].
Qed.

Lemma respects_version_of ver size : respects R (Private.version_of ver size).
Proof.
  unfold Private.version_of.
  repeat first [ apply respects_if | apply respects_modify_request | now apply respects_pure ].
Qed.

Lemma respects_RequestLineStep fuel : respects R (Private.RequestLineStep_apply fuel).
Proof.
  apply respects_as_state, respects_Revert. unfold Private.RequestLineStep_body.
  repeat first
    [ apply respects_match_method
    | apply respects_query_loop
    | apply respects_version_of
    | apply R_advance_while
    | apply respects_advance_or_again
    | apply respects_modify_request
    | now apply respects_pure
    | apply respects_bind; [|intros ?]
    | apply respects_if ].
Qed.

Lemma respects_header_field isRegistered : respects R (Private.header_field isRegistered).
Proof.
  apply respects_Revert.
  repeat first
    [ apply R_advance_while
    | apply respects_advance_or_again
    | apply respects_modify_request
    | now apply respects_pure
    | apply respects_bind; [|intros ?] ].
Qed.

Lemma respects_HeadersStep isRegistered fuel :
  respects R (Private.HeadersStep_apply isRegistered fuel).
Proof.
  apply respects_as_state, respects_Revert.
  apply respects_bind; [|intros; now apply respects_pure].
  induction fuel as [|fuel IH]; cbn [Private.headers_loop];
    (apply respects_bind; [now apply respects_pure|]); intros o;
    (apply respects_if; [|now apply respects_pure]); [now apply respects_pure|].
  apply respects_bind; [apply respects_header_field | intros; exact IH].
Qed.

Hypothesis R_bytesRead : forall n p, R p (Private.set_bytesRead n p).
Hypothesis R_currentStep : forall i p, R p (Private.set_currentStep i p).

Variable reserve_throws : N -> option Private.StdError.

Lemma respects_reserve_body n : respects R (Private.reserve_body reserve_throws n).
Proof.
  apply respects_pure. intros p. unfold Private.reserve_body.
  destruct (_ <=? _)%N; [reflexivity|]. now destruct (reserve_throws n).
Qed.

Lemma respects_cursor_read off n : respects R (Private.cursor_read off n).
Proof.
  apply respects_pure. intros p. unfold Private.cursor_read.
  now destruct (StreamCursor.read _ _ _).
Qed.

Lemma respects_BodyStep : respects R (Private.BodyStep_apply reserve_throws).
Proof.
  apply respects_as_state. unfold Private.BodyStep_body.
  apply respects_bind; [now apply respects_pure|]. intros p0.
  destruct (Header.tryGet _ _); [|now apply respects_pure]. cbv zeta.
  unfold Private.read_available, Private.append_body.
  repeat first
    [ apply R_advance
    | apply respects_reserve_body
    | apply respects_cursor_read
    | apply respects_advance_or_again
    | apply respects_modify_request
    | (intros p; apply R_bytesRead)
    | now apply respects_pure
    | apply respects_bind; [|intros ?]
    | apply respects_if ].
Qed.

Lemma respects_parse_loop isRegistered n fuel :
  respects R (Private.parse_loop isRegistered reserve_throws n fuel).
Proof.
  induction n as [|n IH]; cbn [Private.parse_loop];
    (apply respects_bind; [now apply respects_pure|]); intros p0;
    (destruct (Private.allSteps isRegistered reserve_throws fuel !! Private.currentStep p0) as [step|] eqn:Hs;
     [|now apply respects_pure]);
    (assert (Hstep : respects R step);
     [ unfold Private.allSteps in Hs;
       destruct (Private.currentStep p0) as [|[|[|k]]]; cbn in Hs; try discriminate;
       injection Hs as <-;
       [apply respects_RequestLineStep | apply respects_HeadersStep | apply respects_BodyStep]
     |]);
    (apply respects_bind; [exact Hstep|]); intros [| |]; try now apply respects_pure.
  - apply respects_bind; [intros p; apply R_currentStep | intros; now apply respects_pure].
  - apply respects_bind; [intros p; apply R_currentStep | intros; exact IH].
Qed.

Lemma respects_Parser_parse isRegistered p :
  R p (fst (Private.Parser_parse isRegistered reserve_throws p)).
Proof.
  unfold Private.Parser_parse.
  pose proof (respects_parse_loop isRegistered 3 (S (String.length (Private.buffer p))) p) as H.
  now destruct (Private.parse_loop _ _ _ _ p) as [p' [a| | | | |]].
Qed.

End Respects.

Lemma scan_le (stop : string -> bool) (s : string) (k : nat) :
  StreamCursor.scan stop s = Some k -> k <= String.length s.
Proof.
  revert k. induction s as [|d s IH]; intros k; simpl.
  - destruct (stop ""); [intros [= <-]; lia | discriminate].
  - destruct (stop (String d s)); [intros [= <-]; lia|].
    destruct (StreamCursor.scan stop s) as [j|]; [|discriminate].
    intros [= <-]. specialize (IH j eq_refl). lia.
Qed.

Lemma str_length_take (n : nat) (s : string) :
  String.length (str_take n s) = Nat.min n (String.length s).
Proof.
  revert s. induction n as [|n IH]; intros [|d s]; simpl; try reflexivity. now rewrite IH.
Qed.

Lemma in_bounds_refl p : in_bounds p p.
Proof. split; [reflexivity | tauto]. Qed.

Lemma in_bounds_trans p q s : in_bounds p q -> in_bounds q s -> in_bounds p s.
Proof.
  intros [Hb1 Hc1] [Hb2 Hc2]. split; [congruence|]. intros H.
  rewrite Hb1 in Hc2. auto.
Qed.

Lemma in_bounds_advance n : respects in_bounds (Private.cursor_advance n).
Proof.
  intros p. unfold Private.cursor_advance, StreamCursor.advance, StreamCursor.remaining.
  destruct (N.leb_spec n (N.of_nat (String.length (Private.buffer p) - Private.cursor p)));
    cbn [fst]; [|apply in_bounds_refl].
  split; [reflexivity|]. cbn [Private.set_cursor Private.cursor]. lia.
Qed.

Lemma in_bounds_scan (stop : string -> bool) (p : Private.Parser) A (r1 r2 : Private.Flow A) :
  in_bounds p
    (fst (match StreamCursor.scan stop (str_drop (Private.cursor p) (Private.buffer p)) with
          | Some k => (Private.set_cursor (Private.cursor p + k) p, r1)
          | None => (Private.set_cursor (String.length (Private.buffer p)) p, r2)
          end)).
Proof.
  destruct (StreamCursor.scan _ _) as [k|] eqn:Hs; cbn [fst];
    (split; [reflexivity|]); cbn [Private.set_cursor Private.cursor]; [|lia].
  apply scan_le in Hs. rewrite str_length_drop in Hs. lia.
Qed.

Lemma in_bounds_advance_while cond : respects in_bounds (Private.advance_while cond).
Proof. intros p. apply in_bounds_scan. Qed.

Lemma in_bounds_match_until chars : respects in_bounds (Private.match_until chars).
Proof. intros p. apply in_bounds_scan. Qed.

Lemma in_bounds_match_raw lit : respects in_bounds (Private.match_raw lit).
Proof.
  intros p. unfold Private.match_raw, StreamCursor.matches.
  destruct (String.eqb_spec (substring (Private.cursor p) (String.length lit) (Private.buffer p))
              lit) as [He|]; cbn [fst]; [|apply in_bounds_refl].
  split; [reflexivity|]. cbn [Private.set_cursor Private.cursor]. intros Hc.
  apply (f_equal String.length) in He.
  rewrite substring_take_drop, str_length_take, str_length_drop in He. lia.
Qed.

Lemma in_bounds_revert p p' :
  in_bounds p p' -> in_bounds p (Private.set_cursor (Private.cursor p) p').
Proof. intros [Hb _]. split; [exact Hb | tauto]. Qed.

Lemma only_next_bind {A} (m : Private.M A) (f : A -> Private.M Private.State) :
  (forall a, only_next (f a)) -> only_next (Private.bind m f).
Proof.
  intros Hf p s. unfold Private.bind.
  destruct (m p) as [p' [a| | | | |]]; cbn [snd]; try discriminate. apply Hf.
Qed.

Lemma only_next_bodies (isRegistered : string -> bool) (fuel : nat) :
  only_next (Private.RequestLineStep_body fuel)
  /\ only_next (Private.bind (Private.headers_loop isRegistered fuel)
                  (fun _ => Private.ret Private.Next)).
Proof.
  split.
  - unfold Private.RequestLineStep_body.
    repeat (apply only_next_bind; intros ?). intros p s [= <-]. reflexivity.
  - apply only_next_bind. intros _ p s [= <-]. reflexivity.
Qed.

Lemma step_in_place (isRegistered : string -> bool) (fuel : nat)
    (p : Private.Parser) (step : Private.M Private.State) :
  step = Private.RequestLineStep_apply fuel
  \/ step = Private.HeadersStep_apply isRegistered fuel ->
  same_frame p (fst (step p))
  /\ (snd (step p) <> Private.Go Private.Next ->
      Private.cursor (fst (step p)) = Private.cursor p).
Proof.
  intros Hstep. split.
  - assert (Hr : respects same_frame step).
    { destruct Hstep as [-> | ->];
        [apply respects_RequestLineStep | apply respects_HeadersStep];
        try (intros; repeat split; reflexivity);
        try (intros ? ? ? (? & ? & ?) (? & ? & ?); repeat split; congruence).
      all: try (intros ? q; unfold Private.cursor_advance;
                destruct (StreamCursor.advance _ _ _); repeat split; reflexivity).
      all: try (intros ? q; unfold Private.advance_while, Private.match_until;
                destruct (StreamCursor.scan _ _); repeat split; reflexivity).
      all: try (intros ? q; unfold Private.match_raw;
                destruct (StreamCursor.matches _ _ _); repeat split; reflexivity).
      all: intros ? ? (? & ? & ?); repeat split; assumption. }
    apply Hr.
  - assert (Hshape : exists body,
              step = Private.as_state (Private.Revert body) /\ only_next body).
    { destruct (only_next_bodies isRegistered fuel) as [H1 H2].
      destruct Hstep as [-> | ->]; eexists; (split; [reflexivity|]); assumption. }
    destruct Hshape as (body & -> & Hnext). unfold Private.as_state, Private.Revert.
    specialize (Hnext p).
    destruct (body p) as [p' [s| | | | |]]; cbn [fst snd] in *; try reflexivity.
    intros H. rewrite (Hnext s eq_refl) in H. now contradiction H.
Qed.

(** X21.  [RequestLineStep::apply] and [HeadersStep::apply] never change
    the buffer, [currentStep] or [bytesRead], and unless they return [Next]
    they leave the cursor where it was, whatever the bytes are: their
    guard puts it back on [Again] and on every exception. *)
Theorem steps_suspend_in_place (isRegistered : string -> bool) (fuel : nat)
    (p : Private.Parser) :
  (same_frame p (fst (Private.RequestLineStep_apply fuel p))
   /\ (snd (Private.RequestLineStep_apply fuel p) <> Private.Go Private.Next ->
       Private.cursor (fst (Private.RequestLineStep_apply fuel p)) = Private.cursor p))
  /\ (same_frame p (fst (Private.HeadersStep_apply isRegistered fuel p))
      /\ (snd (Private.HeadersStep_apply isRegistered fuel p) <> Private.Go Private.Next ->
          Private.cursor (fst (Private.HeadersStep_apply isRegistered fuel p))
            = Private.cursor p)).
Proof.
  split; apply (step_in_place isRegistered fuel); [left | right]; reflexivity.
Qed.

(** X22.  [Parser::parse] never changes the bytes of the buffer, and a
    cursor that is within the buffer (the end included) before the call is
    within it after the call, whatever the bytes and the state of the
    parser are. *)
Theorem parse_stays_in_buffer (isRegistered : string -> bool)
    (reserve_throws : N -> option Private.StdError) (p : Private.Parser) :
  Private.buffer (fst (Private.Parser_parse isRegistered reserve_throws p)) = Private.buffer p
  /\ (Private.cursor p <= String.length (Private.buffer p) ->
      Private.cursor (fst (Private.Parser_parse isRegistered reserve_throws p))
        <= String.length (Private.buffer p)).
Proof.
  apply (respects_Parser_parse in_bounds).
  - apply in_bounds_refl.
  - apply in_bounds_trans.
  - intros r q. split; [reflexivity | cbn; tauto].
  - apply in_bounds_advance.
  - apply in_bounds_advance_while.
  - apply in_bounds_match_raw.
  - apply in_bounds_match_until.
  - apply in_bounds_revert.
  - intros n q. split; [reflexivity | cbn; tauto].
  - intros i q. split; [reflexivity | cbn; tauto].
Qed.

(** ** The connection glue *)

Lemma respond_spec (MaxBuffer : nat) (codeReason : Code -> string) (o : Tcp.Owners)
    (peer : Tcp.Peer) (code : Code) (reason : string) (parser : Private.Parser) :
  Handler.respond MaxBuffer codeReason o peer code reason parser
    = after_error MaxBuffer codeReason code [] parser.
Proof.
  unfold Handler.respond, after_error.
  change (Response.associatePeer (Some peer) o (Response.Response_new MaxBuffer))
    with (handler_response MaxBuffer peer, @Response.Val unit tt).
  cbv iota. rewrite StreamFacts.send_spec. cbn [snd Response.bufSize handler_response].
  now destruct (_ <=? _)%nat.
Qed.

(** X26.  [Handler::onInput] when the chunk fits the parser's buffer and
    [parse] does not return [Done].  If [parse] returns [Again], nothing
    is sent and the parser is left as [parse] left it.  If [parse] throws
    an [HttpError], or an exception of the standard library passes
    through it, the handler of the application is not called and
    [send] is called with the error's code (500 for the library's
    exception): the promise is rejected and the parser reset when the
    status text does not fit the scratch buffer of [2 * MaxBuffer] bytes;
    when it fits, [send] calls [crlf] and the call has no defined
    behaviour, the parser not being reset.  No byte is handed to the
    peer. *)
Theorem onInput_protocol_error (isRegistered : string -> bool) (MaxBuffer : nat)
    (reserve_throws : N -> option Private.StdError) (codeReason : Code -> string)
    (what : Private.StdError -> string)
    (onRequest : Request -> Response.Response -> list string * option Handler.Exception)
    (o : Tcp.Owners) (data : string) (peer : Tcp.Peer) (parser p1 p2 : Private.Parser) :
  Private.Parser_feed MaxBuffer data parser = (true, p1) ->
  (Private.Parser_parse isRegistered reserve_throws p1 = (p2, Private.Returned Private.Again) ->
     Handler.onInput isRegistered MaxBuffer reserve_throws codeReason what onRequest
       o data peer parser = (p2, [], Handler.Returns))
  /\ (forall e,
        Private.Parser_parse isRegistered reserve_throws p1 = (p2, Private.Raised e) ->
        Handler.onInput isRegistered MaxBuffer reserve_throws codeReason what onRequest
          o data peer parser = after_error MaxBuffer codeReason (err_code e) [] p2)
  /\ (forall e,
        Private.Parser_parse isRegistered reserve_throws p1 = (p2, Private.Escaped e) ->
        Handler.onInput isRegistered MaxBuffer reserve_throws codeReason what onRequest
          o data peer parser
        = after_error MaxBuffer codeReason Internal_Server_Error [] p2).
Proof.
  intros Hfeed. unfold Handler.onInput. rewrite Hfeed. split; [|split].
  - intros Hp. now rewrite Hp.
  - intros e Hp. rewrite Hp. unfold Handler.catch. apply respond_spec.
  - intros e Hp. rewrite Hp. unfold Handler.catch. apply respond_spec.
Qed.

Lemma onInput_protocol_error_witness :
  Handler.onInput (fun _ => false) 64 (fun _ => None) (fun _ => "Bad Request")
    (fun _ => "") (fun _ _ => (["unreached"], None)) (fun _ => 1)
    ("BREW / HTTP/1.1" +:+ CRLF +:+ CRLF) 1 Private.Parser_new
  = (holding ("BREW / HTTP/1.1" +:+ CRLF +:+ CRLF), [], Handler.NoBehaviour)
  /\ Handler.onInput content_length_only 64
       (fun n => if (4611686018427387903 <? n)%N then Some Private.length_error else None)
       (fun _ => "Internal Server Error")
       (fun _ => "basic_string::reserve") (fun _ _ => (["unreached"], None)) (fun _ => 1)
       ("POST / HTTP/1.1" +:+ CRLF +:+ "Content-Length: 9223372036854775808" +:+ CRLF
        +:+ CRLF) 1 Private.Parser_new
     = (Private.mkParser
          ("POST / HTTP/1.1" +:+ CRLF +:+ "Content-Length: 9223372036854775808" +:+ CRLF
           +:+ CRLF) 56 2
          (mkRequest (Some Post) Http11 "/" Uri.Query_new
             [Header.mkHeader "Content-Length" true "9223372036854775808"] "") 0,
        [], Handler.NoBehaviour).
Proof.
  split.
  - apply (proj1 (proj2 (onInput_protocol_error (fun _ => false) 64 (fun _ => None)
                    (fun _ => "Bad Request") (fun _ => "")
                    (fun _ _ => (["unreached"], None))
                    (fun _ => 1) ("BREW / HTTP/1.1" +:+ CRLF +:+ CRLF) 1 Private.Parser_new
                    (holding ("BREW / HTTP/1.1" +:+ CRLF +:+ CRLF))
                    (holding ("BREW / HTTP/1.1" +:+ CRLF +:+ CRLF))
                    eq_refl))
            (mkHttpError Bad_Request "Unknown HTTP request method")).
    reflexivity.
  - apply (proj2 (proj2 (onInput_protocol_error content_length_only 64
                    (fun n => if (4611686018427387903 <? n)%N
                              then Some Private.length_error else None)
                    (fun _ => "Internal Server Error")
                    (fun _ => "basic_string::reserve")
                    (fun _ _ => (["unreached"], None)) (fun _ => 1)
                    ("POST / HTTP/1.1" +:+ CRLF
                     +:+ "Content-Length: 9223372036854775808" +:+ CRLF +:+ CRLF)
                    1 Private.Parser_new
                    (holding ("POST / HTTP/1.1" +:+ CRLF
                              +:+ "Content-Length: 9223372036854775808" +:+ CRLF +:+ CRLF))
                    (Private.mkParser
                       ("POST / HTTP/1.1" +:+ CRLF
                        +:+ "Content-Length: 9223372036854775808" +:+ CRLF +:+ CRLF) 56 2
                       (mkRequest (Some Post) Http11 "/" Uri.Query_new
                          [Header.mkHeader "Content-Length" true "9223372036854775808"] "")
                       0)
                    eq_refl))
            Private.length_error).
    vm_compute. reflexivity.
Defined.

(** X27.  [Handler::onInput] when the chunk fits and [parse] returns
    [Done]: [onRequest] is called once, with the parsed request and a
    response that has no header, the scratch size [2 * MaxBuffer] and this
    peer.  When the handler returns, the parser is reset and the call
    returns, with what the handler sent.  When the handler throws (an
    [HttpError] with any code, or another exception, answered with 500),
    what it sent stays sent and [send] is called for the error: the
    promise is rejected and the parser reset when the status text does
    not fit the scratch buffer; when it fits, [send] calls [crlf] and the
    call has no defined behaviour, the parser not being reset. *)
Theorem onInput_request (isRegistered : string -> bool) (MaxBuffer : nat)
    (reserve_throws : N -> option Private.StdError) (codeReason : Code -> string)
    (what : Private.StdError -> string)
    (onRequest : Request -> Response.Response -> list string * option Handler.Exception)
    (o : Tcp.Owners) (data : string) (peer : Tcp.Peer) (parser p1 p2 : Private.Parser) :
  Private.Parser_feed MaxBuffer data parser = (true, p1) ->
  Private.Parser_parse isRegistered reserve_throws p1 = (p2, Private.Returned Private.Done) ->
  Handler.onInput isRegistered MaxBuffer reserve_throws codeReason what onRequest
    o data peer parser =
    match onRequest (Private.request p2) (handler_response MaxBuffer peer) with
    | (out, None) => (Private.Parser_reset p2, out, Handler.Returns)
    | (out, Some (Handler.HttpErr e)) =>
        after_error MaxBuffer codeReason (err_code e) out p2
    | (out, Some (Handler.StdException _)) =>
        after_error MaxBuffer codeReason Internal_Server_Error out p2
    end.
Proof.
  intros Hfeed Hp. unfold Handler.onInput. rewrite Hfeed, Hp.
  change (Response.associatePeer (Some peer) o (Response.Response_new MaxBuffer))
    with (handler_response MaxBuffer peer, @Response.Val unit tt).
  cbv iota.
  destruct (onRequest (Private.request p2) (handler_response MaxBuffer peer))
    as [out [[e|w]|]]; [| |reflexivity];
    unfold Handler.catch; rewrite respond_spec; unfold after_error;
    destruct (_ <=? _)%nat; now rewrite app_nil_r.
Qed.

Lemma onInput_request_witness :
  Handler.onInput (fun _ => false) 64 (fun _ => None) (fun _ => "Not Found")
    (fun _ => "")
    (fun req _ => ([resource_ req], Some (Handler.HttpErr (mkHttpError 404%Z "no such page"))))
    (fun _ => 1) ("GET /a HTTP/1.1" +:+ CRLF +:+ CRLF) 1 Private.Parser_new
  = (Private.mkParser ("GET /a HTTP/1.1" +:+ CRLF +:+ CRLF) 17 2
       (mkRequest (Some Get) Http11 "/a" Uri.Query_new [] "") 0,
     ["/a"], Handler.NoBehaviour)
  /\ Handler.onInput (fun _ => false) 64 (fun _ => None) (fun _ => "Not Found")
       (fun _ => "") (fun req _ => ([resource_ req], None))
       (fun _ => 1) ("GET /a HTTP/1.1" +:+ CRLF +:+ CRLF) 1 Private.Parser_new
     = (Private.mkParser "" 0 0 (mkRequest (Some Get) Http11 "" Uri.Query_new [] "") 0,
        ["/a"], Handler.Returns).
Proof.
  split.
  - apply (onInput_request (fun _ => false) 64 (fun _ => None) (fun _ => "Not Found")
             (fun _ => "")
             (fun req _ => ([resource_ req],
                            Some (Handler.HttpErr (mkHttpError 404%Z "no such page"))))
             (fun _ => 1) ("GET /a HTTP/1.1" +:+ CRLF +:+ CRLF) 1 Private.Parser_new
             (holding ("GET /a HTTP/1.1" +:+ CRLF +:+ CRLF))
             (Private.mkParser ("GET /a HTTP/1.1" +:+ CRLF +:+ CRLF) 17 2
                (mkRequest (Some Get) Http11 "/a" Uri.Query_new [] "") 0));
      [reflexivity | vm_compute; reflexivity].
  - apply (onInput_request (fun _ => false) 64 (fun _ => None) (fun _ => "Not Found")
             (fun _ => "") (fun req _ => ([resource_ req], None))
             (fun _ => 1) ("GET /a HTTP/1.1" +:+ CRLF +:+ CRLF) 1 Private.Parser_new
             (holding ("GET /a HTTP/1.1" +:+ CRLF +:+ CRLF))
             (Private.mkParser ("GET /a HTTP/1.1" +:+ CRLF +:+ CRLF) 17 2
                (mkRequest (Some Get) Http11 "/a" Uri.Query_new [] "") 0));
      [reflexivity | vm_compute; reflexivity].
Defined.

(** ** The loops end within the bytes of the buffer *)

Lemma bounded_bind {A B} n k (m : Private.M A) (f : A -> Private.M B) :
  bounded n 0 m -> (forall a, bounded n k (f a)) -> bounded n k (Private.bind m f).
Proof.
  intros Hm Hf p Hp. unfold Private.bind. specialize (Hm p Hp).
  destruct (m p) as [p' [a| | | | |]]; try exact Hm. destruct Hm as [Hb Hc].
  assert (Hp' : unread_count p' < n) by lia. specialize (Hf a p' Hp').
  destruct (f a p') as [p'' [a'| | | | |]]; try exact Hf. destruct Hf as [Hb' Hc'].
  split; [congruence | lia].
Qed.

Lemma bounded_then {A B} n (m : Private.M A) (f : A -> Private.M B) :
  bounded (S n) 1 m -> (forall a, bounded n 0 (f a)) -> bounded (S n) 1 (Private.bind m f).
Proof.
  intros Hm Hf p Hp. unfold Private.bind. specialize (Hm p Hp).
  destruct (m p) as [p' [a| | | | |]]; try exact Hm. destruct Hm as [Hb Hc].
  assert (Hp' : unread_count p' < n) by lia. specialize (Hf a p' Hp').
  destruct (f a p') as [p'' [a'| | | | |]]; try exact Hf. destruct Hf as [Hb' Hc'].
  split; [congruence | lia].
Qed.

Lemma bounded_weaken {A} n n' k k' (m : Private.M A) :
  bounded n k m -> n' <= n -> k' <= k -> bounded n' k' m.
Proof.
  intros Hm Hn Hk p Hp. specialize (Hm p ltac:(lia)).
  destruct (m p) as [p' [a| | | | |]]; try exact Hm. destruct Hm; split; [assumption | lia].
Qed.

Lemma bounded_pure {A} n (m : Private.M A) :
  (forall p, Private.buffer (fst (m p)) = Private.buffer p
             /\ Private.cursor (fst (m p)) = Private.cursor p
             /\ snd (m p) <> Private.Undefined) ->
  bounded n 0 m.
Proof.
  intros H p _. specialize (H p). destruct (m p) as [p' [a| | | | |]]; cbn [fst snd] in H;
    try exact I; [|now destruct H as (_ & _ & H)].
  destruct H as (Hb & Hc & _). unfold unread_count. rewrite Hb, Hc. split; [reflexivity | lia].
Qed.

Lemma bounded_if {A} n k (c : bool) (m1 m2 : Private.M A) :
  bounded n k m1 -> bounded n k m2 -> bounded n k (if c then m1 else m2).
Proof. now destruct c. Qed.

Lemma bounded_Revert {A} n k (m : Private.M A) : bounded n k m -> bounded n k (Private.Revert m).
Proof.
  intros Hm p Hp. unfold Private.Revert. specialize (Hm p Hp).
  now destruct (m p) as [p' [a| | | | |]].
Qed.

Lemma bounded_cursor_advance n j : bounded n 0 (Private.cursor_advance j).
Proof.
  intros p _. unfold Private.cursor_advance, StreamCursor.advance, StreamCursor.remaining.
  destruct (N.leb_spec j (N.of_nat (String.length (Private.buffer p) - Private.cursor p)));
    (split; [reflexivity|]); unfold unread_count;
    cbn [Private.set_cursor Private.cursor Private.buffer]; lia.
Qed.

Lemma bounded_advance_or_again n (j : nat) :
  bounded n j (Private.advance_or_again (N.of_nat j)).
Proof.
  intros p _. unfold Private.advance_or_again, Private.bind, Private.cursor_advance,
    StreamCursor.advance, StreamCursor.remaining.
  destruct (N.leb_spec (N.of_nat j)
              (N.of_nat (String.length (Private.buffer p) - Private.cursor p)));
    [|exact I].
  split; [reflexivity|]. unfold unread_count.
  cbn [Private.set_cursor Private.cursor Private.buffer]. lia.
Qed.

Lemma bounded_scan {A} n (stop : string -> bool) (r1 r2 : Private.Flow A) :
  r1 <> Private.Undefined -> r2 <> Private.Undefined ->
  bounded n 0 (fun p =>
    match StreamCursor.scan stop (str_drop (Private.cursor p) (Private.buffer p)) with
    | Some k => (Private.set_cursor (Private.cursor p + k) p, r1)
    | None => (Private.set_cursor (String.length (Private.buffer p)) p, r2)
    end).
Proof.
  intros H1 H2 p _. cbv beta.
  destruct (StreamCursor.scan _ _) as [k|].
  - destruct r1; try exact I; [|contradiction]. split; [reflexivity|].
    unfold unread_count. cbn [Private.set_cursor Private.cursor Private.buffer]. lia.
  - destruct r2; try exact I; [|contradiction]. split; [reflexivity|].
    unfold unread_count. cbn [Private.set_cursor Private.cursor Private.buffer]. lia.
Qed.

Lemma bounded_advance_while n cond : bounded n 0 (Private.advance_while cond).
Proof. apply (bounded_scan n); discriminate. Qed.

Lemma bounded_match_until n chars : bounded n 0 (Private.match_until chars).
Proof. apply (bounded_scan n); discriminate. Qed.

Lemma bounded_match_raw n lit : bounded n 0 (Private.match_raw lit).
Proof.
  intros p _. unfold Private.match_raw.
  destruct (StreamCursor.matches _ _ _); (split; [reflexivity|]); unfold unread_count;
    cbn [Private.set_cursor Private.cursor Private.buffer]; lia.
Qed.

Lemma bounded_modify_request n f : bounded n 0 (Private.modify_request f).
Proof. apply bounded_pure. intros p. repeat split. discriminate. Qed.

Lemma bounded_modify_bytesRead n f :
  bounded n 0 (Private.modify (fun p => Private.set_bytesRead (f p) p)).
Proof. apply bounded_pure. intros p. repeat split. discriminate. Qed.

Ltac bounded_pure_tac :=
  apply bounded_pure; intros ?; repeat split; discriminate.

Ltac bounded_tac :=
  repeat first
    [ assumption
    | apply bounded_match_until
    | apply bounded_match_raw
    | apply bounded_advance_while
    | apply bounded_cursor_advance
    | apply bounded_modify_request
    | apply bounded_modify_bytesRead
    | match goal with
      | |- bounded _ 0 (Private.advance_or_again ?j) =>
          apply (bounded_weaken _ _ (N.to_nat j) 0 _
                   (bounded_advance_or_again _ (N.to_nat j))); [lia | lia]
      end
    | bounded_pure_tac
    | apply bounded_bind; [|intros ?]
    | apply bounded_if ].

Lemma bounded_match_method n ms : bounded n 0 (Private.match_method ms).
Proof.
  induction ms as [|[lit m] ms IH]; [bounded_pure_tac|].
  cbn [Private.match_method]. bounded_tac.
Qed.

Lemma bounded_query_loop fuel : bounded fuel 0 (Private.query_loop fuel).
Proof.
  induction fuel as [|fuel IH]; [intros p Hp; lia|].
  cbn [Private.query_loop].
  apply bounded_bind; [bounded_pure_tac|]. intros o.
  apply bounded_if; [|bounded_pure_tac].
  do 4 (apply bounded_bind; [bounded_tac|]; intros ?).
  apply (bounded_weaken (S fuel) (S fuel) 1 0); [|lia|lia].
  apply bounded_then; [apply (bounded_advance_or_again _ 1)|]. intros _.
  bounded_tac.
Qed.

Lemma bounded_version_of n ver size : bounded n 0 (Private.version_of ver size).
Proof. unfold Private.version_of. bounded_tac. Qed.

Lemma bounded_RequestLineStep fuel : bounded fuel 0 (Private.RequestLineStep_body fuel).
Proof.
  pose proof (bounded_query_loop fuel). pose proof (bounded_match_method fuel Private.Methods).
  unfold Private.RequestLineStep_body.
  repeat first
    [ assumption
    | apply bounded_version_of
    | apply bounded_bind; [|intros ?]
    | apply bounded_if
    | progress bounded_tac ].
Qed.

Lemma bounded_header_field isRegistered n : bounded (S n) 1 (Private.header_field isRegistered).
Proof.
  apply bounded_Revert.
  do 2 (apply bounded_bind; [bounded_tac|]; intros ?).
  apply bounded_then; [apply (bounded_advance_or_again _ 1)|]. intros _.
  bounded_tac.
Qed.

Lemma bounded_headers_loop isRegistered fuel :
  bounded fuel 0 (Private.headers_loop isRegistered fuel).
Proof.
  induction fuel as [|fuel IH]; [intros p Hp; lia|].
  cbn [Private.headers_loop].
  apply bounded_bind; [bounded_pure_tac|]. intros o.
  apply bounded_if; [|bounded_pure_tac].
  apply (bounded_weaken (S fuel) (S fuel) 1 0); [|lia|lia].
  apply bounded_then; [apply bounded_header_field | intros _; exact IH].
Qed.

Lemma bounded_reserve_body reserve_throws n k :
  bounded n 0 (Private.reserve_body reserve_throws k).
Proof.
  intros p _. unfold Private.reserve_body, unread_count.
  destruct (_ <=? _)%N; [split; [reflexivity | lia]|].
  destruct (reserve_throws k); [exact I | split; [reflexivity | lia]].
Qed.

Lemma bounded_cursor_read n off k : bounded n 0 (Private.cursor_read off k).
Proof.
  intros p _. unfold Private.cursor_read, unread_count.
  destruct (StreamCursor.read _ _ _); [split; [reflexivity | lia] | exact I].
Qed.

Lemma bounded_BodyStep reserve_throws n :
  bounded n 0 (Private.BodyStep_body reserve_throws).
Proof.
  unfold Private.BodyStep_body.
  pose proof (bounded_reserve_body reserve_throws n) as Hres.
  pose proof (bounded_cursor_read n) as Hread.
  apply bounded_bind; [bounded_pure_tac|]. intros p0.
  destruct (Header.tryGet _ _); [|bounded_pure_tac]. cbv zeta.
  unfold Private.read_available, Private.append_body.
  assert (Hz : bounded n 0 (Private.modify (Private.set_bytesRead 0)))
    by apply (bounded_modify_bytesRead n (fun _ => 0%N)).
  repeat first
    [ apply Hres
    | apply Hread
    | apply bounded_bind; [|intros ?]
    | apply bounded_if
    | progress bounded_tac ].
Qed.

(** A step whose body is bounded stays within its fuel. *)
Lemma bounded_as_state n (m : Private.M Private.State) (p : Private.Parser) :
  bounded n 0 m -> unread_count p < n ->
  snd (Private.as_state m p) <> Private.Undefined.
Proof.
  intros Hm Hp. specialize (Hm p Hp). unfold Private.as_state.
  destruct (m p) as [p' [a| | | | |]]; cbn [snd]; try discriminate. contradiction.
Qed.

Lemma same_step_steps (isRegistered : string -> bool)
    (reserve_throws : N -> option Private.StdError) (fuel : nat) :
  respects same_step (Private.RequestLineStep_apply fuel)
  /\ respects same_step (Private.HeadersStep_apply isRegistered fuel)
  /\ respects same_step (Private.BodyStep_apply reserve_throws).
Proof.
  assert (Hrefl : forall p, same_step p p) by (intros; split; reflexivity).
  assert (Htrans : forall p q s, same_step p q -> same_step q s -> same_step p s)
    by (intros ? ? ? [? ?] [? ?]; split; congruence).
  assert (Hreq : forall r p, same_step p (Private.set_request r p))
    by (intros; split; reflexivity).
  assert (Hadv : forall n, respects same_step (Private.cursor_advance n)).
  { intros n p. unfold Private.cursor_advance. destruct (StreamCursor.advance _ _ _);
      split; reflexivity. }
  assert (Hwhile : forall cond, respects same_step (Private.advance_while cond)).
  { intros c p. unfold Private.advance_while. destruct (StreamCursor.scan _ _);
      split; reflexivity. }
  assert (Hraw : forall lit, respects same_step (Private.match_raw lit)).
  { intros l p. unfold Private.match_raw. destruct (StreamCursor.matches _ _ _);
      split; reflexivity. }
  assert (Huntil : forall chars, respects same_step (Private.match_until chars)).
  { intros c p. unfold Private.match_until. destruct (StreamCursor.scan _ _);
      split; reflexivity. }
  assert (Hrev : forall p p', same_step p p' ->
            same_step p (Private.set_cursor (Private.cursor p) p'))
    by (intros ? ? [? ?]; split; assumption).
  assert (Hbytes : forall n p, same_step p (Private.set_bytesRead n p))
    by (intros; split; reflexivity).
  split; [|split].
  - now apply respects_RequestLineStep.
  - now apply respects_HeadersStep.
  - now apply respects_BodyStep.
Qed.

(** The body step never hands [Next] to the driver. *)
Lemma BodyStep_not_Next (reserve_throws : N -> option Private.StdError) (p : Private.Parser) :
  snd (Private.BodyStep_apply reserve_throws p) <> Private.Go Private.Next.
Proof.
  unfold Private.BodyStep_apply, Private.as_state, Private.BodyStep_body.
  unfold Private.bind at 1. cbn [Private.get_parser].
  destruct (Header.tryGet _ _); [|discriminate].
  cbv zeta. unfold Private.bind at 1.
  match goal with |- context [match ?m p with _ => _ end] => destruct (m p) as [p1 [[]| | | | |]] end;
    cbn [snd]; discriminate.
Qed.

Lemma steps_defined (isRegistered : string -> bool)
    (reserve_throws : N -> option Private.StdError) (fuel : nat) (p : Private.Parser) :
  String.length (Private.buffer p) < fuel ->
  snd (Private.RequestLineStep_apply fuel p) <> Private.Undefined
  /\ snd (Private.HeadersStep_apply isRegistered fuel p) <> Private.Undefined
  /\ snd (Private.BodyStep_apply reserve_throws p) <> Private.Undefined.
Proof.
  intros Hfuel.
  assert (Hu : unread_count p < fuel) by (unfold unread_count; lia).
  split; [|split]; apply (bounded_as_state fuel); try exact Hu.
  - apply bounded_Revert, bounded_RequestLineStep.
  - apply bounded_Revert, bounded_bind; [apply bounded_headers_loop|].
    intros _. apply bounded_pure. intros q. repeat split. discriminate.
  - apply bounded_BodyStep.
Qed.

Lemma parse_loop_defined (isRegistered : string -> bool)
    (reserve_throws : N -> option Private.StdError) (fuel n : nat) :
  forall p,
  String.length (Private.buffer p) < fuel ->
  Private.currentStep p <= 2 ->
  2 - Private.currentStep p <= n ->
  snd (Private.parse_loop isRegistered reserve_throws n fuel p) <> Private.Undefined
  /\ Private.currentStep (fst (Private.parse_loop isRegistered reserve_throws n fuel p)) <= 2.
Proof.
  destruct (same_step_steps isRegistered reserve_throws fuel) as (Hs0 & Hs1 & Hs2).
  induction n as [|n IH]; intros p Hfuel Hi Hn; rewrite parse_loop_unfold;
    destruct (steps_defined isRegistered reserve_throws fuel p Hfuel) as (Hd0 & Hd1 & Hd2);
    pose proof (BodyStep_not_Next reserve_throws p) as Hnn;
    specialize (Hs0 p); specialize (Hs1 p); specialize (Hs2 p);
    destruct Hs0 as [Hb0 Hc0]; destruct Hs1 as [Hb1 Hc1]; destruct Hs2 as [Hb2 Hc2];
    (destruct (Private.currentStep p) as [|[|[|i]]] eqn:Hi'; try lia);
    cbn [lookup list_lookup Private.allSteps];
    match goal with
    | |- context [match ?step p with _ => _ end] =>
        destruct (step p) as [p' [[| |]| | | | |]]
    end;
    cbn [fst snd] in *; try contradiction; try (now contradiction Hnn);
    try (split; [discriminate | lia]); try lia;
    try (apply IH; cbn [Private.set_currentStep Private.buffer Private.currentStep];
         [congruence | lia | lia]).
Qed.

Lemma calm_bind {A B} (m : Private.M A) (f : A -> Private.M B) :
  calm m -> (forall a, calm (f a)) -> calm (Private.bind m f).
Proof.
  intros Hm Hf p. unfold Private.bind. specialize (Hm p).
  destruct (m p) as [p' [a| | | | |]]; cbn [snd] in *; try exact I; try contradiction.
  apply Hf.
Qed.

Lemma calm_if {A} (c : bool) (m1 m2 : Private.M A) :
  calm m1 -> calm m2 -> calm (if c then m1 else m2).
Proof. now destruct c. Qed.

Lemma calm_Revert {A} (m : Private.M A) : calm m -> calm (Private.Revert m).
Proof.
  intros Hm p. unfold Private.Revert. specialize (Hm p).
  now destruct (m p) as [p' [a| | | | |]].
Qed.

Lemma calm_as_state (m : Private.M Private.State) : calm m -> calm (Private.as_state m).
Proof.
  intros Hm p. unfold Private.as_state. specialize (Hm p).
  now destruct (m p) as [p' [a| | | | |]].
Qed.

Ltac calm_prim :=
  intros ?;
  cbv [Private.ret Private.again Private.undefined Private.raise Private.get_parser
       Private.modify Private.modify_request Private.position Private.cursor_current
       Private.cursor_eof Private.cursor_eol Private.cursor_remaining
       Private.cursor_advance Private.text_from Private.advance_while
       Private.match_raw Private.match_until];
  try destruct (StreamCursor.advance _ _ _);
  try destruct (StreamCursor.scan _ _);
  try destruct (StreamCursor.matches _ _ _);
  exact I.

Lemma calm_advance_or_again n : calm (Private.advance_or_again n).
Proof. apply calm_bind; [calm_prim|]. intros [|]; calm_prim. Qed.

Ltac calm_tac :=
  repeat first
    [ assumption
    | apply calm_advance_or_again
    | apply calm_bind; [|intros ?]
    | apply calm_if
    | calm_prim ].

Lemma calm_match_method ms : calm (Private.match_method ms).
Proof.
  induction ms as [|[lit m] ms IH]; [calm_prim|].
  cbn [Private.match_method]. apply calm_bind; [calm_prim|].
  intros [|]; [calm_tac | exact IH].
Qed.

Lemma calm_query_loop fuel : calm (Private.query_loop fuel).
Proof.
  induction fuel as [|fuel IH]; cbn [Private.query_loop]; calm_tac.
Qed.

Lemma calm_version_of ver size : calm (Private.version_of ver size).
Proof. unfold Private.version_of. calm_tac. Qed.

Lemma calm_RequestLineStep fuel : calm (Private.RequestLineStep_apply fuel).
Proof.
  apply calm_as_state, calm_Revert. unfold Private.RequestLineStep_body.
  pose proof (calm_query_loop fuel). pose proof (calm_match_method Private.Methods).
  repeat first
    [ assumption
    | apply calm_version_of
    | apply calm_advance_or_again
    | apply calm_bind; [|intros ?]
    | apply calm_if
    | calm_prim ].
Qed.

Lemma calm_HeadersStep isRegistered fuel : calm (Private.HeadersStep_apply isRegistered fuel).
Proof.
  apply calm_as_state, calm_Revert. apply calm_bind; [|intros; calm_prim].
  induction fuel as [|fuel IH]; cbn [Private.headers_loop];
    (apply calm_bind; [calm_prim|]); intros o;
    (apply calm_if; [|calm_prim]); [calm_prim|].
  apply calm_bind; [|intros; exact IH].
  apply calm_Revert. calm_tac.
Qed.

Lemma read_remaining (b : string) (c : nat) :
  exists s, StreamCursor.read b c (StreamCursor.remaining b c) = Some s.
Proof.
  unfold StreamCursor.read, StreamCursor.remaining.
  destruct (Nat.eqb_spec (String.length b - c) 0) as [|Hn]; [eexists; reflexivity|].
  cbn [orb]. destruct (Nat.leb_spec (c + (String.length b - c)) (String.length b));
    [eexists; reflexivity | lia].
Qed.

Lemma read_advanced (b : string) (c : nat) (n : N) (q : nat) :
  StreamCursor.advance b c n = Some q ->
  exists s, StreamCursor.read b c (N.to_nat n) = Some s.
Proof.
  unfold StreamCursor.advance, StreamCursor.read, StreamCursor.remaining.
  destruct (N.leb_spec n (N.of_nat (String.length b - c))); [|discriminate]. intros _.
  destruct (Nat.eqb_spec (N.to_nat n) 0) as [|Hn]; [eexists; reflexivity|].
  cbn [orb]. destruct (Nat.leb_spec (c + N.to_nat n) (String.length b));
    [eexists; reflexivity | lia].
Qed.

(** The body step accounts for its faults. *)
Lemma BodyStep_faults (reserve_throws : N -> option Private.StdError) (p : Private.Parser) :
  faults_accounted reserve_throws p (snd (Private.BodyStep_apply reserve_throws p)).
Proof.
  destruct p as [b c st r k].
  cbv [Private.BodyStep_apply Private.as_state Private.BodyStep_body Private.bind
       Private.get_parser Private.position Private.cursor_advance Private.cursor_read
       Private.read_available Private.cursor_remaining Private.append_body
       Private.modify_request Private.modify Private.advance_or_again
       Private.reserve_body Private.ret Private.again Private.set_cursor
       Private.set_request Private.set_bytesRead Private.buffer Private.cursor
       Private.request Private.bytesRead Private.currentStep faults_accounted snd negb].
  destruct (Header.tryGet _ _) as [cl|]; [|exact I].
  destruct (0 <? k)%N eqn:Hk.
  - apply N.ltb_lt in Hk.
    destruct (StreamCursor.advance b c _) as [q|] eqn:Ha; cbv beta iota zeta.
    + destruct (StreamCursor.read b q _); [exact I | exact Hk].
    + destruct (read_remaining b c) as [s Hs]. rewrite Hs. cbv beta iota zeta.
      destruct (StreamCursor.advance b c (N.of_nat (StreamCursor.remaining b c))); exact I.
  - destruct (StreamCursor.advance b c 2) as [q|]; [|exact I]. cbv beta iota zeta.
    destruct (N.leb_spec (Header.ContentLength_value cl) (N.of_nat (String.length b)))
      as [Hle|Hgt];
      [|destruct (reserve_throws (Header.ContentLength_value cl)) eqn:Hr;
        [eexists; split; [exact Hr | exact Hgt]|]].
    all: cbv beta iota zeta;
         destruct (StreamCursor.advance b q (Header.ContentLength_value cl))
           as [q'|] eqn:Ha; cbv beta iota zeta;
         [ destruct (read_advanced _ _ _ _ Ha) as [s Hs]; rewrite Hs; exact I
         | destruct (read_remaining b q) as [s Hs]; rewrite Hs; cbv beta iota zeta;
           destruct (StreamCursor.advance b q (N.of_nat (StreamCursor.remaining b q)));
           exact I ].
Qed.

Lemma faults_accounted_frame {A} (reserve_throws : N -> option Private.StdError)
    (p q : Private.Parser) (flow : Private.Flow A) :
  Private.buffer q = Private.buffer p -> Private.bytesRead q = Private.bytesRead p ->
  faults_accounted reserve_throws q flow -> faults_accounted reserve_throws p flow.
Proof. intros Hb Hn. destruct flow; cbn; rewrite ?Hb, ?Hn; trivial. Qed.

Lemma parse_loop_faults (isRegistered : string -> bool)
    (reserve_throws : N -> option Private.StdError) (fuel n : nat) :
  forall p,
  faults_accounted reserve_throws p
    (snd (Private.parse_loop isRegistered reserve_throws n fuel p)).
Proof.
  induction n as [|n IH]; intros p; rewrite parse_loop_unfold;
    pose proof (calm_RequestLineStep fuel p) as Hc0;
    pose proof (calm_HeadersStep isRegistered fuel p) as Hc1;
    pose proof (BodyStep_faults reserve_throws p) as Hc2;
    pose proof (BodyStep_not_Next reserve_throws p) as Hnn;
    destruct (step_in_place isRegistered fuel p _ (or_introl eq_refl))
      as [(Hb0 & _ & Hn0) _];
    destruct (step_in_place isRegistered fuel p _ (or_intror eq_refl))
      as [(Hb1 & _ & Hn1) _];
    (destruct (Private.currentStep p) as [|[|[|i]]] eqn:Hi);
    cbn [lookup list_lookup Private.allSteps]; try exact I;
    match goal with
    | |- context [match ?step p with _ => _ end] =>
        destruct (step p) as [p' [[| |]| | | | |]]
    end;
    cbn [fst snd faults_accounted] in *; try exact I; try contradiction;
    try exact Hc2; try (now contradiction Hnn);
    apply (faults_accounted_frame _ _
             (Private.set_currentStep (S (Private.currentStep p')) p'));
    try assumption; apply IH.
Qed.

(** X28.  [Parser::parse] on a parser whose [currentStep] is one of the
    three entries of [allSteps]: the loops over the query pairs and the
    header fields end within the bytes of the buffer (each turn moves the
    cursor or leaves the loop) and the body step never returns [Next], so
    [allSteps] is not indexed past its end and [currentStep] is still one
    of its indices afterwards.  The call returns a state or throws an
    [HttpError], with two exceptions: an exception of the standard
    library passes through it only if [reserve] throws it for a
    Content-Length above the bytes of the buffer, and cells past the bytes
    fed are read only if the parser was entered with [bytesRead > 0]. *)
Theorem parse_within_steps (isRegistered : string -> bool)
    (reserve_throws : N -> option Private.StdError) (p : Private.Parser) :
  Private.currentStep p <= 2 ->
  snd (Private.Parser_parse isRegistered reserve_throws p) <> Private.Unknown
  /\ Private.currentStep (fst (Private.Parser_parse isRegistered reserve_throws p)) <= 2
  /\ (forall e,
        snd (Private.Parser_parse isRegistered reserve_throws p) = Private.Escaped e ->
        exists n, reserve_throws n = Some e
                  /\ (N.of_nat (String.length (Private.buffer p)) < n)%N)
  /\ (snd (Private.Parser_parse isRegistered reserve_throws p) = Private.Overran ->
      (0 < Private.bytesRead p)%N).
Proof.
  intros Hi. unfold Private.Parser_parse.
  destruct (parse_loop_defined isRegistered reserve_throws
              (S (String.length (Private.buffer p))) 3 p
              ltac:(lia) Hi ltac:(lia)) as [Hd Hc].
  pose proof (parse_loop_faults isRegistered reserve_throws
                (S (String.length (Private.buffer p))) 3 p) as Hf.
  destruct (Private.parse_loop _ _ _ _ p) as [p' [s| | | | |]]; cbn [fst snd] in *;
    (split; [try discriminate; congruence|]); (split; [exact Hc|]);
    (split; [intros e' He; try discriminate | intros Ho; try discriminate]).
  - injection He as <-. exact Hf.
  - exact Hf.
Qed.

Lemma parse_within_steps_witness :
  snd (Private.Parser_parse content_length_only (fun _ => Some Private.bad_alloc)
         (Private.mkParser
            ("POST /x?a=1 HTTP/1.1" +:+ CRLF +:+ "Content-Length: 9" +:+ CRLF +:+ CRLF
             +:+ "abc") 0 0 Request_new 0))
    <> Private.Unknown
  /\ Private.currentStep
       (fst (Private.Parser_parse content_length_only (fun _ => Some Private.bad_alloc)
               (Private.mkParser
                  ("POST /x?a=1 HTTP/1.1" +:+ CRLF +:+ "Content-Length: 9" +:+ CRLF +:+ CRLF
                   +:+ "abc") 0 0 Request_new 0))) <= 2.
Proof.
  destruct (parse_within_steps content_length_only (fun _ => Some Private.bad_alloc)
              (Private.mkParser
                 ("POST /x?a=1 HTTP/1.1" +:+ CRLF +:+ "Content-Length: 9" +:+ CRLF +:+ CRLF
                  +:+ "abc") 0 0 Request_new 0) ltac:(simpl; lia))
    as (H1 & H2 & _).
  exact (conj H1 H2).
Defined.
